(** * NodeModal: the node viewing and editing dialog

    A shallow embedding of [src/features/modals/NodeModal/index.tsx]:
    the three helpers [normalizeNodeData], [jsonPathToString] and
    [updateJsonAtPath], and the edit session of the [NodeModal]
    component with what it shows, together with the part of the
    JavaScript platform they run on (strings, numbers, ordinary objects
    and arrays, [JSON.parse] and [JSON.stringify]). *)

From Stdlib Require Import List String Ascii ZArith NArith Bool Lia.
Import ListNotations.

(* ===================================================================== *)
(** * Strings *)
(* ===================================================================== *)

(** A JavaScript string is a sequence of UTF-16 code units. *)
Definition jsstring := list N.

(** The string with the given ASCII characters. *)
Definition str (s : string) : jsstring :=
  map N_of_ascii (list_ascii_of_string s).

Definition QUOTE : N := 34.       (* the double quote character *)
Definition BACKSLASH : N := 92.
Definition LF : N := 10.

(** Texts holding double quotes are written with an apostrophe in the
    place of every double quote. *)
Definition lit (s : string) : jsstring :=
  map (fun c => if N.eqb c 39 then QUOTE else c) (str s).

Fixpoint join (sep : jsstring) (parts : list jsstring) : jsstring :=
  match parts with
  | [] => []
  | [p] => p
  | p :: rest => p ++ sep ++ join sep rest
  end.

(** A text given line by line. *)
Definition lines (ls : list string) : jsstring := join [LF] (map lit ls).

Fixpoint jsstring_eqb (a b : jsstring) : bool :=
  match a, b with
  | [], [] => true
  | x :: a', y :: b' => N.eqb x y && jsstring_eqb a' b'
  | _, _ => false
  end.

(** [s.startsWith(p)], returning what follows the prefix. *)
Fixpoint strip_prefix (p s : jsstring) : option jsstring :=
  match p, s with
  | [], _ => Some s
  | x :: p', y :: s' => if N.eqb x y then strip_prefix p' s' else None
  | _ :: _, [] => None
  end.

(** What follows the character [c] at the head of [s]. *)
Definition after (c : N) (s : jsstring) : option jsstring :=
  match s with
  | x :: r => if N.eqb x c then Some r else None
  | [] => None
  end.

Definition is_digit (c : N) : bool := (N.leb 48 c && N.leb c 57)%bool.

Definition digit_value (c : N) : Z := Z.of_N c - 48.

(** The run of decimal digits a string starts with, and the rest. *)
Fixpoint span_digits (s : jsstring) : jsstring * jsstring :=
  match s with
  | c :: r =>
      if is_digit c then let (ds, r') := span_digits r in (c :: ds, r')
      else ([], s)
  | [] => ([], [])
  end.

(** The value of a run of digits in a radix (most significant first). *)
Definition digits_value (radix : Z) (digit : N -> Z) (ds : jsstring) : Z :=
  fold_left (fun acc c => acc * radix + digit c)%Z ds 0%Z.

Definition decimal_value : jsstring -> Z := digits_value 10 digit_value.

(* ===================================================================== *)
(** * Numbers *)
(* ===================================================================== *)

(** The Number type: the IEEE 754 binary64 values.  [Fin neg m e]
    stands for [(-1)^neg * m * 2^e]; zero is [Fin _ 0 0], a subnormal
    has [e = -1074], a normal value has [2^52 <= m < 2^53] and
    [-1074 <= e <= 971]. *)
Inductive number : Type :=
| NaN
| Inf (neg : bool)
| Fin (neg : bool) (m : N) (e : Z).

Definition number_eqb (x y : number) : bool :=
  match x, y with
  | NaN, NaN => true
  | Inf a, Inf b => Bool.eqb a b
  | Fin a m e, Fin b m' e' => Bool.eqb a b && N.eqb m m' && Z.eqb e e'
  | _, _ => false
  end.

Definition is_finite (x : number) : bool :=
  match x with Fin _ _ _ => true | _ => false end.

Local Open Scope Z_scope.

(** [d * 2^l <= n], for either sign of [l]. *)
Definition scaled_le (d l n : Z) : bool :=
  if l <? 0 then d <=? n * 2 ^ (- l) else d * 2 ^ l <=? n.

(** The integer part of the binary logarithm of [n / d]. *)
Definition floor_log2_ratio (n d : Z) : Z :=
  let l := Z.log2 n - Z.log2 d in
  if scaled_le d l n then l else l - 1.

(** [num / den] rounded to the nearest integer, ties to even. *)
Definition round_half_even (num den : Z) : Z :=
  let q := num / den in
  let r := num mod den in
  match (2 * r ?= den) with
  | Lt => q
  | Gt => q + 1
  | Eq => if Z.even q then q else q + 1
  end.

(** The Number value for the rational [n / d] ([0 <= n], [0 < d]) with
    the given sign: round to nearest, ties to even; overflow gives an
    infinity and underflow a zero. *)
Definition round_ratio (neg : bool) (n d : Z) : number :=
  if n =? 0 then Fin neg 0 0 else
  let e := Z.max (floor_log2_ratio n d - 52) (-1074) in
  let num := if e <? 0 then n * 2 ^ (- e) else n in
  let den := if e <? 0 then d else d * 2 ^ e in
  let m := round_half_even num den in
  let m' := if m =? 2 ^ 53 then 2 ^ 52 else m in
  let e' := if m =? 2 ^ 53 then e + 1 else e in
  if m' =? 0 then Fin neg 0 0
  else if 971 <? e' then Inf neg
  else Fin neg (Z.to_N m') e'.

(** The Number value for [s * 10^p]. *)
Definition round_decimal (neg : bool) (s p : Z) : number :=
  if p <? 0 then round_ratio neg s (10 ^ (- p))
  else round_ratio neg (s * 10 ^ p) 1.

(** The Number value for an integer. *)
Definition number_of_Z (z : Z) : number :=
  round_ratio (z <? 0) (Z.abs z) 1.

Fixpoint uint_digits (u : Decimal.uint) : jsstring :=
  match u with
  | Decimal.Nil => []
  | Decimal.D0 u => 48%N :: uint_digits u
  | Decimal.D1 u => 49%N :: uint_digits u
  | Decimal.D2 u => 50%N :: uint_digits u
  | Decimal.D3 u => 51%N :: uint_digits u
  | Decimal.D4 u => 52%N :: uint_digits u
  | Decimal.D5 u => 53%N :: uint_digits u
  | Decimal.D6 u => 54%N :: uint_digits u
  | Decimal.D7 u => 55%N :: uint_digits u
  | Decimal.D8 u => 56%N :: uint_digits u
  | Decimal.D9 u => 57%N :: uint_digits u
  end.

(** The decimal digits of a natural number. *)
Definition decimal_digits (z : Z) : jsstring :=
  uint_digits (N.to_uint (Z.to_N z)).

(** The least [j >= 1], searched among the next [fuel] candidates, with
    [1 <= xn / xd * 10^j]. *)
Fixpoint first_scale (fuel : nat) (j xn xd : Z) : Z :=
  match fuel with
  | O => j
  | S f => if xd <=? xn * 10 ^ j then j else first_scale f (j + 1) xn xd
  end.

(** The [n] with [10^(n-1) <= xn / xd < 10^n]; the least positive
    Number is above [10^-324]. *)
Definition decimal_exponent (xn xd : Z) : Z :=
  if xd <=? xn then Z.of_nat (List.length (decimal_digits (xn / xd)))
  else 1 - first_scale 400 1 xn xd.

(** The integer part of [xn / xd * 10^q], and how the rest compares
    with one half. *)
Definition scale_floor (xn xd q : Z) : Z * comparison :=
  let num := if q <? 0 then xn else xn * 10 ^ q in
  let den := if q <? 0 then xd * 10 ^ (- q) else xd in
  (num / den, 2 * (num mod den) ?= den).

(** Number::toString, steps 5 of ECMA-262: the integers [s] and [n]
    such that [s * 10^(n-k)] has the Number value [x], [s] has [k]
    digits and [k] is as small as possible; of two such [s] the one
    closer to [x].  Seventeen digits identify every Number. *)
Fixpoint shortest_search (fuel : nat) (k : Z) (x : number) (xn xd n : Z)
  : Z * Z :=
  match fuel with
  | O => (fst (scale_floor xn xd (k - n)), n)
  | S f =>
      let '(lo, half) := scale_floor xn xd (k - n) in
      let hi := lo + 1 in
      let ok_lo := number_eqb (round_decimal false lo (n - k)) x in
      let ok_hi := number_eqb (round_decimal false hi (n - k)) x in
      let pick_hi := if hi =? 10 ^ k then (1, n + 1) else (hi, n) in
      match ok_lo, ok_hi with
      | true, true =>
          match half with
          | Lt => (lo, n)
          | Gt => pick_hi
          | Eq => if Z.even lo then (lo, n) else pick_hi
          end
      | true, false => (lo, n)
      | false, true => pick_hi
      | false, false => shortest_search f (k + 1) x xn xd n
      end
  end.

Definition shortest_decimal (m : N) (e : Z) : Z * Z :=
  let xn := if e <? 0 then Z.of_N m else Z.of_N m * 2 ^ e in
  let xd := if e <? 0 then 2 ^ (- e) else 1 in
  shortest_search 17 1 (Fin false m e) xn xd (decimal_exponent xn xd).

Definition zeros (n : Z) : jsstring := repeat 48%N (Z.to_nat n).

(** Number::toString, steps 6 to 10: the digits of [s] placed by [n]. *)
Definition format_decimal (s n : Z) : jsstring :=
  let ds := decimal_digits s in
  let k := Z.of_nat (List.length ds) in
  if (k <=? n) && (n <=? 21) then ds ++ zeros (n - k)
  else if (0 <? n) && (n <=? 21) then
    firstn (Z.to_nat n) ds ++ str "." ++ skipn (Z.to_nat n) ds
  else if (-6 <? n) && (n <=? 0) then str "0." ++ zeros (- n) ++ ds
  else
    let ex := str "e" ++ (if n - 1 <? 0 then str "-" else str "+")
                ++ decimal_digits (Z.abs (n - 1)) in
    if k =? 1 then ds ++ ex
    else firstn 1 ds ++ str "." ++ skipn 1 ds ++ ex.

(** ToString applied to a Number. *)
Definition Number_toString (x : number) : jsstring :=
  match x with
  | NaN => str "NaN"
  | Inf neg => (if neg then str "-" else []) ++ str "Infinity"
  | Fin _ 0%N _ => str "0"
  | Fin neg m e =>
      let '(s, n) := shortest_decimal m e in
      (if neg then str "-" else []) ++ format_decimal s n
  end.

(** ** Numeric literals *)

Definition is_nil {A : Type} (l : list A) : bool :=
  match l with [] => true | _ => false end.

(** An optional exponent part [e], [e+] or [e-] followed by digits: its
    value (0 when there is none) and the rest; [None] when an exponent
    mark is followed by no digit. *)
Definition scan_exponent (s : jsstring) : option (Z * jsstring) :=
  match s with
  | c :: r =>
      if (N.eqb c 101 || N.eqb c 69)%bool then
        let '(neg, r1) :=
          match after 43 r, after 45 r with
          | Some r1, _ => (false, r1)
          | None, Some r1 => (true, r1)
          | None, None => (false, r)
          end in
        let (ds, r2) := span_digits r1 in
        if is_nil ds then None
        else Some (if neg then - decimal_value ds else decimal_value ds, r2)
      else Some (0, s)
  | [] => Some (0, [])
  end.

(** An optional minus sign. *)
Definition scan_sign (s : jsstring) : bool * jsstring :=
  match after 45 s with
  | Some r => (true, r)
  | None => (false, s)
  end.

(** The integer part of a JSON number: [0], or digits (which then do
    not start with 0). *)
Definition scan_int (s : jsstring) : option (jsstring * jsstring) :=
  match after 48 s with
  | Some r => Some ([48%N], r)
  | None =>
      let (ds, r) := span_digits s in
      if is_nil ds then None else Some (ds, r)
  end.

(** An optional fraction: a point followed by digits. *)
Definition scan_fraction (s : jsstring) : option (jsstring * jsstring) :=
  match after 46 s with
  | Some r =>
      let (fp, r2) := span_digits r in
      if is_nil fp then None else Some (fp, r2)
  | None => Some ([], s)
  end.

(** A JSON number at the head of [s]: [-? int frac? exp?].  Its value
    is rounded to the nearest Number. *)
Definition parse_number (s : jsstring) : option (number * jsstring) :=
  let (neg, s1) := scan_sign s in
  match scan_int s1 with
  | None => None
  | Some (ip, r1) =>
      match scan_fraction r1 with
      | None => None
      | Some (fp, r2) =>
          match scan_exponent r2 with
          | None => None
          | Some (ex, r3) =>
              Some (round_decimal neg (decimal_value (ip ++ fp))
                      (ex - Z.of_nat (List.length fp)), r3)
          end
      end
  end.

(** White space and line terminators, as ToNumber trims them. *)
Definition is_str_whitespace (c : N) : bool :=
  (N.leb 9 c && N.leb c 13 || N.eqb c 32 || N.eqb c 160 || N.eqb c 5760
   || N.leb 8192 c && N.leb c 8202 || N.eqb c 8232 || N.eqb c 8233
   || N.eqb c 8239 || N.eqb c 8287 || N.eqb c 12288 || N.eqb c 65279)%bool.

Fixpoint trim_start (s : jsstring) : jsstring :=
  match s with
  | c :: r => if is_str_whitespace c then trim_start r else s
  | [] => []
  end.

Definition trim (s : jsstring) : jsstring :=
  rev (trim_start (rev (trim_start s))).

Definition hex_value (c : N) : option Z :=
  if is_digit c then Some (Z.of_N c - 48)
  else if (N.leb 97 c && N.leb c 102)%bool then Some (Z.of_N c - 87)
  else if (N.leb 65 c && N.leb c 70)%bool then Some (Z.of_N c - 55)
  else None.

Definition digit_below (radix : Z) (c : N) : bool :=
  match hex_value c with Some d => d <? radix | None => false end.

Definition radix_digit (c : N) : Z :=
  match hex_value c with Some d => d | None => 0 end.

(** The digits after a radix prefix [0x], [0o] or [0b]. *)
Definition radix_literal (radix : Z) (ds : jsstring) : number :=
  if (negb (is_nil ds) && forallb (digit_below radix) ds)%bool
  then number_of_Z (digits_value radix radix_digit ds)
  else NaN.

(** StrUnsignedDecimalLiteral: [Infinity], [digits . digits? exp?],
    [. digits exp?] or [digits exp?], and nothing after it. *)
Definition unsigned_decimal_literal (neg : bool) (s : jsstring) : number :=
  if jsstring_eqb s (str "Infinity") then Inf neg else
  let (ip, r1) := span_digits s in
  let (fp, r2) :=
    match after 46 r1 with
    | Some r => span_digits r
    | None => ([], r1)
    end in
  if (is_nil ip && is_nil fp)%bool then NaN else
  match scan_exponent r2 with
  | Some (ex, []) =>
      round_decimal neg (decimal_value (ip ++ fp))
        (ex - Z.of_nat (List.length fp))
  | _ => NaN
  end.

(** ToNumber applied to a String (StringToNumber). *)
Definition StringToNumber (s : jsstring) : number :=
  match trim s with
  | [] => Fin false 0 0
  | 48%N :: p :: ds =>
      if (N.eqb p 120 || N.eqb p 88)%bool then radix_literal 16 ds
      else if (N.eqb p 111 || N.eqb p 79)%bool then radix_literal 8 ds
      else if (N.eqb p 98 || N.eqb p 66)%bool then radix_literal 2 ds
      else unsigned_decimal_literal false (48%N :: p :: ds)
  | 43%N :: r => unsigned_decimal_literal false r
  | 45%N :: r => unsigned_decimal_literal true r
  | t => unsigned_decimal_literal false t
  end.

(** The array length a Number stands for: [Some n] when ToUint32 of the
    number is the number itself, as ArraySetLength requires. *)
Definition array_length_of (x : number) : option N :=
  match x with
  | Fin _ 0%N _ => Some 0%N
  | Fin false m e =>
      if 0 <=? e then
        if Z.of_N m * 2 ^ e <? 2 ^ 32 then Some (Z.to_N (Z.of_N m * 2 ^ e))
        else None
      else if Z.of_N m mod 2 ^ (- e) =? 0 then
        if Z.of_N m / 2 ^ (- e) <? 2 ^ 32
        then Some (Z.to_N (Z.of_N m / 2 ^ (- e))) else None
      else None
  | _ => None
  end.

Local Close Scope Z_scope.

(* ===================================================================== *)
(** * Values, objects and arrays *)
(* ===================================================================== *)

(** The values a JSON document is made of.  An object lists its own
    properties in the order the language enumerates them (see
    [define_property]); an array lists its elements, [None] standing
    for a hole (an index below the length that holds no element). *)
Unset Elimination Schemes.
Inductive jsval : Type :=
| JNull
| JBool (b : bool)
| JNum (n : number)
| JStr (s : jsstring)
| JArr (elems : list (option jsval))
| JObj (props : list (jsstring * jsval)).
Set Elimination Schemes.

Definition properties (V : Type) := list (jsstring * V).

(** The integer a canonical numeric string of decimal digits stands
    for: [0], or digits that do not start with 0. *)
Definition canonical_index (k : jsstring) : option N :=
  match k with
  | [] => None
  | c :: r =>
      if (forallb is_digit k && (negb (N.eqb c 48) || is_nil r))%bool
      then Some (Z.to_N (decimal_value k)) else None
  end.

(** An array index: a canonical numeric string for an integer below
    [2^32 - 1]. *)
Definition array_index (k : jsstring) : option N :=
  match canonical_index k with
  | Some i => if N.ltb i 4294967295 then Some i else None
  | None => None
  end.

Section Properties.
Context {V : Type}.

(** The value of the own property [k]. *)
Fixpoint own_property (k : jsstring) (ps : properties V) : option V :=
  match ps with
  | [] => None
  | (k', v) :: rest =>
      if jsstring_eqb k k' then Some v else own_property k rest
  end.

Definition has_own (k : jsstring) (ps : properties V) : bool :=
  match own_property k ps with Some _ => true | None => false end.

(** The value of an existing own property is replaced where it stands. *)
Fixpoint replace_property (k : jsstring) (v : V) (ps : properties V)
  : properties V :=
  match ps with
  | [] => []
  | (k', v') :: rest =>
      if jsstring_eqb k k' then (k', v) :: rest
      else (k', v') :: replace_property k v rest
  end.

(** A new property named by the array index [i] goes after the
    properties named by smaller indices. *)
Fixpoint insert_index (i : N) (k : jsstring) (v : V) (ps : properties V)
  : properties V :=
  match ps with
  | [] => [(k, v)]
  | (k', v') :: rest =>
      match array_index k' with
      | Some j =>
          if N.ltb j i then (k', v') :: insert_index i k v rest
          else (k, v) :: ps
      | None => (k, v) :: ps
      end
  end.

(** CreateDataProperty on an ordinary object.  Own property keys are
    enumerated with the array indices first, in ascending order, then
    the other strings in the order they were created. *)
Definition define_property (k : jsstring) (v : V) (ps : properties V)
  : properties V :=
  if has_own k ps then replace_property k v ps
  else match array_index k with
       | Some i => insert_index i k v ps
       | None => ps ++ [(k, v)]
       end.

End Properties.

Definition PROTO : jsstring := str "__proto__".
Definition LENGTH : jsstring := str "length".

(** The values this program assigns to properties: strings, numbers,
    booleans and null. *)
Inductive scalar : Type :=
| SNull
| SBool (b : bool)
| SNum (n : number)
| SStr (s : jsstring).

Definition value_of_scalar (v : scalar) : jsval :=
  match v with
  | SNull => JNull
  | SBool b => JBool b
  | SNum n => JNum n
  | SStr s => JStr s
  end.

(** ToNumber applied to a scalar. *)
Definition ToNumber (v : scalar) : number :=
  match v with
  | SNull => Fin false 0 0
  | SBool b => if b then number_of_Z 1 else Fin false 0 0
  | SNum n => n
  | SStr s => StringToNumber s
  end.

(** ToString applied to a scalar. *)
Definition ToString (v : scalar) : jsstring :=
  match v with
  | SNull => str "null"
  | SBool b => if b then str "true" else str "false"
  | SNum n => Number_toString n
  | SStr s => s
  end.

(** [o[k] = v] on an ordinary object whose own properties are [ps];
    [inherits] tells that its prototype is still [Object.prototype],
    and [store] how the object holds a scalar.  An own property is
    overwritten.  Otherwise the assignment goes to the prototype chain:
    [Object.prototype] holds one accessor, [__proto__], whose setter
    makes null the prototype of the object when [v] is null and
    ignores every other scalar; its other properties are writable data
    properties, so that the assignment creates an own property. *)
Definition ordinary_set {V : Type} (store : scalar -> V) (inherits : bool)
  (k : jsstring) (v : scalar) (ps : properties V) : bool * properties V :=
  if has_own k ps then (inherits, replace_property k (store v) ps)
  else if (inherits && jsstring_eqb k PROTO)%bool then
    match v with
    | SNull => (false, ps)
    | _ => (inherits, ps)
    end
  else (inherits, define_property k (store v) ps).

(** ** Arrays *)

(** [a.length = n]: the elements from [n] on are deleted, or holes make
    up for the missing ones. *)
Definition set_length {A : Type} (n : nat) (xs : list (option A))
  : list (option A) :=
  firstn n xs ++ repeat None (n - List.length xs).

(** [a[i] = v] for an array index [i]. *)
Fixpoint set_element {A : Type} (i : nat) (v : A) (xs : list (option A))
  : list (option A) :=
  match i, xs with
  | O, [] => [Some v]
  | O, _ :: rest => Some v :: rest
  | S i', [] => None :: set_element i' v []
  | S i', x :: rest => x :: set_element i' v rest
  end.

(** The element at an index, [None] for a hole and past the end. *)
Definition element {A : Type} (i : nat) (xs : list (option A)) : option A :=
  match nth_error xs i with
  | Some (Some v) => Some v
  | _ => None
  end.

(* ===================================================================== *)
(** * JSON.stringify *)
(* ===================================================================== *)

Local Open Scope N_scope.

Definition hex_digit (n : N) : N := if n <? 10 then 48 + n else 87 + n.

(** The escape [\uXXXX] of a code unit, in lower case. *)
Definition unicode_escape (c : N) : jsstring :=
  [BACKSLASH; 117; hex_digit (c / 4096 mod 16); hex_digit (c / 256 mod 16);
   hex_digit (c / 16 mod 16); hex_digit (c mod 16)].

Definition is_leading_surrogate (c : N) : bool := (55296 <=? c) && (c <=? 56319).
Definition is_trailing_surrogate (c : N) : bool := (56320 <=? c) && (c <=? 57343).

(** The short escapes of QuoteJSONString. *)
Definition short_escape (c : N) : option N :=
  if c =? 8 then Some 98          (* \b *)
  else if c =? 9 then Some 116    (* \t *)
  else if c =? 10 then Some 110   (* \n *)
  else if c =? 12 then Some 102   (* \f *)
  else if c =? 13 then Some 114   (* \r *)
  else if c =? 34 then Some 34    (* the double quote *)
  else if c =? 92 then Some 92    (* the backslash *)
  else None.

(** The characters of a quoted string: the escapes above, [\uXXXX] for
    the other control characters and for surrogates that are not part
    of a pair, and every other code point as it is. *)
Fixpoint quote_chars (s : jsstring) : jsstring :=
  match s with
  | [] => []
  | c :: r =>
      match short_escape c with
      | Some e => BACKSLASH :: e :: quote_chars r
      | None =>
          if c <? 32 then unicode_escape c ++ quote_chars r
          else if is_leading_surrogate c then
            match r with
            | d :: r' =>
                if is_trailing_surrogate d then c :: d :: quote_chars r'
                else unicode_escape c ++ quote_chars r
            | [] => unicode_escape c
            end
          else if is_trailing_surrogate c then
            unicode_escape c ++ quote_chars r
          else c :: quote_chars r
      end
  end.

Definition QuoteJSONString (s : jsstring) : jsstring :=
  QUOTE :: quote_chars s ++ [QUOTE].

Local Close Scope N_scope.

(** The indentation unit of [JSON.stringify(value, null, 2)]. *)
Definition GAP : jsstring := str "  ".

Definition wrap_lines (opening closing : string) (indent : jsstring)
  (parts : list jsstring) : jsstring :=
  match parts with
  | [] => str opening ++ str closing
  | _ =>
      str opening ++ [LF] ++ (indent ++ GAP)
        ++ join (str "," ++ [LF] ++ indent ++ GAP) parts
        ++ [LF] ++ indent ++ str closing
  end.

(** SerializeJSONProperty with the gap of two spaces, at the given
    current indentation.  A number that is not finite and a hole of an
    array are written [null]. *)
Fixpoint serialize (indent : jsstring) (v : jsval) : jsstring :=
  match v with
  | JNull => str "null"
  | JBool true => str "true"
  | JBool false => str "false"
  | JNum n => if is_finite n then Number_toString n else str "null"
  | JStr s => QuoteJSONString s
  | JArr xs =>
      wrap_lines "[" "]" indent
        (map (fun x => match x with
                       | Some e => serialize (indent ++ GAP) e
                       | None => str "null"
                       end) xs)
  | JObj ps =>
      wrap_lines "{" "}" indent
        (map (fun p => match p with
                       | (k, e) =>
                           QuoteJSONString k ++ str ": "
                             ++ serialize (indent ++ GAP) e
                       end) ps)
  end.

(** [JSON.stringify(v, null, 2)]. *)
Definition JSON_stringify (v : jsval) : jsstring := serialize [] v.

(* ===================================================================== *)
(** * JSON.parse *)
(* ===================================================================== *)

Local Open Scope N_scope.

(** JSON white space: tab, line feed, carriage return and space. *)
Definition is_json_whitespace (c : N) : bool :=
  (c =? 9) || (c =? 10) || (c =? 13) || (c =? 32).

Fixpoint skip_ws (s : jsstring) : jsstring :=
  match s with
  | c :: r => if is_json_whitespace c then skip_ws r else s
  | [] => []
  end.

(** The character an escape [\c] of a JSON string stands for. *)
Definition single_escape (c : N) : option N :=
  if c =? 34 then Some 34         (* the double quote *)
  else if c =? 92 then Some 92    (* \\ *)
  else if c =? 47 then Some 47    (* \/ *)
  else if c =? 98 then Some 8     (* \b *)
  else if c =? 102 then Some 12   (* \f *)
  else if c =? 110 then Some 10   (* \n *)
  else if c =? 114 then Some 13   (* \r *)
  else if c =? 116 then Some 9    (* \t *)
  else None.

Definition hex4 (a b c d : N) : option N :=
  match hex_value a, hex_value b, hex_value c, hex_value d with
  | Some x, Some y, Some z, Some w =>
      Some (Z.to_N (((x * 16 + y) * 16 + z) * 16 + w))
  | _, _, _, _ => None
  end.

Definition prepend (c : N) (r : option (jsstring * jsstring))
  : option (jsstring * jsstring) :=
  match r with
  | Some (s, rest) => Some (c :: s, rest)
  | None => None
  end.

(** The characters of a JSON string up to its closing quote, and what
    follows it. *)
Fixpoint parse_string (s : jsstring) : option (jsstring * jsstring) :=
  match s with
  | [] => None
  | c :: r =>
      if c =? 34 then Some ([], r)
      else if c =? 92 then
        match r with
        | e :: r1 =>
            if e =? 117 then
              match r1 with
              | h1 :: h2 :: h3 :: h4 :: r2 =>
                  match hex4 h1 h2 h3 h4 with
                  | Some u => prepend u (parse_string r2)
                  | None => None
                  end
              | _ => None
              end
            else
              match single_escape e with
              | Some u => prepend u (parse_string r1)
              | None => None
              end
        | [] => None
        end
      else if c <? 32 then None
      else prepend c (parse_string r)
  end.

Inductive parse_result (A : Type) : Type :=
| Parsed (a : A) (rest : jsstring)
| Malformed
| Exhausted.
Arguments Parsed {A} a rest.
Arguments Malformed {A}.
Arguments Exhausted {A}.

Definition parse_keyword (word : string) (v : jsval) (s : jsstring)
  : parse_result jsval :=
  match strip_prefix (str word) s with
  | Some rest => Parsed v rest
  | None => Malformed
  end.

(** A JSON value at the head of [s], after white space; the elements of
    an array after its first bracket; the members of an object after
    its first brace.  The members are created in the order of the text
    by CreateDataProperty, so that of two members of one name the
    second gives the value.  Every call takes a unit of [fuel]. *)
Fixpoint parse_value (fuel : nat) (s : jsstring) {struct fuel}
  : parse_result jsval :=
  match fuel with
  | O => Exhausted
  | S f =>
      match skip_ws s with
      | [] => Malformed
      | c :: r =>
          if c =? 34 then
            match parse_string r with
            | Some (chars, rest) => Parsed (JStr chars) rest
            | None => Malformed
            end
          else if c =? 91 then
            match after 93 (skip_ws r) with
            | Some rest => Parsed (JArr []) rest
            | None => parse_elements f [] r
            end
          else if c =? 123 then
            match after 125 (skip_ws r) with
            | Some rest => Parsed (JObj []) rest
            | None => parse_members f [] r
            end
          else if c =? 116 then parse_keyword "true" (JBool true) (c :: r)
          else if c =? 102 then parse_keyword "false" (JBool false) (c :: r)
          else if c =? 110 then parse_keyword "null" JNull (c :: r)
          else
            match parse_number (c :: r) with
            | Some (n, rest) => Parsed (JNum n) rest
            | None => Malformed
            end
      end
  end
with parse_elements (fuel : nat) (acc : list (option jsval)) (s : jsstring)
  {struct fuel} : parse_result jsval :=
  match fuel with
  | O => Exhausted
  | S f =>
      match parse_value f s with
      | Parsed v r =>
          match after 44 (skip_ws r), after 93 (skip_ws r) with
          | Some rest, _ => parse_elements f (acc ++ [Some v]) rest
          | None, Some rest => Parsed (JArr (acc ++ [Some v])) rest
          | None, None => Malformed
          end
      | Malformed => Malformed
      | Exhausted => Exhausted
      end
  end
with parse_members (fuel : nat) (acc : properties jsval) (s : jsstring)
  {struct fuel} : parse_result jsval :=
  match fuel with
  | O => Exhausted
  | S f =>
      match after 34 (skip_ws s) with
      | Some r =>
          match parse_string r with
          | Some (k, r1) =>
              match after 58 (skip_ws r1) with
              | Some r2 =>
                  match parse_value f r2 with
                  | Parsed v r3 =>
                      match after 44 (skip_ws r3), after 125 (skip_ws r3) with
                      | Some rest, _ =>
                          parse_members f (define_property k v acc) rest
                      | None, Some rest =>
                          Parsed (JObj (define_property k v acc)) rest
                      | None, None => Malformed
                      end
                  | Malformed => Malformed
                  | Exhausted => Exhausted
                  end
              | None => Malformed
              end
          | None => Malformed
          end
      | None => Malformed
      end
  end.

Local Close Scope N_scope.

(** [JSON.parse(text)]: [None] when it throws a SyntaxError.  The fuel
    is enough for every text (see [parse_value_fuel]). *)
Definition JSON_parse (text : jsstring) : option jsval :=
  match parse_value (2 * List.length text + 1) text with
  | Parsed v rest => if is_nil (skip_ws rest) then Some v else None
  | _ => None
  end.

(* ===================================================================== *)
(** * Evaluation outcomes and the built-in objects *)
(* ===================================================================== *)

Inductive error : Type := SyntaxError | TypeError | RangeError.

(** How the evaluation of a piece of code ends: normally with a value,
    by throwing, or by reaching a built-in object or function of the
    realm (a prototype object or one of its methods), whose further
    behaviour this development does not describe. *)
Inductive completion (A : Type) : Type :=
| Normal (a : A)
| Throw (e : error)
| Unmodelled.
Arguments Normal {A} a.
Arguments Throw {A} e.
Arguments Unmodelled {A}.

Definition bind {A B : Type} (c : completion A) (k : A -> completion B)
  : completion B :=
  match c with
  | Normal a => k a
  | Throw e => Throw e
  | Unmodelled => Unmodelled
  end.

Notation "'do' x <- c ; k" := (bind c (fun x => k))
  (at level 10, x pattern, c at level 100, k at level 200).

Inductive kind : Type := KObject | KArray | KString | KNumber | KBoolean.

(** A value that is no JSON value, read from the prototype chain of an
    ordinary object: [Object.prototype] itself, which its accessor
    [__proto__] returns, or the method that [Object.prototype] holds
    under a name ([toString], [constructor], ...). *)
Inductive builtin : Type :=
| ObjectPrototype
| Method (name : jsstring).

(** The built-in objects of the realm the code runs in, which depend on
    the engine and the edition of the language: [inherited kd k] tells
    that a value of kind [kd] that has no own property [k] finds [k] on
    its prototype chain, where it names a method ([toString],
    [constructor], [map], ...); [method_text name] is ToString of the
    method [Object.prototype] holds under [name], a text the engine
    chooses.  The accessor [__proto__] of [Object.prototype] is on
    every chain. *)
Class Realm : Type := {
  inherited : kind -> jsstring -> bool;
  method_text : jsstring -> jsstring
}.

Section Evaluation.
Context {realm : Realm}.

(** The property [k] looked up past the own properties of a value:
    [undefined] when no prototype has it. *)
Definition from_prototype (kd : kind) (k : jsstring)
  : completion (option jsval) :=
  if (jsstring_eqb k PROTO || inherited kd k)%bool then Unmodelled
  else Normal None.

Definition number_of_nat (n : nat) : number := number_of_Z (Z.of_nat n).

(** [v[k]], where [None] stands for [undefined], as a value and as a
    result. *)
Definition get (v : option jsval) (k : jsstring)
  : completion (option jsval) :=
  match v with
  | None => Throw TypeError
  | Some JNull => Throw TypeError
  | Some (JObj ps) =>
      match own_property k ps with
      | Some x => Normal (Some x)
      | None => from_prototype KObject k
      end
  | Some (JArr xs) =>
      match array_index k with
      | Some i =>
          match element (N.to_nat i) xs with
          | Some x => Normal (Some x)
          | None => from_prototype KArray k
          end
      | None =>
          if jsstring_eqb k LENGTH
          then Normal (Some (JNum (number_of_nat (List.length xs))))
          else from_prototype KArray k
      end
  | Some (JStr s) =>
      match canonical_index k with
      | Some i =>
          match nth_error s (N.to_nat i) with
          | Some c => Normal (Some (JStr [c]))
          | None => from_prototype KString k
          end
      | None =>
          if jsstring_eqb k LENGTH
          then Normal (Some (JNum (number_of_nat (List.length s))))
          else from_prototype KString k
      end
  | Some (JNum _) => from_prototype KNumber k
  | Some (JBool _) => from_prototype KBoolean k
  end.

(** [typeof v]. *)
Definition typeof (v : option jsval) : jsstring :=
  match v with
  | None => str "undefined"
  | Some JNull | Some (JArr _) | Some (JObj _) => str "object"
  | Some (JBool _) => str "boolean"
  | Some (JNum _) => str "number"
  | Some (JStr _) => str "string"
  end.

Definition is_null (v : option jsval) : bool :=
  match v with Some JNull => true | _ => false end.

End Evaluation.

(* ===================================================================== *)
(** * updateJsonAtPath *)
(* ===================================================================== *)

(** A path segment: [string | number]. *)
Inductive segment : Type :=
| SegStr (s : jsstring)
| SegNum (n : number).

(** ToPropertyKey applied to a segment. *)
Definition property_key (seg : segment) : jsstring :=
  match seg with
  | SegStr s => s
  | SegNum n => Number_toString n
  end.

(** [Record<string, string>]: the entries of the object, in the order
    [Object.entries] lists them. *)
Definition record := properties jsstring.

Section UpdateJsonAtPath.
Context {realm : Realm}.

(** The loop [for (...) current = current[path[i]]].  Beside [current]
    it keeps the keys followed so far: while [current] is an object or
    an array it is the part of the parsed document found under these
    keys (see [walk_place]), which an assignment to [current] changes. *)
Fixpoint walk (current : option jsval) (place : list jsstring)
  (path : list segment) : completion (option jsval * list jsstring) :=
  match path with
  | [] => Normal (current, place)
  | seg :: rest =>
      do next <- get current (property_key seg);
      walk next (place ++ [property_key seg]) rest
  end.

(** The value of the first property named [k] changed by [f]. *)
Fixpoint update_property (k : jsstring) (f : jsval -> jsval)
  (ps : properties jsval) : properties jsval :=
  match ps with
  | [] => []
  | (k', v) :: rest =>
      if jsstring_eqb k k' then (k', f v) :: rest
      else (k', v) :: update_property k f rest
  end.

(** The element at index [i] changed by [f]. *)
Fixpoint update_element (i : nat) (f : jsval -> jsval)
  (xs : list (option jsval)) : list (option jsval) :=
  match i, xs with
  | _, [] => []
  | O, x :: rest => option_map f x :: rest
  | S i', x :: rest => x :: update_element i' f rest
  end.

(** The document with the part under the keys [place] changed by [f]. *)
Fixpoint update_at (place : list jsstring) (f : jsval -> jsval) (v : jsval)
  : jsval :=
  match place with
  | [] => f v
  | k :: rest =>
      match v with
      | JObj ps => JObj (update_property k (update_at rest f) ps)
      | JArr xs =>
          match array_index k with
          | Some i => JArr (update_element (N.to_nat i) (update_at rest f) xs)
          | None => v
          end
      | _ => v
      end
  end.

(** The part of a document under the keys [place]. *)
Fixpoint part_at (place : list jsstring) (v : jsval) : option jsval :=
  match place with
  | [] => Some v
  | k :: rest =>
      match v with
      | JObj ps =>
          match own_property k ps with
          | Some x => part_at rest x
          | None => None
          end
      | JArr xs =>
          match array_index k with
          | Some i =>
              match element (N.to_nat i) xs with
              | Some x => part_at rest x
              | None => None
              end
          | None => None
          end
      | _ => None
      end
  end.

(** [a[k] = v] on an array: an array index sets an element (past the
    end, the array grows); [length] takes ToNumber of the value, which
    must be an array length; any other key makes a property beside the
    elements, which [JSON.stringify] does not write (or is the ignored
    [__proto__]). *)
Definition array_set (k : jsstring) (v : scalar) (xs : list (option jsval))
  : completion (list (option jsval)) :=
  match array_index k with
  | Some i => Normal (set_element (N.to_nat i) (value_of_scalar v) xs)
  | None =>
      if jsstring_eqb k LENGTH then
        match array_length_of (ToNumber v) with
        | Some n => Normal (set_length (N.to_nat n) xs)
        | None => Throw RangeError
        end
      else Normal xs
  end.

(** [current[key] = value] for an object or array [current] of the
    parsed document. *)
Definition assign (current : jsval) (k : jsstring) (v : scalar)
  : completion jsval :=
  match current with
  | JObj ps => Normal (JObj (snd (ordinary_set value_of_scalar true k v ps)))
  | JArr xs => do xs' <- array_set k v xs; Normal (JArr xs')
  | other => Normal other
  end.

(** [Object.entries(newValues).forEach(([key, value]) => ...)]. *)
Fixpoint assign_entries (newValues : record) (current : jsval)
  : completion jsval :=
  match newValues with
  | [] => Normal current
  | (k, v) :: rest =>
      do current' <- assign current k (SStr v);
      assign_entries rest current'
  end.

(** The body of the [try] block. *)
Definition try_update (json : jsstring) (path : list segment)
  (newValues : record) : completion jsstring :=
  match JSON_parse json with
  | None => Throw SyntaxError
  | Some obj =>
      do (current, place) <- walk (Some obj) [] path;
      match current with
      | Some target =>
          if (jsstring_eqb (typeof current) (str "object")
              && negb (is_null current))%bool
          then
            do target' <- assign_entries newValues target;
            Normal (JSON_stringify (update_at place (fun _ => target') obj))
          else Normal (JSON_stringify obj)
      | None => Normal (JSON_stringify obj)
      end
  end.

(** What a call leaves behind: the string it returns and the errors it
    passed to [console.error]. *)
Record outcome : Type := { returned : jsstring; logged : list error }.

(** [updateJsonAtPath(json, path, newValues)]: the [catch] block logs
    the error and returns [json]. *)
Definition updateJsonAtPath (json : jsstring) (path : list segment)
  (newValues : record) : completion outcome :=
  match try_update json path newValues with
  | Normal s => Normal {| returned := s; logged := [] |}
  | Throw e => Normal {| returned := json; logged := [e] |}
  | Unmodelled => Unmodelled
  end.

End UpdateJsonAtPath.

(* ===================================================================== *)
(** * Nodes and rows *)
(* ===================================================================== *)

(** What a row holds as its value at run time: a JSON scalar, as the
    type of the rows declares, or a built-in value, which Save stores
    there when it reads one from the edited values (see
    [edited_value]). *)
Inductive cell : Type :=
| Held (v : scalar)
| Foreign (b : builtin).

(** Modelled from the spec: the declarations of [NodeData] and of its
    rows (the module [types/graph]) are not among the sources.  A row
    has an optional [key] ([None] for null and undefined, which this
    code does not tell apart), a [value] and a [type] tag; a node has
    its rows, [text], and an optional [path].  Whatever else a row or
    a node holds is kept in one more field. *)
Record NodeRow (R : Type) : Type := {
  key : option jsstring;
  value : cell;
  type : jsstring;
  row_rest : R
}.
Arguments key {R} _.
Arguments value {R} _.
Arguments type {R} _.
Arguments row_rest {R} _.

Record NodeData (R D : Type) : Type := {
  text : list (NodeRow R);
  path : option (list segment);
  node_rest : D
}.
Arguments text {R D} _.
Arguments path {R D} _.
Arguments node_rest {R D} _.

(** The prototype of the object that [normalizeNodeData] fills:
    [Object.prototype] at first, and what an assignment to [__proto__]
    made of it. *)
Inductive parent : Type :=
| ParentObject
| ParentNull
| ParentMethod (name : jsstring).

Section Helpers.
Context {realm : Realm} {R : Type}.

(** ToString applied to the value of a row. *)
Definition cell_text (c : cell) : jsstring :=
  match c with
  | Held v => ToString v
  | Foreign ObjectPrototype => str "[object Object]"
  | Foreign (Method name) => method_text name
  end.

(** The value of a row as [JSON.stringify] writes a property that
    holds it: a function is left out, and [Object.prototype] has no
    enumerable property of its own. *)
Definition cell_json (c : cell) : option jsval :=
  match c with
  | Held v => Some (value_of_scalar v)
  | Foreign ObjectPrototype => Some (JObj [])
  | Foreign (Method _) => None
  end.

(** ToBoolean of a key: null, undefined and the empty string are
    falsy. *)
Definition truthy (k : option jsstring) : bool :=
  match k with
  | Some (_ :: _) => true
  | _ => false
  end.

(** [row.type !== "array" && row.type !== "object"]. *)
Definition is_scalar_row (row : NodeRow R) : bool :=
  negb (jsstring_eqb (type row) (str "array"))
  && negb (jsstring_eqb (type row) (str "object")).

(** The setter of [__proto__]: an object or null becomes the
    prototype, any other value is ignored. *)
Definition set_parent (c : cell) (p : parent) : parent :=
  match c with
  | Held SNull => ParentNull
  | Held _ => p
  | Foreign ObjectPrototype => ParentObject
  | Foreign (Method name) => ParentMethod name
  end.

(** [obj[k] = c] on the object [obj], given by its prototype and its
    own properties.  An own property is overwritten.  Otherwise the
    assignment goes to the prototype chain: [__proto__] reaches the
    setter of [Object.prototype], and any other key makes an own
    property, unless the prototype is a function, whose own and
    inherited properties may refuse the assignment. *)
Definition cell_set (k : jsstring) (c : cell) (obj : parent * properties cell)
  : completion (parent * properties cell) :=
  if has_own k (snd obj) then
    Normal (fst obj, replace_property k c (snd obj))
  else
    match fst obj with
    | ParentNull => Normal (ParentNull, define_property k c (snd obj))
    | ParentObject =>
        if jsstring_eqb k PROTO
        then Normal (set_parent c ParentObject, snd obj)
        else Normal (ParentObject, define_property k c (snd obj))
    | ParentMethod name =>
        if jsstring_eqb k PROTO
        then Normal (set_parent c (ParentMethod name), snd obj)
        else Unmodelled
    end.

(** One round of the [forEach] of [normalizeNodeData]. *)
Definition collect_row (obj : parent * properties cell) (row : NodeRow R)
  : completion (parent * properties cell) :=
  if is_scalar_row row then
    match key row with
    | Some k => if truthy (key row) then cell_set k (value row) obj
                else Normal obj
    | None => Normal obj
    end
  else Normal obj.

Fixpoint collect_rows (rows : list (NodeRow R))
  (obj : parent * properties cell) : completion (parent * properties cell) :=
  match rows with
  | [] => Normal obj
  | row :: rest => do obj' <- collect_row obj row; collect_rows rest obj'
  end.

(** The object that [JSON.stringify] writes for own properties that
    hold the values of rows. *)
Definition cell_object (ps : properties cell) : jsval :=
  JObj (flat_map (fun p => match cell_json (snd p) with
                           | Some v => [(fst p, v)]
                           | None => []
                           end) ps).

(** [JSON.stringify(obj, null, 2)]: an own method [toJSON] of [obj]
    would be called for the value to write. *)
Definition stringify_cells (ps : properties cell) : completion jsstring :=
  match own_property (str "toJSON") ps with
  | Some (Foreign (Method _)) => Unmodelled
  | _ => Normal (JSON_stringify (cell_object ps))
  end.

(** [normalizeNodeData(nodeRows)], [None] standing for undefined. *)
Definition normalizeNodeData (nodeRows : option (list (NodeRow R)))
  : completion jsstring :=
  match nodeRows with
  | None => Normal (str "{}")
  | Some [] => Normal (str "{}")
  | Some (first :: others) =>
      if (is_nil others && negb (truthy (key first)))%bool
      then Normal (cell_text (value first))
      else
        do obj <- collect_rows (first :: others) (ParentObject, []);
        stringify_cells (snd obj)
  end.

(** [seg => (typeof seg === "number" ? seg : `"${seg}"`)]. *)
Definition quote_segment (seg : segment) : scalar :=
  match seg with
  | SegNum n => SNum n
  | SegStr s => SStr (QUOTE :: s ++ [QUOTE])
  end.

(** [jsonPathToString(path)]; [join] applies ToString to the elements
    of the array. *)
Definition jsonPathToString (path : option (list segment)) : jsstring :=
  match path with
  | None => str "$"
  | Some [] => str "$"
  | Some p =>
      str "$[" ++ join (str "][") (map ToString (map quote_segment p))
        ++ str "]"
  end.

End Helpers.

(** ** The reference definitions of the specification *)

(** [normalizeNodeData] as the specification words it: a row has a key
    when the key is there, whatever string it is, and the mapping holds
    the value of the last row of each key. *)
Definition normalizeNodeData_spec {realm : Realm} {R : Type}
  (rows : option (list (NodeRow R))) : jsstring :=
  match rows with
  | None => str "{}"
  | Some [] => str "{}"
  | Some [{| key := None; value := v |}] => cell_text v
  | Some rs =>
      JSON_stringify
        (cell_object
           (fold_left
              (fun mapping row =>
                 match key row with
                 | Some k =>
                     if is_scalar_row row
                     then define_property k (value row) mapping
                     else mapping
                 | None => mapping
                 end) rs []))
  end.

(** [jsonPathToString] as the specification words it: [$] followed by
    every segment between brackets, a number bare and a string between
    double quotes. *)
Definition jsonPathToString_spec (path : option (list segment)) : jsstring :=
  match path with
  | None => str "$"
  | Some p =>
      str "$" ++
      List.concat (map (fun seg =>
                     match seg with
                     | SegNum n => str "[" ++ Number_toString n ++ str "]"
                     | SegStr s =>
                         str "[" ++ [QUOTE] ++ s ++ [QUOTE] ++ str "]"
                     end) p)
  end.

(* ===================================================================== *)
(** * The NodeModal component *)
(* ===================================================================== *)

(** What the component reads and writes: the file store ([contents],
    [format] and the flag [hasChanges] that [setContents] sets), the
    graph store ([selectedNode]), its own state ([isEditing],
    [editedValues]) and the console.  The stores belong to other
    modules; what [setContents] starts beyond the store (with
    [skipUpdate: false], the conversion of the document) is not part of
    this component. *)
Record world (R D F : Type) : Type := {
  contents : jsstring;
  format : F;
  hasChanges : bool;
  selectedNode : option (NodeData R D);
  isEditing : bool;
  editedValues : record;
  console : list error
}.
Arguments contents {R D F} _.
Arguments format {R D F} _.
Arguments hasChanges {R D F} _.
Arguments selectedNode {R D F} _.
Arguments isEditing {R D F} _.
Arguments editedValues {R D F} _.
Arguments console {R D F} _.

(** A [TextInput] of the editing view, by the attributes the component
    passes to it: its [label], its [value] and its [placeholder]. *)
Record input : Type := {
  label : jsstring;
  input_value : cell;
  placeholder : jsstring
}.

(** What the dialog shows: nothing without a selected node; the
    content of the node as text, with the Edit button, while viewing;
    the inputs, with the Cancel and Save buttons, while editing; and
    in both the JSON path. *)
Inductive view : Type :=
| Nothing
| Content (disabled : bool) (code jsonPath : jsstring)
| Form (inputs : list input) (jsonPath : jsstring).

Section Component.
Context {realm : Realm} {R D F : Type}.

Definition set_session (editing : bool) (values : record) (w : world R D F)
  : world R D F :=
  {| contents := contents w; format := format w;
     hasChanges := hasChanges w; selectedNode := selectedNode w;
     isEditing := editing; editedValues := values; console := console w |}.

(** [String(row.value ?? "")]. *)
Definition edit_text (c : cell) : jsstring :=
  match c with
  | Held SNull => []
  | other => cell_text other
  end.

(** The effect that follows a change of [isEditing] or of the node:
    the values the edit session starts from.  [initialValues] is an
    ordinary object, and each row is stored by an assignment. *)
Definition initialValues (nodeData : NodeData R D) : record :=
  fold_left
    (fun acc row =>
       match key row with
       | Some k =>
           if (is_scalar_row row && truthy (key row))%bool
           then snd (ordinary_set ToString true k
                       (SStr (edit_text (value row))) acc)
           else acc
       | None => acc
       end)
    (text nodeData) [].

(** The rows that get an input in the editing view. *)
Definition editableRows (nodeData : NodeData R D) : list (NodeRow R) :=
  filter is_scalar_row (text nodeData).

(** The [disabled] attribute of the Edit button. *)
Definition editDisabled (nodeData : NodeData R D) : bool :=
  Nat.eqb (List.length (editableRows nodeData)) 0.

(** The Edit button: [setIsEditing(true)], then the effect, which runs
    because [isEditing] changed. *)
Definition startEditing (w : world R D F) : world R D F :=
  match selectedNode w with
  | Some nodeData => set_session true (initialValues nodeData) w
  | None => set_session true (editedValues w) w
  end.

(** [handleEditChange(key, value)]: the new object copies the own
    properties of the previous one and defines [key]. *)
Definition handleEditChange (k v : jsstring) (w : world R D F)
  : world R D F :=
  set_session (isEditing w) (define_property k v (editedValues w)) w.

(** [row.key ?? `value-${index}`], the key an input edits. *)
Definition input_key (index : nat) (row : NodeRow R) : jsstring :=
  match key row with
  | Some k => k
  | None => str "value-" ++ Number_toString (number_of_nat index)
  end.

(** [editedValues[k]], [None] standing for undefined: the own
    property, and past it the prototype chain of an ordinary object,
    where [__proto__] reads [Object.prototype] and the name of a method
    reads the method. *)
Definition edited_value (values : record) (k : jsstring) : option cell :=
  match own_property k values with
  | Some v => Some (Held (SStr v))
  | None =>
      if jsstring_eqb k PROTO then Some (Foreign ObjectPrototype)
      else if inherited KObject k then Some (Foreign (Method k))
      else None
  end.

(** The callback of [nodeData.text.map] in [handleSave]. *)
Definition save_row (values : record) (row : NodeRow R) : NodeRow R :=
  match key row with
  | Some k =>
      if (is_scalar_row row && truthy (key row))%bool then
        match edited_value values k with
        | Some c =>
            {| key := key row; value := c; type := type row;
               row_rest := row_rest row |}
        | None => row
        end
      else row
  | None => row
  end.

(** The node [handleSave] passes to [setSelectedNode]. *)
Definition updatedNode (values : record) (nodeData : NodeData R D)
  : NodeData R D :=
  {| text := map (save_row values) (text nodeData); path := path nodeData;
     node_rest := node_rest nodeData |}.

(** [handleSave()].  Nothing in its [try] block throws: the helper
    catches its own errors. *)
Definition handleSave (w : world R D F) : completion (world R D F) :=
  match selectedNode w with
  | None => Normal w
  | Some nodeData =>
      let node' := updatedNode (editedValues w) nodeData in
      let currentContents := contents w in
      let currentFormat := format w in
      do updatedJson <-
        updateJsonAtPath currentContents
          (match path nodeData with Some p => p | None => [] end)
          (editedValues w);
      Normal {| contents := returned updatedJson; format := currentFormat;
                hasChanges := true; selectedNode := Some node';
                isEditing := false; editedValues := editedValues w;
                console := console w ++ logged updatedJson |}
  end.

(** [handleCancel()]. *)
Definition handleCancel (w : world R D F) : world R D F :=
  set_session false [] w.

(** What the user can do with the dialog. *)
Inductive action : Type :=
| ClickEdit
| TypeInto (index : nat) (entered : jsstring)
| ClickSave
| ClickCancel.

(** One user action.  Without a selected node the component renders
    nothing; the Edit button shows while viewing, the inputs and the
    Cancel and Save buttons while editing. *)
Definition step (w : world R D F) (a : action) : completion (world R D F) :=
  match selectedNode w with
  | None => Normal w
  | Some nodeData =>
      match a, isEditing w with
      | ClickEdit, false =>
          if editDisabled nodeData then Normal w else Normal (startEditing w)
      | TypeInto index entered, true =>
          match nth_error (editableRows nodeData) index with
          | Some row => Normal (handleEditChange (input_key index row) entered w)
          | None => Normal w
          end
      | ClickSave, true => handleSave w
      | ClickCancel, true => Normal (handleCancel w)
      | _, _ => Normal w
      end
  end.

Fixpoint run (w : world R D F) (actions : list action)
  : completion (world R D F) :=
  match actions with
  | [] => Normal w
  | a :: rest => do w' <- step w a; run w' rest
  end.

(** [row.key || fallback]. *)
Definition key_or (fallback : jsstring) (row : NodeRow R) : jsstring :=
  match key row with
  | Some k => if truthy (key row) then k else fallback
  | None => fallback
  end.

(** The [TextInput] of a row: its value is
    [editedValues[row.key ?? `value-${index}`] ?? ""]. *)
Definition render_input (values : record) (index : nat) (row : NodeRow R)
  : input :=
  {| label := key_or (str "Value") row;
     input_value := match edited_value values (input_key index row) with
                    | Some c => c
                    | None => Held (SStr [])
                    end;
     placeholder := str "Enter " ++ key_or (str "value") row |}.

(** [editableRows.map((row, index) => ...)], from the index [index]
    on. *)
Fixpoint render_inputs (values : record) (index : nat)
  (rows : list (NodeRow R)) : list input :=
  match rows with
  | [] => []
  | row :: rest =>
      render_input values index row :: render_inputs values (S index) rest
  end.

(** What the component returns. *)
Definition render (w : world R D F) : completion view :=
  match selectedNode w with
  | None => Normal Nothing
  | Some nodeData =>
      if isEditing w then
        Normal (Form (render_inputs (editedValues w) 0 (editableRows nodeData))
                  (jsonPathToString (path nodeData)))
      else
        do code <- normalizeNodeData (Some (text nodeData));
        Normal (Content (editDisabled nodeData) code
                  (jsonPathToString (path nodeData)))
  end.

End Component.

(* ===================================================================== *)
(** * A realm *)
(* ===================================================================== *)

Definition object_prototype_names : list string :=
  ["constructor"; "hasOwnProperty"; "isPrototypeOf"; "propertyIsEnumerable";
   "toLocaleString"; "toString"; "valueOf"; "__defineGetter__";
   "__defineSetter__"; "__lookupGetter__"; "__lookupSetter__"]%string.

Definition array_prototype_names : list string :=
  ["at"; "concat"; "copyWithin"; "entries"; "every"; "fill"; "filter";
   "find"; "findIndex"; "findLast"; "findLastIndex"; "flat"; "flatMap";
   "forEach"; "includes"; "indexOf"; "join"; "keys"; "lastIndexOf"; "map";
   "pop"; "push"; "reduce"; "reduceRight"; "reverse"; "shift"; "slice";
   "some"; "sort"; "splice"; "toReversed"; "toSorted"; "toSpliced";
   "unshift"; "values"; "with"]%string.

Definition string_prototype_names : list string :=
  ["at"; "charAt"; "charCodeAt"; "codePointAt"; "concat"; "endsWith";
   "includes"; "indexOf"; "isWellFormed"; "lastIndexOf"; "localeCompare";
   "match"; "matchAll"; "normalize"; "padEnd"; "padStart"; "repeat";
   "replace"; "replaceAll"; "search"; "slice"; "split"; "startsWith";
   "substring"; "toLocaleLowerCase"; "toLocaleUpperCase"; "toLowerCase";
   "toUpperCase"; "toWellFormed"; "trim"; "trimEnd"; "trimStart"; "substr";
   "anchor"; "big"; "blink"; "bold"; "fixed"; "fontcolor"; "fontsize";
   "italics"; "link"; "small"; "strike"; "sub"; "sup"; "trimLeft";
   "trimRight"]%string.

Definition number_prototype_names : list string :=
  ["toExponential"; "toFixed"; "toPrecision"]%string.

(** The string-keyed properties of the prototype objects of
    ECMAScript 2023; a method is written as most engines write a
    native function, and [Object.prototype.constructor] is the
    function [Object]. *)
Definition ecma2023 : Realm :=
  {| inherited := fun kd k =>
       existsb (fun name => jsstring_eqb k (str name))
         (object_prototype_names ++
          match kd with
          | KObject | KBoolean => []
          | KArray => array_prototype_names
          | KString => string_prototype_names
          | KNumber => number_prototype_names
          end);
     method_text := fun name =>
       str "function "
         ++ (if jsstring_eqb name (str "constructor") then str "Object"
             else name)
         ++ str "() { [native code] }" |}.

(* ===================================================================== *)
(** * Notions for the statements *)
(* ===================================================================== *)

Abbreviation len := (@List.length N).

(** ** The walk and the assignments *)

(** Objects and arrays: the values an assignment can change. *)
Definition is_container (v : option jsval) : bool :=
  match v with
  | Some (JArr _) | Some (JObj _) => true
  | _ => false
  end.

(** The assignment of one entry of [newValues] to an ordinary object
    of the document. *)
Definition set_entry (ps : properties jsval) (entry : jsstring * jsstring)
  : properties jsval :=
  snd (ordinary_set value_of_scalar true (fst entry) (SStr (snd entry)) ps).

Definition bracketed (s : jsstring) : jsstring := str "[" ++ s ++ str "]".

(** A key that no value of the kind inherits: reading it from a value
    that has no own property of that name gives undefined. *)
Definition plain_key {realm : Realm} (kd : kind) (k : jsstring) : bool :=
  negb (jsstring_eqb k PROTO || inherited kd k).

(** The segments of a path that is there. *)
Definition segments (path : option (list segment)) : list segment :=
  match path with Some p => p | None => [] end.

(** A string segment that holds no double quote. *)
Definition quote_free (seg : segment) : Prop :=
  match seg with
  | SegStr s => ~ In QUOTE s
  | SegNum _ => True
  end.

(** ** Rows *)

Section RowNotions.
Context {R : Type}.

(** The row with an empty key read as a row without a key. *)
Definition blank_empty_key (row : NodeRow R) : NodeRow R :=
  {| key := if truthy (key row) then key row else None;
     value := value row; type := type row; row_rest := row_rest row |}.

(** One row added to the mapping of [normalizeNodeData_spec]. *)
Definition spec_step (mapping : properties cell) (row : NodeRow R)
  : properties cell :=
  match key row with
  | Some k =>
      if is_scalar_row row then define_property k (value row) mapping
      else mapping
  | None => mapping
  end.

(** The entry of the edited values that Save writes into a row: the
    own entry under the key of the row, for a row whose type is
    neither ["array"] nor ["object"] and whose key is a string that is
    not empty. *)
Definition entry_for (values : record) (row : NodeRow R) : option jsstring :=
  match key row with
  | Some k =>
      if (is_scalar_row row && negb (is_nil k))%bool
      then own_property k values else None
  | None => None
  end.

Definition with_value (row : NodeRow R) (v : jsstring) : NodeRow R :=
  {| key := key row; value := Held (SStr v); type := type row;
     row_rest := row_rest row |}.

(** A row whose value is a JSON scalar, as the type of the rows
    declares. *)
Definition declared (row : NodeRow R) : Prop :=
  exists v, value row = Held v.

(** A row whose type is neither ["array"] nor ["object"] and whose key
    is the string [k], which is not empty. *)
Definition keyed (k : jsstring) (row : NodeRow R) : bool :=
  (is_scalar_row row
   && match key row with
      | Some k' => negb (is_nil k') && jsstring_eqb k k'
      | None => false
      end)%bool.

(** The last such row of a sequence. *)
Fixpoint last_keyed (k : jsstring) (rows : list (NodeRow R))
  : option (NodeRow R) :=
  match rows with
  | [] => None
  | row :: rest =>
      match last_keyed k rest with
      | Some later => Some later
      | None => if keyed k row then Some row else None
      end
  end.

End RowNotions.

(** ** Parsed documents *)

(** A result of the parser that is not for want of fuel, and that
    leaves less than the text it was given. *)
Definition consumes (res : parse_result jsval) (s : jsstring) : Prop :=
  res <> Exhausted /\ forall v r, res = Parsed v r -> len r < len s.

Definition no_leading_zero (s : jsstring) : Prop :=
  match s with
  | [] => True
  | c :: _ => N.eqb c 48 = false
  end.

Definition keys {V : Type} (ps : properties V) : list jsstring := map fst ps.

(** The keys of an object that [JSON.parse] builds: no key twice, an
    array index before every greater index and before every other
    string. *)
Fixpoint ordered_keys (ks : list jsstring) : Prop :=
  match ks with
  | [] => True
  | k :: rest =>
      ~ In k rest /\ ordered_keys rest /\
      match array_index k with
      | Some i =>
          forall k' j, In k' rest -> array_index k' = Some j -> (i < j)%N
      | None => forall k', In k' rest -> array_index k' = None
      end
  end.

Inductive present {A : Type} (P : A -> Prop) : option A -> Prop :=
| present_some a : P a -> present P (Some a).

(** The shape of a parsed document: arrays without holes, and objects
    whose keys are in the order of their creation. *)
Unset Elimination Schemes.
Inductive document : jsval -> Prop :=
| doc_null : document JNull
| doc_bool b : document (JBool b)
| doc_num n : document (JNum n)
| doc_str s : document (JStr s)
| doc_arr xs : Forall (present document) xs -> document (JArr xs)
| doc_obj ps :
    ordered_keys (keys ps) -> Forall (fun p => document (snd p)) ps ->
    document (JObj ps).
Set Elimination Schemes.

(** ** Reading a serialized document *)

(** What follows a value in a serialized document: nothing, a comma or
    a line feed. *)
Definition delimited (rest : jsstring) : Prop :=
  match rest with
  | [] => True
  | c :: _ => c = 44%N \/ c = LF
  end.

(** The number is the one its own text is read as.  It is then finite,
    and it is not the negative zero, whose text is [0]. *)
Definition reads_back (n : number) : bool :=
  match parse_number (Number_toString n) with
  | Some (n', []) => number_eqb n n'
  | _ => false
  end.

(** Every number of the value is one its own text is read as. *)
Fixpoint numbers_read_back (v : jsval) : bool :=
  match v with
  | JNum n => reads_back n
  | JArr xs =>
      forallb (fun x => match x with
                        | Some e => numbers_read_back e
                        | None => true
                        end) xs
  | JObj ps => forallb (fun p => numbers_read_back (snd p)) ps
  | _ => true
  end.

(** The fuel the parser takes for the text of a value. *)
Fixpoint need (v : jsval) : nat :=
  match v with
  | JArr xs =>
      S (fold_right (fun x acc => match x with
                                  | Some e => S (need e + acc)
                                  | None => S acc
                                  end) 0 xs)
  | JObj ps => S (fold_right (fun p acc => S (need (snd p) + acc)) 0 ps)
  | _ => 1
  end.

Definition elements_need (xs : list (option jsval)) : nat :=
  fold_right (fun x acc => match x with
                           | Some e => S (need e + acc)
                           | None => S acc
                           end) 0 xs.

Definition members_need (ps : properties jsval) : nat :=
  fold_right (fun p acc => S (need (snd p) + acc)) 0 ps.

Definition readable_element (x : option jsval) : bool :=
  match x with Some e => numbers_read_back e | None => true end.

(** White space only. *)
Definition blank (ws : jsstring) : Prop := forallb is_json_whitespace ws = true.

(** A text that starts with a character that is neither white space
    nor the closing bracket. *)
Definition opens (s : jsstring) : Prop :=
  exists c t, s = c :: t /\ is_json_whitespace c = false /\ c <> 93%N.

(** The value is what its serialization is parsed as, at any
    indentation, after any white space and before any delimiter. *)
Definition reads (v : jsval) : Prop :=
  forall ws indent rest fuel,
    blank ws -> blank indent -> delimited rest -> need v <= fuel ->
    parse_value fuel (ws ++ serialize indent v ++ rest) = Parsed v rest.

(** The text between two elements or members at an indentation. *)
Definition separator (indent : jsstring) : jsstring :=
  44%N :: LF :: indent ++ GAP.

Definition element_text (indent : jsstring) (x : option jsval) : jsstring :=
  match x with
  | Some e => serialize (indent ++ GAP) e
  | None => str "null"
  end.

(** The elements of an array and what closes it. *)
Definition elements_text (indent : jsstring) (xs : list (option jsval))
  (rest : jsstring) : jsstring :=
  join (separator indent) (map (element_text indent) xs)
    ++ (LF :: indent) ++ 93%N :: rest.

Definition member_text (indent : jsstring) (p : jsstring * jsval) : jsstring :=
  match p with
  | (k, e) => QuoteJSONString k ++ str ": " ++ serialize (indent ++ GAP) e
  end.

(** The members of an object and what closes it. *)
Definition members_text (indent : jsstring) (ps : properties jsval)
  (rest : jsstring) : jsstring :=
  join (separator indent) (map (member_text indent) ps)
    ++ (LF :: indent) ++ 125%N :: rest.

(** ** Sample data *)

Section Samples.
Local Open Scope string_scope.

Definition one : number := number_of_Z 1.

Definition row_of (k : option string) (v : scalar) (ty : string)
  : NodeRow unit :=
  {| key := option_map str k; value := Held v; type := str ty;
     row_rest := tt |}.

(** The dialog on a selected node, before any action. *)
Definition viewing (text : jsstring) (nodeData : NodeData unit unit)
  : world unit unit unit :=
  {| contents := text; format := tt; hasChanges := false;
     selectedNode := Some nodeData; isEditing := false; editedValues := [];
     console := [] |}.

Definition sample_text : jsstring := lit "{'n':{'a':1,'':'e','o':{}}}".

Definition sample_node : NodeData unit unit :=
  {| text := [row_of (Some "a") (SNum one) "number";
              row_of (Some "") (SStr (str "e")) "string";
              row_of None (SBool true) "boolean";
              row_of (Some "o") (SStr (str "{2 keys}")) "object"];
     path := Some [SegStr (str "n")]; node_rest := tt |}.

(** The dialog in the middle of an edit session. *)
Definition editing (values : record) : world unit unit unit :=
  {| contents := sample_text; format := tt;
     hasChanges := false; selectedNode := Some sample_node;
     isEditing := true; editedValues := values; console := [] |}.

Definition keyless_node : NodeData unit unit :=
  {| text := [row_of None (SNum one) "number";
              row_of (Some "") (SStr (str "e")) "string";
              row_of (Some "o") (SStr (str "[3 items]")) "array"];
     path := None; node_rest := tt |}.

(** A node that shows nested values only. *)
Definition nested_node : NodeData unit unit :=
  {| text := [row_of (Some "o") (SStr (str "{2 keys}")) "object";
              row_of (Some "l") (SStr (str "[3 items]")) "array"];
     path := None; node_rest := tt |}.

(** A node with rows keyed by names that [Object.prototype] holds,
    and a row keyed by the empty string. *)
Definition builtin_node : NodeData unit unit :=
  {| text := [row_of (Some "constructor") (SStr (str "c")) "string";
              row_of (Some "__proto__") (SStr (str "p")) "string";
              row_of (Some "") (SStr (str "e")) "string"];
     path := None; node_rest := tt |}.

(** The parsed [sample_text], and the object its key [n] holds. *)
Definition sample_object : properties jsval :=
  [(str "a", JNum one); ([], JStr (str "e")); (str "o", JObj [])].

Definition sample_document : jsval := JObj [(str "n", JObj sample_object)].

End Samples.

(* ===================================================================== *)
(** * Basic facts *)
(* ===================================================================== *)

Lemma jsstring_eqb_eq (a b : jsstring) : jsstring_eqb a b = true <-> a = b.
Proof.
  revert b; induction a as [|x a IH]; intros [|y b]; simpl;
    try (split; [discriminate | intros H; discriminate H]); try tauto.
  rewrite andb_true_iff, N.eqb_eq, IH.
  split; [intros [-> ->]; reflexivity | intros H; injection H; auto].
Qed.

Lemma jsstring_eqb_refl (a : jsstring) : jsstring_eqb a a = true.
Proof. apply jsstring_eqb_eq; reflexivity. Qed.

Lemma jsstring_eqb_neq (a b : jsstring) : jsstring_eqb a b = false <-> a <> b.
Proof.
  rewrite <- jsstring_eqb_eq. destruct (jsstring_eqb a b); split; congruence.
Qed.

Lemma jsstring_eqb_sym (a b : jsstring) : jsstring_eqb a b = jsstring_eqb b a.
Proof.
  destruct (jsstring_eqb a b) eqn:E.
  - apply jsstring_eqb_eq in E; subst; symmetry; apply jsstring_eqb_refl.
  - symmetry; apply jsstring_eqb_neq; apply jsstring_eqb_neq in E; congruence.
Qed.

(* ===================================================================== *)
(** * jsonPathToString *)
(* ===================================================================== *)

Lemma join_brackets (x : jsstring) (xs : list jsstring) :
  str "[" ++ join (str "][") (x :: xs) ++ str "]"
  = List.concat (map bracketed (x :: xs)).
Proof.
  revert x; induction xs as [|y ys IH]; intros x.
  - simpl. rewrite app_nil_r. reflexivity.
  - change (join (str "][") (x :: y :: ys))
      with (x ++ str "][" ++ join (str "][") (y :: ys)).
    change (List.concat (map bracketed (x :: y :: ys)))
      with (bracketed x ++ List.concat (map bracketed (y :: ys))).
    rewrite <- IH. unfold bracketed.
    change (str "][") with (str "]" ++ str "[").
    repeat rewrite <- app_assoc. reflexivity.
Qed.

Lemma segment_rendering (seg : segment) :
  bracketed (ToString (quote_segment seg))
  = match seg with
    | SegNum n => str "[" ++ Number_toString n ++ str "]"
    | SegStr s => str "[" ++ [QUOTE] ++ s ++ [QUOTE] ++ str "]"
    end.
Proof.
  destruct seg as [s|n]; unfold bracketed; simpl; [|reflexivity].
  rewrite <- app_assoc. reflexivity.
Qed.

(** C6.  [jsonPathToString] is the reference definition of the
    specification: [$] for an undefined or empty path, otherwise [$]
    followed by each segment between brackets, a number as
    [Number::toString] writes it and a string between double quotes
    with no escaping; and [jsonPathToString(["customer", 0, "id"])] is
    [$["customer"][0]["id"]]. *)
Theorem jsonPathToString_refines_spec :
  (forall path, jsonPathToString path = jsonPathToString_spec path)
  /\ jsonPathToString
       (Some [SegStr (str "customer"); SegNum (number_of_Z 0);
              SegStr (str "id")])
     = lit "$['customer'][0]['id']".
Proof.
  split; [|vm_compute; reflexivity].
  intros [[|seg p]|]; try reflexivity.
  unfold jsonPathToString, jsonPathToString_spec.
  change (str "$[") with (str "$" ++ str "[").
  rewrite <- app_assoc. f_equal.
  change (map ToString (map quote_segment (seg :: p)))
    with (ToString (quote_segment seg)
            :: map ToString (map quote_segment p)).
  rewrite join_brackets. f_equal.
  change (map bracketed
            (ToString (quote_segment seg)
               :: map ToString (map quote_segment p)))
    with (bracketed (ToString (quote_segment seg))
            :: map bracketed (map ToString (map quote_segment p))).
  rewrite segment_rendering, !map_map. simpl map. f_equal.
  apply map_ext. apply segment_rendering.
Qed.

(* ===================================================================== *)
(** * Own properties *)
(* ===================================================================== *)

Section PropertyFacts.
Context {V : Type}.
Implicit Types (k : jsstring) (v : V) (ps : properties V).

Lemma has_own_true k ps :
  has_own k ps = true <-> exists v, own_property k ps = Some v.
Proof.
  unfold has_own. destruct (own_property k ps) as [v|]; split.
  - eauto.
  - reflexivity.
  - discriminate.
  - intros [v H]; discriminate H.
Qed.

Lemma has_own_false k ps : has_own k ps = false <-> own_property k ps = None.
Proof.
  unfold has_own. destruct (own_property k ps); split; congruence.
Qed.

Lemma own_replace_same k v ps :
  has_own k ps = true -> own_property k (replace_property k v ps) = Some v.
Proof.
  unfold has_own. induction ps as [|[k' v'] ps IH]; simpl; [discriminate|].
  destruct (jsstring_eqb k k') eqn:E; simpl; rewrite E; auto.
Qed.

Lemma own_replace_other k k' v ps :
  k' <> k -> own_property k' (replace_property k v ps) = own_property k' ps.
Proof.
  intros Hne. induction ps as [|[k0 v0] ps IH]; simpl; [reflexivity|].
  destruct (jsstring_eqb k k0) eqn:E; simpl.
  - apply jsstring_eqb_eq in E; subst k0.
    apply jsstring_eqb_neq in Hne. rewrite Hne. reflexivity.
  - rewrite IH. reflexivity.
Qed.

Lemma own_insert_same i k v ps :
  own_property k ps = None -> own_property k (insert_index i k v ps) = Some v.
Proof.
  induction ps as [|[k' v'] ps IH]; simpl; intros H.
  - rewrite jsstring_eqb_refl. reflexivity.
  - destruct (jsstring_eqb k k') eqn:E; [discriminate|].
    destruct (array_index k') as [j|]; [destruct (N.ltb j i)|]; simpl;
      rewrite ?E, ?jsstring_eqb_refl; auto.
Qed.

Lemma own_insert_other i k k' v ps :
  k' <> k -> own_property k' (insert_index i k v ps) = own_property k' ps.
Proof.
  intros Hne. apply jsstring_eqb_neq in Hne.
  induction ps as [|[k0 v0] ps IH]; simpl.
  - rewrite Hne. reflexivity.
  - destruct (array_index k0) as [j|]; [destruct (N.ltb j i)|]; simpl;
      rewrite ?Hne, ?IH; reflexivity.
Qed.

Lemma own_app_same k v ps :
  own_property k ps = None -> own_property k (ps ++ [(k, v)]) = Some v.
Proof.
  induction ps as [|[k' v'] ps IH]; simpl; intros H.
  - rewrite jsstring_eqb_refl. reflexivity.
  - destruct (jsstring_eqb k k'); [discriminate | auto].
Qed.

Lemma own_app_other k k' v ps :
  k' <> k -> own_property k' (ps ++ [(k, v)]) = own_property k' ps.
Proof.
  intros Hne. apply jsstring_eqb_neq in Hne.
  induction ps as [|[k0 v0] ps IH]; simpl.
  - rewrite Hne. reflexivity.
  - rewrite IH. reflexivity.
Qed.

Lemma own_define_same k v ps :
  own_property k (define_property k v ps) = Some v.
Proof.
  unfold define_property. destruct (has_own k ps) eqn:E.
  - apply own_replace_same, E.
  - apply has_own_false in E.
    destruct (array_index k); [apply own_insert_same | apply own_app_same];
      exact E.
Qed.

Lemma own_define_other k k' v ps :
  k' <> k -> own_property k' (define_property k v ps) = own_property k' ps.
Proof.
  intros Hne. unfold define_property. destruct (has_own k ps).
  - apply own_replace_other, Hne.
  - destruct (array_index k); [apply own_insert_other | apply own_app_other];
      exact Hne.
Qed.

(** What an assignment does to the own properties of an ordinary object
    that inherits from [Object.prototype], for a value that is not
    null: every key is set, except [__proto__] when the object has no
    own property of that name. *)
Lemma ordinary_set_string (store : scalar -> V) k s ps :
  ordinary_set store true k (SStr s) ps
  = (true,
     if (negb (has_own k ps) && jsstring_eqb k PROTO)%bool then ps
     else define_property k (store (SStr s)) ps).
Proof.
  unfold ordinary_set, define_property.
  destruct (has_own k ps); simpl; [reflexivity|].
  destruct (jsstring_eqb k PROTO); reflexivity.
Qed.

End PropertyFacts.

(* ===================================================================== *)
(** * The walk and the place it reaches *)
(* ===================================================================== *)

Lemma is_container_typeof (v : option jsval) :
  is_container v
  = (jsstring_eqb (typeof v) (str "object") && negb (is_null v))%bool.
Proof. destruct v as [[| | | | |]|]; reflexivity. Qed.

Lemma own_update_property k f ps :
  own_property k (update_property k f ps) = option_map f (own_property k ps).
Proof.
  induction ps as [|[k' v] ps IH]; simpl; [reflexivity|].
  destruct (jsstring_eqb k k') eqn:E; simpl; rewrite E; auto.
Qed.

Lemma update_property_fixed k f ps x :
  own_property k ps = Some x -> f x = x -> update_property k f ps = ps.
Proof.
  intros H Hf. induction ps as [|[k' v] ps IH]; simpl in *; [reflexivity|].
  destruct (jsstring_eqb k k').
  - injection H as ->. rewrite Hf. reflexivity.
  - rewrite IH; auto.
Qed.

Lemma element_update_element i f xs :
  element i (update_element i f xs) = option_map f (element i xs).
Proof.
  unfold element. revert xs; induction i as [|i IH]; intros [|x xs]; simpl;
    try reflexivity.
  - destruct x; reflexivity.
  - apply IH.
Qed.

Lemma update_element_fixed i f xs x :
  element i xs = Some x -> f x = x -> update_element i f xs = xs.
Proof.
  unfold element. revert xs; induction i as [|i IH]; intros [|y xs]; simpl;
    intros H Hf; try reflexivity.
  - destruct y as [y|]; [|discriminate]. injection H as ->.
    simpl. rewrite Hf. reflexivity.
  - f_equal. apply IH; assumption.
Qed.

Lemma part_at_app p q doc :
  part_at (p ++ q) doc
  = match part_at p doc with Some v => part_at q v | None => None end.
Proof.
  revert doc; induction p as [|k p IH]; intros doc; simpl; [reflexivity|].
  destruct doc as [| | | |xs|ps]; try reflexivity.
  - destruct (array_index k); [|reflexivity].
    destruct (element (N.to_nat n) xs); [apply IH | reflexivity].
  - destruct (own_property k ps); [apply IH | reflexivity].
Qed.

Lemma update_at_fixed place doc t :
  part_at place doc = Some t -> update_at place (fun _ => t) doc = doc.
Proof.
  revert doc; induction place as [|k place IH]; intros doc; simpl.
  - congruence.
  - destruct doc as [| | | |xs|ps]; try discriminate.
    + destruct (array_index k); [|discriminate].
      destruct (element (N.to_nat n) xs) as [x|] eqn:E; [|discriminate].
      intros H. f_equal. eapply update_element_fixed; eauto.
    + destruct (own_property k ps) as [x|] eqn:E; [|discriminate].
      intros H. f_equal. eapply update_property_fixed; eauto.
Qed.

Lemma part_at_update place f doc t :
  part_at place doc = Some t ->
  part_at place (update_at place f doc) = Some (f t).
Proof.
  revert doc; induction place as [|k place IH]; intros doc; simpl.
  - congruence.
  - destruct doc as [| | | |xs|ps]; try discriminate.
    + destruct (array_index k) eqn:Ek; [|discriminate].
      rewrite element_update_element.
      destruct (element (N.to_nat n) xs); [simpl; apply IH | discriminate].
    + simpl. rewrite own_update_property.
      destruct (own_property k ps); [simpl; apply IH | discriminate].
Qed.

Section WalkFacts.
Context {realm : Realm}.

Lemma from_prototype_not_container kd k next :
  from_prototype kd k = Normal next -> next = None.
Proof.
  unfold from_prototype.
  destruct (jsstring_eqb k PROTO || inherited kd k)%bool; congruence.
Qed.

(** An object or array read from a property is the part of the holder
    under that key. *)
Lemma get_part current k next :
  get current k = Normal next -> is_container next = true ->
  exists holder, current = Some holder /\ part_at [k] holder = next.
Proof.
  destruct current as [[| | | |xs|ps]|]; simpl; try discriminate;
    intros H Hc.
  - apply from_prototype_not_container in H; subst; discriminate.
  - apply from_prototype_not_container in H; subst; discriminate.
  - destruct (canonical_index k).
    + destruct (nth_error s (N.to_nat n)).
      * injection H as <-. discriminate.
      * apply from_prototype_not_container in H; subst; discriminate.
    + destruct (jsstring_eqb k LENGTH).
      * injection H as <-. discriminate.
      * apply from_prototype_not_container in H; subst; discriminate.
  - eexists; split; [reflexivity|]. simpl.
    destruct (array_index k).
    + destruct (element (N.to_nat n) xs).
      * injection H as <-. reflexivity.
      * apply from_prototype_not_container in H; subst; discriminate.
    + destruct (jsstring_eqb k LENGTH).
      * injection H as <-. discriminate.
      * apply from_prototype_not_container in H; subst; discriminate.
  - eexists; split; [reflexivity|]. simpl.
    destruct (own_property k ps).
    + injection H as <-. reflexivity.
    + apply from_prototype_not_container in H; subst; discriminate.
Qed.

(** The aliasing of the loop: whenever [current] is an object or an
    array, it is the part of the document under the keys followed. *)
Lemma walk_place doc path : forall current place target place',
  (is_container current = true -> part_at place doc = current) ->
  walk current place path = Normal (target, place') ->
  is_container target = true ->
  part_at place' doc = target.
Proof.
  induction path as [|seg path IH]; simpl; intros current place target place'.
  - intros Hinv H Hc. injection H as <- <-. auto.
  - intros Hinv H Hc.
    destruct (get current (property_key seg)) as [next| |] eqn:G;
      simpl in H; try discriminate.
    eapply IH; [|exact H|exact Hc].
    intros Hnext.
    destruct (get_part _ _ _ G Hnext) as [holder [-> Hpart]].
    rewrite part_at_app, Hinv.
    + exact Hpart.
    + destruct holder; simpl in Hpart; try reflexivity;
        rewrite <- Hpart in Hnext; discriminate.
Qed.

Lemma walk_from_root doc path target place :
  walk (Some doc) [] path = Normal (target, place) ->
  is_container target = true ->
  part_at place doc = target.
Proof.
  intros H Hc. eapply walk_place; [|exact H|exact Hc]. reflexivity.
Qed.

End WalkFacts.

(* ===================================================================== *)
(** * updateJsonAtPath: what a call returns *)
(* ===================================================================== *)

Lemma set_entry_other ps entry k :
  k <> fst entry -> own_property k (set_entry ps entry) = own_property k ps.
Proof.
  intros Hne. unfold set_entry. rewrite ordinary_set_string. simpl.
  destruct (negb (has_own (fst entry) ps)
            && jsstring_eqb (fst entry) PROTO)%bool; [reflexivity|].
  apply own_define_other, Hne.
Qed.

Lemma set_entry_same ps k v :
  k <> PROTO \/ has_own PROTO ps = true ->
  own_property k (set_entry ps (k, v)) = Some (JStr v).
Proof.
  intros H. unfold set_entry. rewrite ordinary_set_string. simpl.
  destruct (negb (has_own k ps) && jsstring_eqb k PROTO)%bool eqn:E.
  - apply andb_true_iff in E. destruct E as [E1 E2].
    apply jsstring_eqb_eq in E2. subst k.
    destruct H as [H|H]; [congruence|]. rewrite H in E1. discriminate.
  - apply own_define_same.
Qed.

Lemma set_entry_has_proto ps entry :
  has_own PROTO (set_entry ps entry) = has_own PROTO ps.
Proof.
  destruct (jsstring_eqb (fst entry) PROTO) eqn:E.
  - apply jsstring_eqb_eq in E. unfold set_entry.
    rewrite ordinary_set_string, E. simpl.
    destruct (has_own PROTO ps) eqn:Hp; simpl; [|exact Hp].
    apply has_own_true. eexists. apply own_define_same.
  - apply jsstring_eqb_neq in E. unfold has_own.
    rewrite set_entry_other; [reflexivity | congruence].
Qed.

Lemma fold_set_entry_other newValues : forall ps k,
  ~ In k (map fst newValues) ->
  own_property k (fold_left set_entry newValues ps) = own_property k ps.
Proof.
  induction newValues as [|entry rest IH]; simpl; intros ps k Hk.
  - reflexivity.
  - rewrite IH by tauto. apply set_entry_other. intros ->. tauto.
Qed.

Lemma fold_set_entry_same newValues : forall ps k v,
  NoDup (map fst newValues) -> In (k, v) newValues ->
  k <> PROTO \/ has_own PROTO ps = true ->
  own_property k (fold_left set_entry newValues ps) = Some (JStr v).
Proof.
  induction newValues as [|entry rest IH]; simpl; intros ps k v Hnd Hin Hk.
  - contradiction.
  - inversion Hnd as [|? ? Hfresh Hnd']; subst.
    destruct Hin as [->|Hin].
    + simpl in Hfresh. rewrite fold_set_entry_other by exact Hfresh.
      apply set_entry_same, Hk.
    + apply IH; auto.
      rewrite set_entry_has_proto. exact Hk.
Qed.

Section UpdateFacts.
Context {realm : Realm}.

Lemma assign_entries_object newValues : forall ps,
  assign_entries newValues (JObj ps)
  = Normal (JObj (fold_left set_entry newValues ps)).
Proof.
  induction newValues as [|[k v] rest IH]; intros ps; simpl.
  - reflexivity.
  - apply IH.
Qed.

Lemma try_update_at text doc path target place newValues :
  JSON_parse text = Some doc ->
  walk (Some doc) [] path = Normal (target, place) ->
  try_update text path newValues
  = match target with
    | Some t =>
        if is_container target then
          do t' <- assign_entries newValues t;
          Normal (JSON_stringify (update_at place (fun _ => t') doc))
        else Normal (JSON_stringify doc)
    | None => Normal (JSON_stringify doc)
    end.
Proof.
  intros Hp Hw. unfold try_update. rewrite Hp, Hw. simpl.
  rewrite is_container_typeof. reflexivity.
Qed.

(** C2.  A text that is not valid JSON comes back as it is: the
    SyntaxError of [JSON.parse] is caught and logged, and the call
    returns normally, whatever the path and the new values; and
    [updateJsonAtPath('not json', [], {})] is ['not json']. *)
Theorem updateJsonAtPath_invalid_text :
  (forall text path newValues,
     JSON_parse text = None ->
     updateJsonAtPath text path newValues
     = Normal {| returned := text; logged := [SyntaxError] |})
  /\ updateJsonAtPath (str "not json") [] []
     = Normal {| returned := str "not json"; logged := [SyntaxError] |}.
Proof.
  assert (H : forall text path newValues,
             JSON_parse text = None ->
             updateJsonAtPath text path newValues
             = Normal {| returned := text; logged := [SyntaxError] |}).
  { intros text path newValues Hp.
    unfold updateJsonAtPath, try_update. rewrite Hp. reflexivity. }
  split; [exact H|]. apply H. vm_compute. reflexivity.
Qed.

(** X22.  When the text is valid JSON and the walk reaches an ordinary
    object of the document, the call returns the document serialized
    with an indent of two spaces, in which that object holds, as a
    string, every entry of [newValues] whose key is not [__proto__] or
    is an own property of the object (overwritten or inserted), and
    keeps its other properties; and
    [updateJsonAtPath('{"a":{"b":1}}', ["a"], {b: "2"})] is the text of
    the specification. *)
Theorem updateJsonAtPath_object_target :
  (forall text doc path ps place newValues,
     JSON_parse text = Some doc ->
     walk (Some doc) [] path = Normal (Some (JObj ps), place) ->
     NoDup (map fst newValues) ->
     exists ps',
       updateJsonAtPath text path newValues
       = Normal {| returned :=
                     JSON_stringify (update_at place (fun _ => JObj ps') doc);
                   logged := [] |}
       /\ part_at place (update_at place (fun _ => JObj ps') doc)
          = Some (JObj ps')
       /\ (forall k v, In (k, v) newValues ->
             k <> PROTO \/ has_own PROTO ps = true ->
             own_property k ps' = Some (JStr v))
       /\ (forall k, ~ In k (map fst newValues) ->
             own_property k ps' = own_property k ps))
  /\ updateJsonAtPath (lit "{'a':{'b':1}}") [SegStr (str "a")]
       [(str "b", str "2")]
     = Normal {| returned :=
                   lines ["{"; "  'a': {"; "    'b': '2'"; "  }"; "}"]%string;
                 logged := [] |}.
Proof.
  split; [|vm_compute; reflexivity].
  intros text doc path ps place newValues Hp Hw Hnd.
  exists (fold_left set_entry newValues ps).
  repeat split.
  - unfold updateJsonAtPath.
    rewrite (try_update_at _ _ _ _ _ _ Hp Hw). simpl.
    rewrite assign_entries_object. reflexivity.
  - apply (part_at_update place (fun _ => JObj (fold_left set_entry newValues ps))
             doc (JObj ps)).
    apply (walk_from_root _ _ _ _ Hw). reflexivity.
  - intros k v Hin Hk. apply fold_set_entry_same; assumption.
  - intros k Hk. apply fold_set_entry_other; assumption.
Qed.


(** C4, as amended.  A failure of the walk (a TypeError: a segment
    indexes null or undefined) is handled: the [try] block encloses the
    loop, so that the error is logged and the text is returned as it
    is; and there are valid documents and paths on which the walk
    fails. *)
Theorem updateJsonAtPath_walk_failure :
  (forall text doc path e newValues,
     JSON_parse text = Some doc ->
     walk (Some doc) [] path = Throw e ->
     updateJsonAtPath text path newValues
     = Normal {| returned := text; logged := [e] |})
  /\ (exists text doc path,
        JSON_parse text = Some doc
        /\ walk (Some doc) [] path = Throw TypeError).
Proof.
  split.
  - intros text doc path e newValues Hp Hw.
    unfold updateJsonAtPath, try_update. rewrite Hp, Hw. reflexivity.
  - exists (lit "{'a':null}"), (JObj [(str "a", JNull)]),
      [SegStr (str "a"); SegStr (str "b")].
    split; vm_compute; reflexivity.
Qed.

(** No call ends by throwing. *)
Lemma updateJsonAtPath_returns text path newValues e :
  updateJsonAtPath text path newValues <> Throw e.
Proof.
  unfold updateJsonAtPath.
  destruct (try_update text path newValues); discriminate.
Qed.

(** C9, first half.  With no new values, a call whose walk reaches an
    object or an array of the document returns the serialization of
    the parsed document. *)
Lemma updateJsonAtPath_no_values text doc path target place :
  JSON_parse text = Some doc ->
  walk (Some doc) [] path = Normal (target, place) ->
  updateJsonAtPath text path []
  = Normal {| returned := JSON_stringify doc; logged := [] |}.
Proof.
  intros Hp Hw. unfold updateJsonAtPath.
  rewrite (try_update_at _ _ _ _ _ _ Hp Hw).
  destruct target as [t|]; [|reflexivity].
  destruct (is_container (Some t)) eqn:Hc; [|reflexivity]. simpl.
  rewrite update_at_fixed; [reflexivity|].
  apply (walk_from_root _ _ _ _ Hw Hc).
Qed.

End UpdateFacts.

(* ===================================================================== *)
(** * normalizeNodeData *)
(* ===================================================================== *)

Section NormalizeFacts.
Context {realm : Realm} {R : Type}.

Lemma cell_set_plain k c ps :
  k <> PROTO ->
  cell_set k c (ParentObject, ps)
  = Normal (ParentObject, define_property k c ps).
Proof.
  intros Hk. apply jsstring_eqb_neq in Hk.
  unfold cell_set, define_property. simpl. rewrite Hk.
  destruct (has_own k ps); reflexivity.
Qed.

Lemma collect_row_spec_step (ps : properties cell) (row : NodeRow R) :
  key row <> Some PROTO ->
  collect_row (ParentObject, ps) row
  = Normal (ParentObject, spec_step ps (blank_empty_key row)).
Proof.
  intros Hk. unfold collect_row, spec_step, blank_empty_key, is_scalar_row.
  simpl.
  destruct (negb (jsstring_eqb (type row) (str "array"))
            && negb (jsstring_eqb (type row) (str "object")))%bool;
    destruct (key row) as [[|c k]|]; simpl; try reflexivity.
  apply cell_set_plain. congruence.
Qed.

Lemma collect_rows_spec (rows : list (NodeRow R)) : forall ps,
  (forall row, In row rows -> key row <> Some PROTO) ->
  collect_rows rows (ParentObject, ps)
  = Normal (ParentObject, fold_left spec_step (map blank_empty_key rows) ps).
Proof.
  induction rows as [|row rows IH]; simpl; intros ps Hk; [reflexivity|].
  rewrite collect_row_spec_step by auto. simpl. apply IH. auto.
Qed.

(** The mapping of the reference definition holds JSON scalars when the
    rows do. *)
Lemma spec_step_declared (rows : list (NodeRow R)) : forall ps k c,
  (forall row, In row rows -> declared row) ->
  (forall c', own_property k ps = Some c' -> exists v, c' = Held v) ->
  own_property k (fold_left spec_step rows ps) = Some c ->
  exists v, c = Held v.
Proof.
  induction rows as [|row rows IH]; simpl; intros ps k c Hrows Hps H.
  - apply Hps, H.
  - apply (IH (spec_step ps row) k c); [auto | | exact H].
    intros c'. unfold spec_step.
    destruct (key row) as [k'|]; [|apply Hps].
    destruct (is_scalar_row row); [|apply Hps].
    destruct (jsstring_eqb k k') eqn:E.
    + apply jsstring_eqb_eq in E; subst k'. rewrite own_define_same.
      intros E; injection E as <-. apply Hrows. left; reflexivity.
    + apply jsstring_eqb_neq in E.
      rewrite own_define_other by exact E. apply Hps.
Qed.

Lemma declared_blank_empty_key (row : NodeRow R) :
  declared row -> declared (blank_empty_key row).
Proof. intros [v H]. exists v. exact H. Qed.

Lemma stringify_cells_declared (ps : properties cell) :
  (forall c, own_property (str "toJSON") ps = Some c -> exists v, c = Held v) ->
  stringify_cells ps = Normal (JSON_stringify (cell_object ps)).
Proof.
  intros H. unfold stringify_cells.
  destruct (own_property (str "toJSON") ps) as [[v|[|name]]|] eqn:E;
    try reflexivity.
  destruct (H _ eq_refl) as [v Hv]. discriminate Hv.
Qed.

(** C5, as amended.  [normalizeNodeData] is the reference definition of
    the specification in which a key that is the empty string counts
    as no key, for rows that hold JSON scalars, none of which is keyed
    [__proto__]: ["{}"] for an undefined or empty sequence, the value
    as text for one row without a key, and otherwise the serialization
    (indent of two spaces) of the mapping from key to value of the
    rows that have a key and whose type is neither ["array"] nor
    ["object"]. *)
Theorem normalizeNodeData_refines_spec :
  forall rows : option (list (NodeRow R)),
    (forall l row, rows = Some l -> In row l -> key row <> Some PROTO) ->
    (forall l row, rows = Some l -> In row l -> declared row) ->
    normalizeNodeData rows
    = Normal (normalizeNodeData_spec (option_map (map blank_empty_key) rows)).
Proof.
  intros [[|first others]|] Hk Hd; try reflexivity.
  assert (Hk' : forall row, In row (first :: others) -> key row <> Some PROTO)
    by (intros row; apply Hk; reflexivity).
  assert (Hd' : forall row, In row (map blank_empty_key (first :: others)) ->
                            declared row).
  { intros row Hin. apply in_map_iff in Hin. destruct Hin as [row0 [<- Hin]].
    apply declared_blank_empty_key, (Hd _ _ eq_refl Hin). }
  pose proof (collect_rows_spec (first :: others) [] Hk') as E.
  pose proof (stringify_cells_declared
                (fold_left spec_step (map blank_empty_key (first :: others)) [])
                (fun c => spec_step_declared _ [] _ c Hd'
                            (fun c' (H : None = Some c') =>
                               False_ind _ (eq_ind None
                                 (fun o => match o with
                                           | None => True | Some _ => False
                                           end) I _ H)))) as Es.
  change (normalizeNodeData (Some (first :: others)))
    with (if (is_nil others && negb (truthy (key first)))%bool
          then Normal (cell_text (value first))
          else do obj <- collect_rows (first :: others) (ParentObject, []);
               stringify_cells (snd obj)).
  unfold properties in *. rewrite E. cbn [bind snd]. rewrite Es.
  destruct first as [fk fv ft fr].
  destruct others as [|second others]; destruct fk as [[|c k]|]; reflexivity.
Qed.

End NormalizeFacts.

(* ===================================================================== *)
(** * The component: Save, Cancel and Edit *)
(* ===================================================================== *)

Section ComponentFacts.
Context {realm : Realm} {R D F : Type}.
Implicit Types (w : world R D F) (row : NodeRow R) (nodeData : NodeData R D).

(** The value Save reads for a key that has an own entry, or that
    names nothing on the prototype chain. *)
Lemma edited_value_entry values k :
  (own_property k values = None -> plain_key KObject k = true) ->
  edited_value values k
  = option_map (fun v => Held (SStr v)) (own_property k values).
Proof.
  unfold edited_value, plain_key. intros H.
  destruct (own_property k values) as [v|]; [reflexivity|].
  specialize (H eq_refl). apply negb_true_iff, orb_false_iff in H.
  destruct H as [-> ->]. reflexivity.
Qed.

Lemma save_row_entry values row :
  (forall k, keyed k row = true -> own_property k values = None ->
             plain_key KObject k = true) ->
  save_row values row
  = match entry_for values row with
    | Some v => with_value row v
    | None => row
    end.
Proof.
  unfold save_row, entry_for, with_value, keyed. intros H.
  destruct (key row) as [k|] eqn:Ek; [|reflexivity].
  assert (Ht : truthy (Some k) = negb (is_nil k)) by (destruct k; reflexivity).
  rewrite Ht.
  destruct (is_scalar_row row && negb (is_nil k))%bool eqn:Eg; [|reflexivity].
  apply andb_true_iff in Eg. destruct Eg as [Es En].
  rewrite edited_value_entry.
  - destruct (own_property k values); reflexivity.
  - apply H. rewrite Es, En, jsstring_eqb_refl. reflexivity.
Qed.

(** C7, as amended.  The node Save passes to [setSelectedNode] differs
    from the selected node in its rows only: a row whose type is
    neither ["array"] nor ["object"], whose key is a string that is
    not empty and has an own entry in the edited values takes that
    entry as its value; every other row and every other attribute of
    the node is unchanged.  This is said of a node in which the key of
    every row of the first kind has an own entry in the edited values
    or names no property that an object inherits. *)
Theorem handleSave_selected_node :
  forall w nodeData,
    selectedNode w = Some nodeData ->
    (forall row k, In row (text nodeData) -> keyed k row = true ->
                   own_property k (editedValues w) = None ->
                   plain_key KObject k = true) ->
    updatedNode (editedValues w) nodeData
    = {| text := map (fun row =>
                        match entry_for (editedValues w) row with
                        | Some v => with_value row v
                        | None => row
                        end) (text nodeData);
         path := path nodeData; node_rest := node_rest nodeData |}
    /\ forall w', handleSave w = Normal w' ->
                  selectedNode w' = Some (updatedNode (editedValues w) nodeData).
Proof.
  intros w nodeData Hsel Hkeys. split.
  - unfold updatedNode. f_equal. apply map_ext_in.
    intros row Hin. apply save_row_entry. intros k. apply Hkeys, Hin.
  - intros w' H. unfold handleSave in H. rewrite Hsel in H.
    destruct (updateJsonAtPath _ _ _) as [out| |]; simpl in H;
      try discriminate.
    injection H as <-. reflexivity.
Qed.

(** Typing into the inputs changes the edited values and nothing
    else. *)
Lemma run_typing (edits : list (nat * jsstring)) : forall w nodeData,
  selectedNode w = Some nodeData -> isEditing w = true ->
  exists values,
    run w (map (fun e => TypeInto (fst e) (snd e)) edits)
    = Normal (set_session true values w).
Proof.
  induction edits as [|[index entered] edits IH]; intros w nodeData Hsel Hed.
  - exists (editedValues w). simpl. destruct w; simpl in *; subst; reflexivity.
  - simpl. unfold step. rewrite Hsel, Hed.
    destruct (nth_error (editableRows nodeData) index) as [row|]; simpl.
    + destruct (IH (handleEditChange (input_key index row) entered w) nodeData)
        as [values Hv]; [exact Hsel | exact Hed |].
      exists values. rewrite Hv. reflexivity.
    + apply (IH w nodeData Hsel Hed).
Qed.

Lemma run_app (xs ys : list action) : forall w,
  run w (xs ++ ys) = do w' <- run w xs; run w' ys.
Proof.
  induction xs as [|a xs IH]; intros w; simpl; [reflexivity|].
  destruct (step w a); simpl; auto.
Qed.

(** C8.  An edit session that ends with Cancel -- Edit, any typing
    into the inputs, Cancel -- leaves the component viewing, with the
    edited values discarded, and writes to neither store: the contents
    of the document, its format and its changed flag, and the selected
    node are what they were, and nothing is logged. *)
Theorem cancel_leaves_stores :
  forall w nodeData (edits : list (nat * jsstring)),
    selectedNode w = Some nodeData ->
    isEditing w = false ->
    editDisabled nodeData = false ->
    exists w',
      run w (ClickEdit :: map (fun e => TypeInto (fst e) (snd e)) edits
               ++ [ClickCancel]) = Normal w'
      /\ isEditing w' = false /\ editedValues w' = []
      /\ contents w' = contents w /\ format w' = format w
      /\ hasChanges w' = hasChanges w
      /\ selectedNode w' = selectedNode w
      /\ console w' = console w.
Proof.
  intros w nodeData edits Hsel Hed Hen.
  exists (set_session false [] w).
  split; [|repeat split; reflexivity].
  change (run w (ClickEdit :: ?l)) with (do w1 <- step w ClickEdit; run w1 l).
  unfold step at 1. rewrite Hsel, Hed, Hen. simpl bind.
  rewrite run_app.
  destruct (run_typing edits (startEditing w) nodeData) as [values Hv].
  - unfold startEditing. rewrite Hsel. exact Hsel.
  - unfold startEditing. rewrite Hsel. reflexivity.
  - rewrite Hv. simpl. unfold step, startEditing. rewrite Hsel. simpl.
    rewrite Hsel. reflexivity.
Qed.

Lemma initialValues_without_keys (rows : list (NodeRow R)) : forall acc,
  (forall row, In row rows -> is_scalar_row row = true ->
               truthy (key row) = false) ->
  fold_left
    (fun acc row =>
       match key row with
       | Some k =>
           if (is_scalar_row row && truthy (key row))%bool
           then snd (ordinary_set ToString true k
                       (SStr (edit_text (value row))) acc)
           else acc
       | None => acc
       end) rows acc = acc.
Proof.
  induction rows as [|row rows IH]; simpl; intros acc H; [reflexivity|].
  rewrite IH by auto.
  destruct (key row) as [k|] eqn:Ek; [|reflexivity].
  destruct (is_scalar_row row) eqn:Es; [|reflexivity].
  rewrite <- Ek, (H row); auto.
Qed.

Lemma editDisabled_false nodeData :
  editDisabled nodeData = false
  <-> exists row, In row (text nodeData) /\ is_scalar_row row = true.
Proof.
  unfold editDisabled, editableRows. split.
  - destruct (filter is_scalar_row (text nodeData)) as [|row rest] eqn:E;
      [discriminate|].
    intros _. exists row. apply filter_In. rewrite E. left. reflexivity.
  - intros [row Hrow]. apply filter_In in Hrow.
    destruct (filter is_scalar_row (text nodeData)); [contradiction|].
    reflexivity.
Qed.

(** C10.  The Edit button is enabled exactly when one row has a type
    that is neither ["array"] nor ["object"], with or without a key;
    so that for a node whose rows of such a type all lack a key, Edit
    is enabled and starts the session with no edited value at all. *)
Theorem edit_enabled_without_keys :
  (forall nodeData,
     editDisabled nodeData = false
     <-> exists row, In row (text nodeData) /\ is_scalar_row row = true)
  /\ (forall w nodeData,
        selectedNode w = Some nodeData ->
        isEditing w = false ->
        (exists row, In row (text nodeData) /\ is_scalar_row row = true) ->
        (forall row, In row (text nodeData) -> is_scalar_row row = true ->
                     truthy (key row) = false) ->
        editDisabled nodeData = false
        /\ step w ClickEdit = Normal (set_session true [] w)).
Proof.
  split; [exact editDisabled_false|].
  intros w nodeData Hsel Hed Hex Hkeys.
  apply editDisabled_false in Hex. split; [exact Hex|].
  unfold step. rewrite Hsel, Hed, Hex. unfold startEditing. rewrite Hsel.
  unfold initialValues. rewrite initialValues_without_keys by exact Hkeys.
  reflexivity.
Qed.

End ComponentFacts.

(* ===================================================================== *)
(** * JSON.parse: the fuel is enough *)
(* ===================================================================== *)

Lemma after_length c s r : after c s = Some r -> len s = S (len r).
Proof.
  destruct s as [|x s]; simpl; [discriminate|].
  destruct (N.eqb x c); [|discriminate]. intros E; injection E as <-.
  reflexivity.
Qed.

Lemma skip_ws_length (s : jsstring) : len (skip_ws s) <= len s.
Proof.
  induction s as [|c s IH]; simpl; [lia|].
  destruct (is_json_whitespace c); simpl; lia.
Qed.

Lemma prepend_length c r x rest (bound : nat) :
  (forall y rest', r = Some (y, rest') -> len rest' < bound) ->
  prepend c r = Some (x, rest) -> len rest < bound.
Proof.
  destruct r as [[y rest']|]; simpl; [|discriminate].
  intros H E. injection E as <- <-. eauto.
Qed.

Lemma parse_string_length (n : nat) : forall s x rest,
  len s <= n -> parse_string s = Some (x, rest) -> len rest < len s.
Proof.
  induction n as [|n IH]; intros [|c r] x rest Hn; simpl in *;
    try discriminate; try lia.
  destruct (c =? 34)%N; [intros E; injection E as <- <-; lia|].
  destruct (c =? 92)%N.
  - destruct r as [|e r1]; [discriminate|].
    destruct (e =? 117)%N.
    + destruct r1 as [|h1 [|h2 [|h3 [|h4 r2]]]]; try discriminate.
      destruct (hex4 h1 h2 h3 h4); [|discriminate].
      intros E. apply (prepend_length _ _ _ _ (len r2)) in E; [simpl; lia|].
      intros y rest' E'. apply IH in E'; simpl in *; lia.
    + destruct (single_escape e); [|discriminate].
      intros E. apply (prepend_length _ _ _ _ (len r1)) in E; [simpl; lia|].
      intros y rest' E'. apply IH in E'; simpl in *; lia.
  - destruct (c <? 32)%N; [discriminate|].
    intros E. apply (prepend_length _ _ _ _ (len r)) in E; [simpl; lia|].
    intros y rest' E'. apply IH in E'; simpl in *; lia.
Qed.

Lemma span_digits_length (s : jsstring) :
  len s = (len (fst (span_digits s)) + len (snd (span_digits s)))%nat.
Proof.
  induction s as [|c s IH]; simpl; [lia|].
  destruct (is_digit c); [|simpl; lia].
  destruct (span_digits s); simpl in *; lia.
Qed.

Lemma scan_exponent_length s ex rest :
  scan_exponent s = Some (ex, rest) -> len rest <= len s.
Proof.
  unfold scan_exponent. destruct s as [|c r];
    [intros E; injection E as <- <-; lia|].
  destruct (N.eqb c 101 || N.eqb c 69)%bool;
    [|intros E; injection E as <- <-; lia].
  destruct (after 43 r) as [r1|] eqn:E1;
    [|destruct (after 45 r) as [r1|] eqn:E2].
  1,2: (match goal with H : after _ _ = Some _ |- _ =>
                         apply after_length in H end;
        pose proof (span_digits_length r1) as Hs;
        destruct (span_digits r1) as [ds r2]; simpl in Hs;
        destruct (is_nil ds); [discriminate|];
        intros E; injection E as <- <-; simpl; lia).
  pose proof (span_digits_length r) as Hs.
  destruct (span_digits r) as [ds r2]; simpl in Hs.
  destruct (is_nil ds); [discriminate|].
  intros E; injection E as <- <-; simpl; lia.
Qed.

Lemma scan_sign_length s : len (snd (scan_sign s)) <= len s.
Proof.
  unfold scan_sign. destruct (after 45 s) eqn:E; simpl; [|lia].
  apply after_length in E. lia.
Qed.

Lemma scan_int_length s ip r : scan_int s = Some (ip, r) -> len r < len s.
Proof.
  unfold scan_int. destruct (after 48 s) eqn:E.
  - apply after_length in E. intros E'; injection E' as <- <-. lia.
  - pose proof (span_digits_length s) as Hs.
    destruct (span_digits s) as [ds r']; simpl in Hs.
    destruct ds; [discriminate|]. simpl.
    intros E'; injection E' as <- <-. simpl in Hs. lia.
Qed.

Lemma scan_fraction_length s fp r :
  scan_fraction s = Some (fp, r) -> len r <= len s.
Proof.
  unfold scan_fraction. destruct (after 46 s) as [t|] eqn:E.
  - apply after_length in E. pose proof (span_digits_length t) as Hs.
    destruct (span_digits t) as [ds r']; simpl in Hs.
    destruct (is_nil ds); [discriminate|].
    intros E'; injection E' as <- <-. lia.
  - intros E'; injection E' as <- <-. lia.
Qed.

Lemma parse_number_length s n rest :
  parse_number s = Some (n, rest) -> len rest < len s.
Proof.
  unfold parse_number. pose proof (scan_sign_length s) as H0.
  destruct (scan_sign s) as [neg s1]; simpl in H0.
  destruct (scan_int s1) as [[ip r1]|] eqn:E1; [|discriminate].
  apply scan_int_length in E1.
  destruct (scan_fraction r1) as [[fp r2]|] eqn:E2; [|discriminate].
  apply scan_fraction_length in E2.
  destruct (scan_exponent r2) as [[ex r3]|] eqn:E3; [|discriminate].
  apply scan_exponent_length in E3.
  intros E; injection E as <- <-. lia.
Qed.

Lemma strip_prefix_length p : forall s rest,
  strip_prefix p s = Some rest -> len s = (len p + len rest)%nat.
Proof.
  induction p as [|x p IH]; intros [|y s] rest; simpl; try discriminate.
  - intros E; injection E as <-; reflexivity.
  - intros E; injection E as <-; reflexivity.
  - destruct (N.eqb x y); [|discriminate]. intros E. apply IH in E. lia.
Qed.

Lemma parse_keyword_length word v s v' rest :
  word <> ""%string ->
  parse_keyword word v s = Parsed v' rest -> len rest < len s.
Proof.
  unfold parse_keyword. intros Hw.
  destruct (strip_prefix (str word) s) as [r|] eqn:E; [|discriminate].
  apply strip_prefix_length in E. intros E'; injection E' as <- <-.
  destruct word; [congruence|]. simpl in E. lia.
Qed.

Lemma consumes_malformed s : consumes Malformed s.
Proof. split; [discriminate|]. intros v r E; discriminate E. Qed.

Lemma consumes_parsed v r s : len r < len s -> consumes (Parsed v r) s.
Proof.
  intros H. split; [discriminate|].
  intros v' r' E; injection E as <- <-; exact H.
Qed.

Lemma consumes_weaken res s s' : len s <= len s' -> consumes res s -> consumes res s'.
Proof.
  intros Hl [H1 H2]. split; [exact H1|].
  intros v r E. apply H2 in E. lia.
Qed.

Lemma parse_fuel : forall f,
  (forall s, 2 * len s + 1 <= f -> consumes (parse_value f s) s)
  /\ (forall acc s, 2 * len s + 2 <= f -> consumes (parse_elements f acc s) s)
  /\ (forall acc s, 2 * len s + 2 <= f -> consumes (parse_members f acc s) s).
Proof.
  induction f as [|f [IHv [IHe IHm]]].
  { repeat split; intros; lia. }
  split; [|split].
  - intros s Hf. simpl.
    pose proof (skip_ws_length s) as Hws.
    destruct (skip_ws s) as [|c r]; [apply consumes_malformed|].
    simpl in Hws.
    destruct (c =? 34)%N.
    { destruct (parse_string r) as [[chars rest]|] eqn:E;
        [|apply consumes_malformed].
      apply (parse_string_length _ _ _ _ (Nat.le_refl _)) in E.
      apply consumes_parsed. lia. }
    destruct (c =? 91)%N.
    { destruct (after 93 (skip_ws r)) as [rest|] eqn:E.
      - apply after_length in E. pose proof (skip_ws_length r).
        apply consumes_parsed. lia.
      - apply (consumes_weaken _ r); [lia|]. apply IHe. lia. }
    destruct (c =? 123)%N.
    { destruct (after 125 (skip_ws r)) as [rest|] eqn:E.
      - apply after_length in E. pose proof (skip_ws_length r).
        apply consumes_parsed. lia.
      - apply (consumes_weaken _ r); [lia|]. apply IHm. lia. }
    assert (Hk : forall word v, word <> ""%string ->
                   consumes (parse_keyword word v (c :: r)) s).
    { intros word v Hw. split.
      - unfold parse_keyword. destruct (strip_prefix _ _); discriminate.
      - intros v' r' E. apply parse_keyword_length in E; [|exact Hw].
        simpl in E. lia. }
    destruct (c =? 116)%N; [apply Hk; discriminate|].
    destruct (c =? 102)%N; [apply Hk; discriminate|].
    destruct (c =? 110)%N; [apply Hk; discriminate|].
    destruct (parse_number (c :: r)) as [[n rest]|] eqn:E;
      [|apply consumes_malformed].
    apply parse_number_length in E. simpl in E.
    apply consumes_parsed. lia.
  - intros acc s Hf. simpl.
    destruct (IHv s ltac:(lia)) as [Hne Hlt].
    destruct (parse_value f s) as [v r| |];
      [|apply consumes_malformed|congruence].
    specialize (Hlt v r eq_refl). pose proof (skip_ws_length r).
    destruct (after 44 (skip_ws r)) as [rest|] eqn:E1.
    { apply after_length in E1.
      apply (consumes_weaken _ rest); [lia|]. apply IHe. lia. }
    destruct (after 93 (skip_ws r)) as [rest|] eqn:E2;
      [|apply consumes_malformed].
    apply after_length in E2. apply consumes_parsed. lia.
  - intros acc s Hf. simpl.
    pose proof (skip_ws_length s).
    destruct (after 34 (skip_ws s)) as [r|] eqn:E0;
      [|apply consumes_malformed].
    apply after_length in E0.
    destruct (parse_string r) as [[k r1]|] eqn:Es;
      [|apply consumes_malformed].
    apply (parse_string_length _ _ _ _ (Nat.le_refl _)) in Es.
    pose proof (skip_ws_length r1).
    destruct (after 58 (skip_ws r1)) as [r2|] eqn:E58;
      [|apply consumes_malformed].
    apply after_length in E58.
    destruct (IHv r2 ltac:(lia)) as [Hne Hlt].
    destruct (parse_value f r2) as [v r3| |];
      [|apply consumes_malformed|congruence].
    specialize (Hlt v r3 eq_refl). pose proof (skip_ws_length r3).
    destruct (after 44 (skip_ws r3)) as [rest|] eqn:E1.
    { apply after_length in E1.
      apply (consumes_weaken _ rest); [lia|]. apply IHm. lia. }
    destruct (after 125 (skip_ws r3)) as [rest|] eqn:E2;
      [|apply consumes_malformed].
    apply after_length in E2. apply consumes_parsed. lia.
Qed.

(** [JSON.parse] never runs out of fuel: a text that it does not parse
    is malformed, or is followed by something that is not white space. *)
Theorem parse_value_fuel (text : jsstring) :
  parse_value (2 * len text + 1) text <> Exhausted.
Proof. apply parse_fuel. lia. Qed.

(* ===================================================================== *)
(** * Array indices name their keys *)
(* ===================================================================== *)

Local Open Scope Z_scope.

Lemma decimal_value_snoc ds c :
  decimal_value (ds ++ [c]) = decimal_value ds * 10 + digit_value c.
Proof. unfold decimal_value, digits_value. rewrite fold_left_app. reflexivity. Qed.

Lemma digit_value_range c : is_digit c = true -> 0 <= digit_value c <= 9.
Proof.
  unfold is_digit, digit_value. rewrite andb_true_iff, !N.leb_le. lia.
Qed.

Lemma digit_value_inj c d :
  is_digit c = true -> is_digit d = true ->
  digit_value c = digit_value d -> c = d.
Proof. unfold digit_value. lia. Qed.

Lemma decimal_value_nonneg ds :
  forallb is_digit ds = true -> 0 <= decimal_value ds.
Proof.
  induction ds as [|c ds IH] using rev_ind; [reflexivity|].
  rewrite forallb_app, andb_true_iff. simpl. rewrite andb_true_r.
  intros [H1 H2]. rewrite decimal_value_snoc.
  pose proof (digit_value_range c H2). specialize (IH H1). lia.
Qed.

(** Digits that do not start with 0 (if any) have a positive value. *)
Lemma decimal_value_positive c ds :
  forallb is_digit (c :: ds) = true -> N.eqb c 48 = false ->
  0 < decimal_value (c :: ds).
Proof.
  induction ds as [|d ds IH] using rev_ind; intros Hd Hc.
  - simpl in Hd. rewrite andb_true_r in Hd.
    pose proof (digit_value_range c Hd). apply N.eqb_neq in Hc.
    unfold decimal_value, digits_value, digit_value in *. simpl. lia.
  - change (c :: ds ++ [d]) with ((c :: ds) ++ [d]) in *.
    rewrite forallb_app, andb_true_iff in Hd. destruct Hd as [H1 H2].
    simpl in H2. rewrite andb_true_r in H2.
    rewrite decimal_value_snoc.
    pose proof (digit_value_range d H2). specialize (IH H1 Hc). lia.
Qed.

Lemma no_leading_zero_prefix s c :
  no_leading_zero (s ++ [c]) -> no_leading_zero s.
Proof. destruct s; simpl; auto. Qed.

Lemma decimal_value_inj a : forall b,
  forallb is_digit a = true -> forallb is_digit b = true ->
  no_leading_zero a -> no_leading_zero b ->
  decimal_value a = decimal_value b -> a = b.
Proof.
  induction a as [|x a IH] using rev_ind;
    intros b; destruct b as [|y b _] using rev_ind; intros Ha Hb Na Nb E.
  - reflexivity.
  - exfalso. destruct (b ++ [y]) as [|c r] eqn:Eb;
      [destruct b; discriminate|].
    pose proof (decimal_value_positive c r Hb Nb).
    change (decimal_value []) with 0 in E. lia.
  - exfalso. destruct (a ++ [x]) as [|c r] eqn:Eb;
      [destruct a; discriminate|].
    pose proof (decimal_value_positive c r Ha Na).
    change (decimal_value []) with 0 in E. lia.
  - rewrite forallb_app, andb_true_iff in Ha, Hb.
    destruct Ha as [Ha Hx], Hb as [Hb Hy]. simpl in Hx, Hy.
    rewrite andb_true_r in Hx, Hy.
    rewrite !decimal_value_snoc in E.
    pose proof (digit_value_range x Hx). pose proof (digit_value_range y Hy).
    assert (digit_value x = digit_value y /\ decimal_value a = decimal_value b)
      as [E1 E2] by lia.
    rewrite (digit_value_inj x y Hx Hy E1).
    rewrite (IH b Ha Hb (no_leading_zero_prefix _ _ Na)
               (no_leading_zero_prefix _ _ Nb) E2).
    reflexivity.
Qed.

Lemma canonical_index_inj a b i :
  canonical_index a = Some i -> canonical_index b = Some i -> a = b.
Proof.
  unfold canonical_index.
  destruct a as [|x a]; [discriminate|]. destruct b as [|y b]; [discriminate|].
  destruct (forallb is_digit (x :: a)) eqn:Da; [|discriminate].
  destruct (forallb is_digit (y :: b)) eqn:Db; [|discriminate].
  simpl andb.
  destruct (negb (N.eqb x 48) || is_nil a)%bool eqn:Ca; [|discriminate].
  destruct (negb (N.eqb y 48) || is_nil b)%bool eqn:Cb; [|discriminate].
  intros Ea Eb. injection Ea as Ea. injection Eb as Eb.
  assert (E : decimal_value (x :: a) = decimal_value (y :: b)).
  { pose proof (decimal_value_nonneg _ Da).
    pose proof (decimal_value_nonneg _ Db). lia. }
  destruct (N.eqb x 48) eqn:Zx; destruct (N.eqb y 48) eqn:Zy; simpl in Ca, Cb.
  - destruct a; [|discriminate]. destruct b; [|discriminate].
    apply N.eqb_eq in Zx, Zy. congruence.
  - exfalso. destruct a; [|discriminate]. apply N.eqb_eq in Zx. subst x.
    pose proof (decimal_value_positive y b Db Zy).
    change (decimal_value [48%N]) with 0 in E. lia.
  - exfalso. destruct b; [|discriminate]. apply N.eqb_eq in Zy. subst y.
    pose proof (decimal_value_positive x a Da Zx).
    change (decimal_value [48%N]) with 0 in E. lia.
  - apply decimal_value_inj; auto.
Qed.

Lemma array_index_inj a b i :
  array_index a = Some i -> array_index b = Some i -> a = b.
Proof.
  unfold array_index.
  destruct (canonical_index a) as [x|] eqn:Ea; [|discriminate].
  destruct (canonical_index b) as [y|] eqn:Eb; [|discriminate].
  destruct (N.ltb x 4294967295); [|discriminate].
  destruct (N.ltb y 4294967295); [|discriminate].
  intros E1 E2. injection E1 as ->. injection E2 as ->.
  eapply canonical_index_inj; eauto.
Qed.

Local Close Scope Z_scope.

(* ===================================================================== *)
(** * The order of own properties *)
(* ===================================================================== *)

Section OrderFacts.
Context {V : Type}.
Implicit Types (k : jsstring) (v : V) (ps : properties V).

Lemma own_none_keys k ps : own_property k ps = None <-> ~ In k (keys ps).
Proof.
  induction ps as [|[k' v'] ps IH]; simpl; [tauto|].
  destruct (jsstring_eqb k k') eqn:E.
  - apply jsstring_eqb_eq in E. subst. split; [discriminate | tauto].
  - apply jsstring_eqb_neq in E. rewrite IH. intuition congruence.
Qed.

Lemma keys_replace k v ps : keys (replace_property k v ps) = keys ps.
Proof.
  induction ps as [|[k' v'] ps IH]; simpl; [reflexivity|].
  destruct (jsstring_eqb k k'); simpl; congruence.
Qed.

Lemma keys_insert i k v ps k' :
  In k' (keys (insert_index i k v ps)) <-> k' = k \/ In k' (keys ps).
Proof.
  induction ps as [|[k0 v0] ps IH]; simpl; [intuition|].
  destruct (array_index k0) as [j|]; [destruct (N.ltb j i)|]; simpl;
    try rewrite IH; intuition.
Qed.

Lemma ordered_insert i k v ps :
  ordered_keys (keys ps) -> ~ In k (keys ps) -> array_index k = Some i ->
  ordered_keys (keys (insert_index i k v ps)).
Proof.
  intros Ho Hk Hi. induction ps as [|[k0 v0] ps IH]; simpl in *.
  - rewrite Hi. intuition. 
  - destruct Ho as [Hf [Ho Hm]].
    destruct (array_index k0) as [j|] eqn:Ej.
    + destruct (N.ltb j i) eqn:Lt; simpl.
      * rewrite Ej. split; [|split].
        -- rewrite keys_insert. intuition.
        -- apply IH; tauto.
        -- intros k' j'. rewrite keys_insert. intros [->|H] E'.
           ++ apply N.ltb_lt in Lt. congruence.
           ++ eauto.
      * rewrite Hi, Ej. split; [tauto|]. split; [tauto|].
        intros k' j' [<-|H] E'.
        -- apply N.ltb_ge in Lt.
           assert (j' = j) by congruence. subst j'.
           destruct (N.eq_dec i j) as [->|Hne]; [|lia].
           exfalso. apply Hk. left.
           eapply array_index_inj; eauto.
        -- apply N.ltb_ge in Lt. specialize (Hm k' j' H E'). lia.
    + simpl. rewrite Hi, Ej. split; [tauto|]. split; [tauto|].
      intros k' j' [<-|H] E'; [congruence|].
      rewrite (Hm k' H) in E'. discriminate.
Qed.

Lemma keys_append k v ps k' :
  In k' (keys (ps ++ [(k, v)])) <-> In k' (keys ps) \/ k' = k.
Proof.
  unfold keys. rewrite map_app, in_app_iff. simpl. intuition.
Qed.

Lemma ordered_append k v ps :
  ordered_keys (keys ps) -> ~ In k (keys ps) -> array_index k = None ->
  ordered_keys (keys (ps ++ [(k, v)])).
Proof.
  intros Ho Hk Hi. induction ps as [|[k0 v0] ps IH]; simpl in *.
  - rewrite Hi. intuition.
  - destruct Ho as [Hf [Ho Hm]].
    change (map fst (ps ++ [(k, v)])) with (keys (ps ++ [(k, v)])).
    split; [rewrite keys_append; intuition|]. split; [apply IH; tauto|].
    destruct (array_index k0) as [j|].
    + intros k' j'. rewrite keys_append. intros [H| ->] E'.
      * eauto.
      * congruence.
    + intros k'. rewrite keys_append. intros [H| ->]; auto.
Qed.

Lemma define_ordered k v ps :
  ordered_keys (keys ps) -> ordered_keys (keys (define_property k v ps)).
Proof.
  intros Ho. unfold define_property. destruct (has_own k ps) eqn:E.
  - rewrite keys_replace. exact Ho.
  - apply has_own_false, own_none_keys in E.
    destruct (array_index k) eqn:Ei.
    + apply ordered_insert; assumption.
    + apply ordered_append; assumption.
Qed.

(** A property of such an object stands where its creation puts it
    after the properties before it. *)
Lemma define_at_end prefix k v suffix :
  ordered_keys (keys (prefix ++ (k, v) :: suffix)) ->
  define_property k v prefix = prefix ++ [(k, v)].
Proof.
  intros Ho.
  assert (Hfresh : ~ In k (keys prefix)).
  { clear -Ho. induction prefix as [|[k0 v0] prefix IH]; simpl in *; [tauto|].
    destruct Ho as [Hf [Ho _]]. intros [->|H].
    - apply Hf. unfold keys. rewrite map_app, in_app_iff. simpl. tauto.
    - tauto. }
  unfold define_property.
  apply own_none_keys in Hfresh. apply has_own_false in Hfresh.
  rewrite Hfresh. destruct (array_index k) as [i|] eqn:Ei; [|reflexivity].
  clear Hfresh. induction prefix as [|[k0 v0] prefix IH]; simpl in *;
    [reflexivity|].
  destruct Ho as [_ [Ho Hm]].
  assert (Hin : In k (keys (prefix ++ (k, v) :: suffix))).
  { unfold keys. rewrite map_app, in_app_iff. simpl. tauto. }
  destruct (array_index k0) as [j|].
  - specialize (Hm k i Hin Ei). apply N.ltb_lt in Hm. rewrite Hm.
    rewrite IH by exact Ho. reflexivity.
  - rewrite (Hm k Hin) in Ei. discriminate.
Qed.

Lemma Forall_replace (P : jsstring * V -> Prop) k v ps :
  (forall k', P (k', v)) -> Forall P ps -> Forall P (replace_property k v ps).
Proof.
  intros Hv H. induction H as [|[k0 v0] ps H0 H IH]; simpl; [constructor|].
  destruct (jsstring_eqb k k0); constructor; auto.
Qed.

Lemma Forall_insert (P : jsstring * V -> Prop) i k v ps :
  P (k, v) -> Forall P ps -> Forall P (insert_index i k v ps).
Proof.
  intros Hv H. induction H as [|[k0 v0] ps H0 H IH]; simpl;
    [repeat constructor; assumption|].
  destruct (array_index k0) as [j|]; [destruct (N.ltb j i)|];
    repeat constructor; auto.
Qed.

Lemma Forall_define (P : V -> Prop) k v ps :
  P v -> Forall (fun p => P (snd p)) ps ->
  Forall (fun p => P (snd p)) (define_property k v ps).
Proof.
  intros Hv H. unfold define_property. destruct (has_own k ps).
  - apply Forall_replace; auto.
  - destruct (array_index k).
    + apply Forall_insert; auto.
    + apply Forall_app. split; [assumption|]. repeat constructor. exact Hv.
Qed.

End OrderFacts.

(* ===================================================================== *)
(** * The values JSON.parse returns *)
(* ===================================================================== *)

(** The shape of a parsed document: arrays without holes, and objects
    whose keys are in the order of their creation. *)
Lemma parse_keyword_document word v s v' r :
  document v -> parse_keyword word v s = Parsed v' r -> document v'.
Proof.
  unfold parse_keyword. destruct (strip_prefix (str word) s); [|discriminate].
  intros H E. injection E as <- <-. exact H.
Qed.

Lemma parse_document : forall f,
  (forall s v r, parse_value f s = Parsed v r -> document v)
  /\ (forall acc s v r,
        Forall (present document) acc ->
        parse_elements f acc s = Parsed v r -> document v)
  /\ (forall acc s v r,
        ordered_keys (keys acc) -> Forall (fun p => document (snd p)) acc ->
        parse_members f acc s = Parsed v r -> document v).
Proof.
  induction f as [|f [IHv [IHe IHm]]].
  { repeat split; intros; discriminate. }
  split; [|split].
  - intros s v r. simpl.
    destruct (skip_ws s) as [|c t]; [discriminate|].
    destruct (c =? 34)%N.
    { destruct (parse_string t) as [[chars rest]|]; [|discriminate].
      intros E; injection E as <- <-. constructor. }
    destruct (c =? 91)%N.
    { destruct (after 93 (skip_ws t)).
      - intros E; injection E as <- <-. constructor. constructor.
      - apply IHe. constructor. }
    destruct (c =? 123)%N.
    { destruct (after 125 (skip_ws t)).
      - intros E; injection E as <- <-. constructor; constructor.
      - apply IHm; constructor. }
    destruct (c =? 116)%N; [apply parse_keyword_document; constructor|].
    destruct (c =? 102)%N; [apply parse_keyword_document; constructor|].
    destruct (c =? 110)%N; [apply parse_keyword_document; constructor|].
    destruct (parse_number (c :: t)) as [[n rest]|]; [|discriminate].
    intros E; injection E as <- <-. constructor.
  - intros acc s v r Hacc. simpl.
    destruct (parse_value f s) as [e t| |] eqn:Ee; try discriminate.
    apply IHv in Ee.
    assert (Hacc' : Forall (present document) (acc ++ [Some e])).
    { apply Forall_app. split; [exact Hacc|]. repeat constructor. exact Ee. }
    destruct (after 44 (skip_ws t)).
    { apply IHe. exact Hacc'. }
    destruct (after 93 (skip_ws t)); [|discriminate].
    intros E; injection E as <- <-. constructor. exact Hacc'.
  - intros acc s v r Ho Hacc. simpl.
    destruct (after 34 (skip_ws s)) as [t|]; [|discriminate].
    destruct (parse_string t) as [[k t1]|]; [|discriminate].
    destruct (after 58 (skip_ws t1)) as [t2|]; [|discriminate].
    destruct (parse_value f t2) as [e t3| |] eqn:Ee; try discriminate.
    apply IHv in Ee.
    pose proof (define_ordered k e acc Ho) as Ho'.
    pose proof (Forall_define document k e acc Ee Hacc) as Hacc'.
    destruct (after 44 (skip_ws t3)).
    { apply IHm; assumption. }
    destruct (after 125 (skip_ws t3)); [|discriminate].
    intros E; injection E as <- <-. constructor; assumption.
Qed.

Lemma JSON_parse_document text doc : JSON_parse text = Some doc -> document doc.
Proof.
  unfold JSON_parse.
  destruct (parse_value _ text) as [v rest| |] eqn:E; try discriminate.
  destruct (is_nil (skip_ws rest)); [|discriminate].
  intros E'; injection E' as <-.
  eapply (proj1 (parse_document _)); eauto.
Qed.

(** Induction over documents. *)
Lemma document_ind (P : jsval -> Prop) :
  P JNull -> (forall b, P (JBool b)) -> (forall n, P (JNum n)) ->
  (forall s, P (JStr s)) ->
  (forall xs, Forall (present (fun e => document e /\ P e)) xs -> P (JArr xs)) ->
  (forall ps, ordered_keys (keys ps) ->
              Forall (fun p => document (snd p) /\ P (snd p)) ps ->
              P (JObj ps)) ->
  forall v, document v -> P v.
Proof.
  intros Hnull Hbool Hnum Hstr Harr Hobj.
  fix IH 2. intros v [|b|n|s|xs Hxs|ps Ho Hps]; auto.
  - apply Harr. revert xs Hxs. fix IHxs 2.
    intros xs [|x xs' Hx Hxs]; constructor.
    + destruct Hx as [e He]. constructor. split; [exact He | apply IH, He].
    + apply IHxs, Hxs.
  - apply Hobj; [exact Ho|]. clear Ho. revert ps Hps. fix IHps 2.
    intros ps [|p ps' Hp Hps]; constructor.
    + split; [exact Hp | apply IH, Hp].
    + apply IHps, Hps.
Qed.

(* ===================================================================== *)
(** * A quoted string reads back *)
(* ===================================================================== *)

Local Open Scope N_scope.

Lemma parse_string_end r : parse_string (QUOTE :: r) = Some ([], r).
Proof. reflexivity. Qed.

Lemma parse_string_plain c r :
  (c =? 34) = false -> (c =? 92) = false -> (c <? 32) = false ->
  parse_string (c :: r) = prepend c (parse_string r).
Proof. intros H1 H2 H3. simpl. rewrite H1, H2, H3. reflexivity. Qed.

Lemma parse_string_escape e c r :
  (e =? 117) = false -> single_escape e = Some c ->
  parse_string (BACKSLASH :: e :: r) = prepend c (parse_string r).
Proof.
  intros H1 H2. change (parse_string (BACKSLASH :: e :: r))
    with (if e =? 117
          then match r with
               | h1 :: h2 :: h3 :: h4 :: r2 =>
                   match hex4 h1 h2 h3 h4 with
                   | Some u => prepend u (parse_string r2)
                   | None => None
                   end
               | _ => None
               end
          else match single_escape e with
               | Some u => prepend u (parse_string r)
               | None => None
               end).
  rewrite H1, H2. reflexivity.
Qed.

Lemma parse_string_unicode h1 h2 h3 h4 u r :
  hex4 h1 h2 h3 h4 = Some u ->
  parse_string (BACKSLASH :: 117 :: h1 :: h2 :: h3 :: h4 :: r)
  = prepend u (parse_string r).
Proof.
  intros H. change (parse_string (BACKSLASH :: 117 :: h1 :: h2 :: h3 :: h4 :: r))
    with (match hex4 h1 h2 h3 h4 with
          | Some u => prepend u (parse_string r)
          | None => None
          end).
  rewrite H. reflexivity.
Qed.

Lemma hex_value_digit d : d < 16 -> hex_value (hex_digit d) = Some (Z.of_N d).
Proof.
  intros Hd. unfold hex_digit, hex_value, is_digit.
  destruct (d <? 10) eqn:E.
  - apply N.ltb_lt in E.
    replace (48 <=? 48 + d) with true by (symmetry; apply N.leb_le; lia).
    replace (48 + d <=? 57) with true by (symmetry; apply N.leb_le; lia).
    cbn [andb]. f_equal. lia.
  - apply N.ltb_ge in E.
    replace (87 + d <=? 57) with false by (symmetry; apply N.leb_gt; lia).
    rewrite andb_false_r.
    replace (97 <=? 87 + d) with true by (symmetry; apply N.leb_le; lia).
    replace (87 + d <=? 102) with true by (symmetry; apply N.leb_le; lia).
    cbn [andb]. f_equal. lia.
Qed.

Lemma unicode_escape_reads c r :
  c < 65536 ->
  parse_string (unicode_escape c ++ r) = prepend c (parse_string r).
Proof.
  intros Hc. unfold unicode_escape.
  change ([BACKSLASH; 117; ?a; ?b; ?x; ?d] ++ r)
    with (BACKSLASH :: 117 :: a :: b :: x :: d :: r).
  apply parse_string_unicode. unfold hex4.
  rewrite !hex_value_digit by (apply N.mod_lt; discriminate).
  f_equal.
  assert (E : (((Z.of_N (c / 4096 mod 16) * 16 + Z.of_N (c / 256 mod 16)) * 16
                + Z.of_N (c / 16 mod 16)) * 16 + Z.of_N (c mod 16))%Z
              = Z.of_N c).
  { rewrite !N2Z.inj_mod, !N2Z.inj_div. change (Z.of_N 16) with 16%Z.
    change (Z.of_N 4096) with 4096%Z. change (Z.of_N 256) with 256%Z.
    assert (0 <= Z.of_N c < 65536)%Z by lia.
    generalize dependent (Z.of_N c). intros z Hz.
    Z.to_euclidean_division_equations. lia. }
  rewrite E. apply N2Z.id.
Qed.

Lemma short_escape_reads c e :
  short_escape c = Some e -> (e =? 117) = false /\ single_escape e = Some c.
Proof.
  unfold short_escape.
  repeat match goal with
         | |- context [if ?x =? ?y then _ else _] =>
             destruct (x =? y) eqn:?
         end; intros E; try discriminate; injection E as <-;
    repeat match goal with
           | H : (_ =? _) = true |- _ => apply N.eqb_eq in H; subst
           end; split; reflexivity.
Qed.

Lemma short_escape_none c :
  short_escape c = None -> (c =? 34) = false /\ (c =? 92) = false.
Proof.
  unfold short_escape.
  repeat match goal with
         | |- context [if ?x =? ?y then _ else _] =>
             destruct (x =? y) eqn:?
         end; intros E; try discriminate; split; reflexivity.
Qed.

Lemma surrogate_plain c :
  (is_leading_surrogate c || is_trailing_surrogate c)%bool = true ->
  (c =? 34) = false /\ (c =? 92) = false /\ (c <? 32) = false /\ c < 65536.
Proof.
  unfold is_leading_surrogate, is_trailing_surrogate.
  rewrite orb_true_iff, !andb_true_iff, !N.leb_le.
  intros H. repeat split;
    try (apply N.eqb_neq; lia); try (apply N.ltb_ge; lia); lia.
Qed.

Lemma parse_string_quote_chars (n : nat) : forall s rest,
  (List.length s <= n)%nat ->
  parse_string (quote_chars s ++ QUOTE :: rest) = Some (s, rest).
Proof.
  induction n as [|n IH]; intros [|c r] rest Hn; simpl in Hn; try lia;
    try reflexivity.
  assert (IHr : forall t, (List.length t <= List.length r)%nat ->
                  prepend c (parse_string (quote_chars t ++ QUOTE :: rest))
                  = Some (c :: t, rest)).
  { intros t Ht. rewrite IH by lia. reflexivity. }
  change (quote_chars (c :: r)) with
    (match short_escape c with
     | Some e => BACKSLASH :: e :: quote_chars r
     | None =>
         if c <? 32 then unicode_escape c ++ quote_chars r
         else if is_leading_surrogate c then
           match r with
           | d :: r' =>
               if is_trailing_surrogate d then c :: d :: quote_chars r'
               else unicode_escape c ++ quote_chars r
           | [] => unicode_escape c
           end
         else if is_trailing_surrogate c then
           unicode_escape c ++ quote_chars r
         else c :: quote_chars r
     end).
  destruct (short_escape c) as [e|] eqn:Es.
  { destruct (short_escape_reads c e Es) as [H1 H2].
    change ((BACKSLASH :: e :: quote_chars r) ++ QUOTE :: rest)
      with (BACKSLASH :: e :: (quote_chars r ++ QUOTE :: rest)).
    rewrite (parse_string_escape e c _ H1 H2). apply IHr. lia. }
  destruct (short_escape_none c Es) as [H34 H92].
  destruct (c <? 32) eqn:Hlow.
  { rewrite <- app_assoc, unicode_escape_reads; [apply IHr; lia|].
    apply N.ltb_lt in Hlow. lia. }
  destruct (is_leading_surrogate c) eqn:Hlead.
  { destruct (surrogate_plain c) as [_ [_ [_ Hc]]]; [rewrite Hlead; reflexivity|].
    destruct r as [|d r'].
    - rewrite unicode_escape_reads by exact Hc. apply (IHr []). simpl; lia.
    - destruct (is_trailing_surrogate d) eqn:Htrail.
      + destruct (surrogate_plain d) as [D34 [D92 [Dlow _]]];
          [rewrite Htrail; apply orb_true_r|].
        change ((c :: d :: quote_chars r') ++ QUOTE :: rest)
          with (c :: d :: (quote_chars r' ++ QUOTE :: rest)).
        rewrite (parse_string_plain c _ H34 H92 Hlow).
        rewrite (parse_string_plain d _ D34 D92 Dlow).
        rewrite IH by (simpl in Hn; lia). reflexivity.
      + rewrite <- app_assoc, unicode_escape_reads by exact Hc.
        apply IHr. lia. }
  destruct (is_trailing_surrogate c) eqn:Htrail.
  { destruct (surrogate_plain c) as [_ [_ [_ Hc]]];
      [rewrite Htrail; apply orb_true_r|].
    rewrite <- app_assoc, unicode_escape_reads by exact Hc. apply IHr. lia. }
  change ((c :: quote_chars r) ++ QUOTE :: rest)
    with (c :: (quote_chars r ++ QUOTE :: rest)).
  rewrite (parse_string_plain c _ H34 H92 Hlow). apply IHr. lia.
Qed.

Lemma parse_string_quoted s rest :
  parse_string (quote_chars s ++ QUOTE :: rest) = Some (s, rest).
Proof. apply (parse_string_quote_chars (List.length s)). lia. Qed.

Local Close Scope N_scope.

(* ===================================================================== *)
(** * A number reads back *)
(* ===================================================================== *)

Lemma number_eqb_eq x y : number_eqb x y = true -> x = y.
Proof.
  destruct x as [|a|a m e], y as [|b|b m' e']; simpl; try discriminate.
  - reflexivity.
  - intros H. apply eqb_prop in H. congruence.
  - rewrite !andb_true_iff, N.eqb_eq, Z.eqb_eq.
    intros [[H1 ->] ->]. apply eqb_prop in H1. congruence.
Qed.

Section Delimited.
Variable rest : jsstring.
Hypothesis Hrest : delimited rest.

Lemma after_delimited c : c <> 44%N -> c <> LF -> after c rest = None.
Proof.
  intros H1 H2. destruct rest as [|x r]; [reflexivity|]. simpl in *.
  destruct (N.eqb x c) eqn:E; [|reflexivity].
  apply N.eqb_eq in E. subst. destruct Hrest; congruence.
Qed.

Lemma span_digits_delimited : span_digits rest = ([], rest).
Proof.
  destruct rest as [|x r]; [reflexivity|]. simpl in *.
  destruct Hrest as [-> | ->]; reflexivity.
Qed.

Lemma scan_exponent_delimited : scan_exponent rest = Some (0%Z, rest).
Proof.
  destruct rest as [|x r]; [reflexivity|]. simpl in *.
  destruct Hrest as [-> | ->]; reflexivity.
Qed.

Lemma after_app c s r :
  after c s = Some r -> after c (s ++ rest) = Some (r ++ rest).
Proof.
  destruct s as [|x s]; simpl; [discriminate|].
  destruct (N.eqb x c); [|discriminate]. intros E; injection E as <-.
  reflexivity.
Qed.

Lemma after_app_none c s :
  c <> 44%N -> c <> LF ->
  after c s = None -> after c (s ++ rest) = None.
Proof.
  intros H1 H2. destruct s as [|x s]; simpl.
  - intros _. apply after_delimited; assumption.
  - destruct (N.eqb x c); [discriminate | reflexivity].
Qed.

Lemma span_digits_app s :
  span_digits (s ++ rest)
  = (fst (span_digits s), snd (span_digits s) ++ rest).
Proof.
  induction s as [|c s IH]; simpl.
  - apply span_digits_delimited.
  - destruct (is_digit c); [|reflexivity].
    rewrite IH. destruct (span_digits s). reflexivity.
Qed.

Lemma scan_sign_app s :
  scan_sign (s ++ rest) = (fst (scan_sign s), snd (scan_sign s) ++ rest).
Proof.
  unfold scan_sign. destruct (after 45 s) as [r|] eqn:E.
  - rewrite (after_app _ _ _ E). reflexivity.
  - rewrite after_app_none by (try exact E; discriminate). reflexivity.
Qed.

Lemma scan_int_app s ip r :
  scan_int s = Some (ip, r) -> scan_int (s ++ rest) = Some (ip, r ++ rest).
Proof.
  unfold scan_int. destruct (after 48 s) as [t|] eqn:E.
  - rewrite (after_app _ _ _ E). intros E'; injection E' as <- <-.
    reflexivity.
  - rewrite after_app_none by (try exact E; discriminate).
    rewrite span_digits_app. destruct (span_digits s) as [ds t]. simpl.
    destruct (is_nil ds); [discriminate|].
    intros E'; injection E' as <- <-. reflexivity.
Qed.

Lemma scan_fraction_app s fp r :
  scan_fraction s = Some (fp, r) ->
  scan_fraction (s ++ rest) = Some (fp, r ++ rest).
Proof.
  unfold scan_fraction. destruct (after 46 s) as [t|] eqn:E.
  - rewrite (after_app _ _ _ E). rewrite span_digits_app.
    destruct (span_digits t) as [ds t']. simpl.
    destruct (is_nil ds); [discriminate|].
    intros E'; injection E' as <- <-. reflexivity.
  - rewrite after_app_none by (try exact E; discriminate).
    intros E'; injection E' as <- <-. reflexivity.
Qed.

Lemma scan_exponent_app s ex r :
  scan_exponent s = Some (ex, r) ->
  scan_exponent (s ++ rest) = Some (ex, r ++ rest).
Proof.
  destruct s as [|c s].
  - intros E; injection E as <- <-. apply scan_exponent_delimited.
  - simpl. destruct (N.eqb c 101 || N.eqb c 69)%bool;
      [|intros E; injection E as <- <-; reflexivity].
    destruct (after 43 s) as [t|] eqn:E1.
    + rewrite (after_app _ _ _ E1). rewrite span_digits_app.
      destruct (span_digits t) as [ds t']. simpl.
      destruct (is_nil ds); [discriminate|].
      intros E'; injection E' as <- <-. reflexivity.
    + rewrite (after_app_none 43 s) by (try exact E1; discriminate).
      destruct (after 45 s) as [t|] eqn:E2.
      * rewrite (after_app _ _ _ E2). rewrite span_digits_app.
        destruct (span_digits t) as [ds t']. simpl.
        destruct (is_nil ds); [discriminate|].
        intros E'; injection E' as <- <-. reflexivity.
      * rewrite (after_app_none 45 s) by (try exact E2; discriminate).
        rewrite span_digits_app.
        destruct (span_digits s) as [ds t']. simpl.
        destruct (is_nil ds); [discriminate|].
        intros E'; injection E' as <- <-. reflexivity.
Qed.

Lemma parse_number_app s n r :
  parse_number s = Some (n, r) ->
  parse_number (s ++ rest) = Some (n, r ++ rest).
Proof.
  unfold parse_number. rewrite scan_sign_app.
  destruct (scan_sign s) as [neg s1]. simpl.
  destruct (scan_int s1) as [[ip r1]|] eqn:E1; [|discriminate].
  rewrite (scan_int_app _ _ _ E1).
  destruct (scan_fraction r1) as [[fp r2]|] eqn:E2; [|discriminate].
  rewrite (scan_fraction_app _ _ _ E2).
  destruct (scan_exponent r2) as [[ex r3]|] eqn:E3; [|discriminate].
  rewrite (scan_exponent_app _ _ _ E3).
  intros E; injection E as <- <-. reflexivity.
Qed.

Lemma reads_back_app n :
  reads_back n = true ->
  parse_number (Number_toString n ++ rest) = Some (n, rest).
Proof.
  unfold reads_back.
  destruct (parse_number (Number_toString n)) as [[n' [|]]|] eqn:E;
    try discriminate.
  intros H. apply number_eqb_eq in H. subst n'.
  apply parse_number_app in E. exact E.
Qed.

End Delimited.

(** The text of a number that reads back starts with a minus sign or
    a digit. *)
Lemma parse_number_head s n r :
  parse_number s = Some (n, r) ->
  exists c t, s = c :: t /\ (c = 45%N \/ is_digit c = true).
Proof.
  unfold parse_number, scan_sign.
  destruct s as [|c t].
  - simpl. discriminate.
  - intros H. exists c, t. split; [reflexivity|].
    simpl in H. destruct (N.eqb c 45) eqn:E.
    + left. apply N.eqb_eq, E.
    + right. unfold scan_int in H. simpl in H.
      destruct (N.eqb c 48) eqn:E0.
      * apply N.eqb_eq in E0. subst. reflexivity.
      * destruct (is_digit c); [reflexivity|]. simpl in H. discriminate.
Qed.

Lemma reads_back_finite n : reads_back n = true -> is_finite n = true.
Proof. destruct n as [|[|]|]; try reflexivity; vm_compute; discriminate. Qed.

(* ===================================================================== *)
(** * A serialized document reads back *)
(* ===================================================================== *)

Lemma blank_app a b : blank a -> blank b -> blank (a ++ b).
Proof. unfold blank. rewrite forallb_app. intros -> ->. reflexivity. Qed.

Lemma blank_cons c a : is_json_whitespace c = true -> blank a -> blank (c :: a).
Proof. unfold blank. simpl. intros -> ->. reflexivity. Qed.

Lemma blank_GAP : blank GAP.
Proof. reflexivity. Qed.

Lemma skip_ws_blank ws t : blank ws -> skip_ws (ws ++ t) = skip_ws t.
Proof.
  unfold blank. induction ws as [|c ws IH]; simpl; [reflexivity|].
  rewrite andb_true_iff. intros [-> H]. auto.
Qed.

Lemma skip_ws_head c t : is_json_whitespace c = false -> skip_ws (c :: t) = c :: t.
Proof. intros H. simpl. rewrite H. reflexivity. Qed.

(** ** One step of the parser *)

Lemma parse_value_string f s r :
  skip_ws s = QUOTE :: r ->
  parse_value (S f) s
  = match parse_string r with
    | Some (chars, rest) => Parsed (JStr chars) rest
    | None => Malformed
    end.
Proof. intros H. simpl. rewrite H. reflexivity. Qed.

Lemma parse_value_array f s r :
  skip_ws s = 91%N :: r ->
  parse_value (S f) s
  = match after 93 (skip_ws r) with
    | Some rest => Parsed (JArr []) rest
    | None => parse_elements f [] r
    end.
Proof. intros H. simpl. rewrite H. reflexivity. Qed.

Lemma parse_value_object f s r :
  skip_ws s = 123%N :: r ->
  parse_value (S f) s
  = match after 125 (skip_ws r) with
    | Some rest => Parsed (JObj []) rest
    | None => parse_members f [] r
    end.
Proof. intros H. simpl. rewrite H. reflexivity. Qed.

Lemma parse_value_number f s c r :
  skip_ws s = c :: r -> c = 45%N \/ is_digit c = true ->
  parse_value (S f) s
  = match parse_number (c :: r) with
    | Some (n, rest) => Parsed (JNum n) rest
    | None => Malformed
    end.
Proof.
  intros H Hc. simpl. rewrite H.
  assert (E : forall x, (x < 45 \/ 57 < x)%N -> (c =? x)%N = false).
  { intros x Hx. apply N.eqb_neq. destruct Hc as [-> | Hd]; [lia|].
    unfold is_digit in Hd. rewrite andb_true_iff, !N.leb_le in Hd. lia. }
  rewrite !E by lia. reflexivity.
Qed.

Lemma parse_elements_step f acc s :
  parse_elements (S f) acc s
  = match parse_value f s with
    | Parsed v r =>
        match after 44 (skip_ws r), after 93 (skip_ws r) with
        | Some rest, _ => parse_elements f (acc ++ [Some v]) rest
        | None, Some rest => Parsed (JArr (acc ++ [Some v])) rest
        | None, None => Malformed
        end
    | Malformed => Malformed
    | Exhausted => Exhausted
    end.
Proof. reflexivity. Qed.

Lemma parse_members_step f acc s :
  parse_members (S f) acc s
  = match after 34 (skip_ws s) with
    | Some r =>
        match parse_string r with
        | Some (k, r1) =>
            match after 58 (skip_ws r1) with
            | Some r2 =>
                match parse_value f r2 with
                | Parsed v r3 =>
                    match after 44 (skip_ws r3), after 125 (skip_ws r3) with
                    | Some rest, _ =>
                        parse_members f (define_property k v acc) rest
                    | None, Some rest =>
                        Parsed (JObj (define_property k v acc)) rest
                    | None, None => Malformed
                    end
                | Malformed => Malformed
                | Exhausted => Exhausted
                end
            | None => Malformed
            end
        | None => Malformed
        end
    | None => Malformed
    end.
Proof. reflexivity. Qed.

(** ** The first character of a serialized value *)

Lemma serialize_opens indent v :
  numbers_read_back v = true -> opens (serialize indent v).
Proof.
  assert (Hc : forall c t, is_json_whitespace c = false -> c <> 93%N ->
                           opens (c :: t)).
  { intros c t H1 H2. exists c, t. auto. }
  destruct v as [|b|n|s|xs|ps]; intros H.
  - apply Hc; [reflexivity | discriminate].
  - destruct b; apply Hc; (reflexivity || discriminate).
  - simpl in *. rewrite (reads_back_finite n H).
    unfold reads_back in H.
    destruct (parse_number (Number_toString n)) as [[n' r]|] eqn:E;
      [|discriminate].
    destruct (parse_number_head _ _ _ E) as [c [t [-> Hd]]].
    assert (Hr : (45 <= c <= 57)%N).
    { destruct Hd as [-> | Hd]; [lia|].
      unfold is_digit in Hd. rewrite andb_true_iff, !N.leb_le in Hd. lia. }
    apply Hc; [|lia]. unfold is_json_whitespace.
    repeat (apply orb_false_iff; split); apply N.eqb_neq; lia.
  - apply Hc; [reflexivity | discriminate].
  - simpl. unfold wrap_lines. destruct (map _ xs);
      apply Hc; (reflexivity || discriminate).
  - simpl. unfold wrap_lines. destruct (map _ ps);
      apply Hc; (reflexivity || discriminate).
Qed.

(** ** Values, elements and members *)

Lemma wrap_lines_text opening closing indent p parts rest o c :
  str opening = [o] -> str closing = [c] ->
  wrap_lines opening closing indent (p :: parts) ++ rest
  = o :: (LF :: indent ++ GAP)
      ++ join (separator indent) (p :: parts) ++ (LF :: indent) ++ c :: rest.
Proof.
  intros Ho Hc. unfold wrap_lines, separator. rewrite Ho, Hc.
  change (str ",") with [44%N].
  repeat (rewrite <- app_assoc || simpl app). reflexivity.
Qed.

Lemma join_cons2 sep p q qs :
  join sep (p :: q :: qs) = p ++ sep ++ join sep (q :: qs).
Proof. reflexivity. Qed.

Lemma elements_text_last indent x rest :
  elements_text indent [x] rest
  = element_text indent x ++ (LF :: indent) ++ 93%N :: rest.
Proof. reflexivity. Qed.

Lemma elements_text_more indent x y ys rest :
  elements_text indent (x :: y :: ys) rest
  = element_text indent x
      ++ 44%N :: ((LF :: indent) ++ GAP) ++ elements_text indent (y :: ys) rest.
Proof.
  unfold elements_text.
  change (map (element_text indent) (x :: y :: ys))
    with (element_text indent x :: element_text indent y
            :: map (element_text indent) ys).
  rewrite join_cons2. unfold separator at 1.
  change (map (element_text indent) (y :: ys))
    with (element_text indent y :: map (element_text indent) ys).
  generalize (join (separator indent)
                (element_text indent y :: map (element_text indent) ys)).
  intros j. rewrite <- !app_assoc. f_equal.
  rewrite <- !app_comm_cons. rewrite <- !app_assoc. reflexivity.
Qed.

Lemma elements_read indent rest :
  blank indent ->
  forall xs,
    Forall (present (fun e => document e
                              /\ (numbers_read_back e = true -> reads e))) xs ->
    forallb readable_element xs = true -> xs <> [] ->
    forall acc ws fuel,
      blank ws -> elements_need xs <= fuel ->
      parse_elements fuel acc (ws ++ elements_text indent xs rest)
      = Parsed (JArr (acc ++ xs)) rest.
Proof.
  intros Hindent xs Hxs.
  induction Hxs as [|x xs Hx Hxs IH]; intros Hr Hne acc ws fuel Hws Hfuel;
    [congruence|].
  destruct Hx as [e [_ He]]. simpl in Hr. apply andb_true_iff in Hr.
  destruct Hr as [Hre Hr]. specialize (He Hre).
  simpl in Hfuel. destruct fuel as [|f]; [lia|].
  rewrite parse_elements_step.
  assert (Hgap : blank (indent ++ GAP)) by (apply blank_app; auto; reflexivity).
  destruct xs as [|y ys].
  - rewrite elements_text_last. simpl element_text.
    rewrite (He ws (indent ++ GAP) ((LF :: indent) ++ 93%N :: rest) f);
      auto; [|right; reflexivity|lia].
    rewrite skip_ws_blank by (apply blank_cons; auto).
    rewrite skip_ws_head by reflexivity. reflexivity.
  - rewrite elements_text_more. simpl element_text.
    rewrite (He ws (indent ++ GAP) _ f); auto; [|left; reflexivity|lia].
    rewrite skip_ws_head by reflexivity.
    change (after 44 (44%N :: ?t)) with (Some t). cbv iota.
    rewrite (IH Hr ltac:(discriminate) (acc ++ [Some e])).
    + rewrite <- app_assoc. reflexivity.
    + apply blank_app; [apply blank_cons; auto | reflexivity].
    + simpl in Hfuel |- *. lia.
Qed.

Lemma member_text_cons indent k e t :
  member_text indent (k, e) ++ t
  = QUOTE :: quote_chars k
      ++ QUOTE :: 58%N :: [32%N] ++ serialize (indent ++ GAP) e ++ t.
Proof.
  unfold member_text, QuoteJSONString. change (str ": ") with [58%N; 32%N].
  rewrite <- !app_comm_cons, <- !app_assoc. reflexivity.
Qed.

Lemma members_text_last indent p rest :
  members_text indent [p] rest
  = member_text indent p ++ (LF :: indent) ++ 125%N :: rest.
Proof. reflexivity. Qed.

Lemma members_text_more indent p q qs rest :
  members_text indent (p :: q :: qs) rest
  = member_text indent p
      ++ 44%N :: ((LF :: indent) ++ GAP) ++ members_text indent (q :: qs) rest.
Proof.
  unfold members_text.
  change (map (member_text indent) (p :: q :: qs))
    with (member_text indent p :: member_text indent q
            :: map (member_text indent) qs).
  rewrite join_cons2. unfold separator at 1.
  change (map (member_text indent) (q :: qs))
    with (member_text indent q :: map (member_text indent) qs).
  generalize (join (separator indent)
                (member_text indent q :: map (member_text indent) qs)).
  intros j. rewrite <- !app_assoc. f_equal.
  rewrite <- !app_comm_cons. rewrite <- !app_assoc. reflexivity.
Qed.

Lemma member_read indent k e t acc ws f :
  reads e -> blank indent -> blank ws -> delimited t -> need e <= f ->
  parse_members (S f) acc (ws ++ member_text indent (k, e) ++ t)
  = match after 44 (skip_ws t), after 125 (skip_ws t) with
    | Some rest, _ => parse_members f (define_property k e acc) rest
    | None, Some rest => Parsed (JObj (define_property k e acc)) rest
    | None, None => Malformed
    end.
Proof.
  intros He Hindent Hws Ht Hf. rewrite parse_members_step.
  rewrite member_text_cons. rewrite skip_ws_blank by exact Hws.
  rewrite skip_ws_head by reflexivity.
  change (after 34 (QUOTE :: ?x)) with (Some x). cbv iota.
  rewrite parse_string_quoted.
  rewrite skip_ws_head by reflexivity.
  change (after 58 (58%N :: ?x)) with (Some x). cbv iota.
  rewrite (He [32%N] (indent ++ GAP) t f); auto.
  - reflexivity.
  - apply blank_app; [exact Hindent | reflexivity].
Qed.

Lemma members_read indent rest :
  blank indent ->
  forall ps,
    Forall (fun p => document (snd p)
                     /\ (numbers_read_back (snd p) = true -> reads (snd p)))
      ps ->
    forallb (fun p => numbers_read_back (snd p)) ps = true -> ps <> [] ->
    forall acc ws fuel,
      ordered_keys (keys (acc ++ ps)) ->
      blank ws -> members_need ps <= fuel ->
      parse_members fuel acc (ws ++ members_text indent ps rest)
      = Parsed (JObj (acc ++ ps)) rest.
Proof.
  intros Hindent ps Hps.
  induction Hps as [|[k e] ps [_ He] Hps IH];
    intros Hr Hne acc ws fuel Ho Hws Hfuel; [congruence|].
  simpl in Hr, He. apply andb_true_iff in Hr.
  destruct Hr as [Hre Hr]. specialize (He Hre).
  simpl in Hfuel. destruct fuel as [|f]; [lia|].
  assert (Hdef : define_property k e acc = acc ++ [(k, e)])
    by (eapply define_at_end; exact Ho).
  destruct ps as [|q qs].
  - rewrite members_text_last.
    rewrite member_read; auto; [|right; reflexivity|lia].
    rewrite skip_ws_blank by (apply blank_cons; auto).
    rewrite skip_ws_head by reflexivity.
    rewrite Hdef. reflexivity.
  - rewrite members_text_more.
    rewrite member_read; auto; [|left; reflexivity|lia].
    rewrite skip_ws_head by reflexivity.
    change (after 44 (44%N :: ?t)) with (Some t). cbv iota.
    rewrite Hdef. rewrite (IH Hr ltac:(discriminate) (acc ++ [(k, e)])).
    + rewrite <- app_assoc. reflexivity.
    + rewrite <- app_assoc. exact Ho.
    + apply blank_app; [apply blank_cons; auto | reflexivity].
    + simpl in Hfuel |- *. lia.
Qed.

(** A document whose numbers read back is what its serialization is
    parsed as, whatever the indentation it starts from. *)
Lemma document_reads v :
  document v -> numbers_read_back v = true -> reads v.
Proof.
  intros Hd. induction Hd as [|b|n|s|xs Hxs|ps Ho Hps] using document_ind;
    intros Hr ws indent rest fuel Hws Hindent Hrest Hfuel;
    (destruct fuel as [|f]; [simpl in Hfuel; lia|]).
  - simpl. rewrite skip_ws_blank by exact Hws. reflexivity.
  - destruct b; simpl; rewrite skip_ws_blank by exact Hws; reflexivity.
  - simpl in Hr. simpl serialize. rewrite (reads_back_finite n Hr).
    pose proof (reads_back_app rest Hrest n Hr) as Hn.
    destruct (parse_number_head _ _ _ Hn) as [c [t [Et Hc]]].
    assert (Hskip : skip_ws (ws ++ Number_toString n ++ rest) = c :: t).
    { rewrite skip_ws_blank by exact Hws. rewrite Et.
      apply skip_ws_head. unfold is_json_whitespace.
      assert (45 <= c <= 57)%N.
      { destruct Hc as [-> | Hd]; [lia|].
        unfold is_digit in Hd. rewrite andb_true_iff, !N.leb_le in Hd. lia. }
      repeat (apply orb_false_iff; split); apply N.eqb_neq; lia. }
    rewrite (parse_value_number f _ c t Hskip Hc).
    rewrite <- Et, Hn. reflexivity.
  - simpl serialize. unfold QuoteJSONString.
    rewrite <- app_comm_cons, <- app_assoc.
    rewrite (parse_value_string f _ (quote_chars s ++ [QUOTE] ++ rest)).
    + change ([QUOTE] ++ rest) with (QUOTE :: rest).
      rewrite parse_string_quoted. reflexivity.
    + rewrite skip_ws_blank by exact Hws. reflexivity.
  - simpl serialize. simpl in Hr, Hfuel.
    destruct xs as [|x xs].
    + simpl. rewrite skip_ws_blank by exact Hws. reflexivity.
    + change (map ?g (x :: xs)) with (g x :: map g xs).
      rewrite (wrap_lines_text "[" "]" indent _ _ rest 91%N 93%N)
        by reflexivity.
      rewrite (parse_value_array f _
                 ((LF :: indent ++ GAP) ++ elements_text indent (x :: xs) rest)).
      * destruct (serialize_opens (indent ++ GAP)
                    (match x with Some e => e | None => JNull end))
          as [c [t [Ec [Hc1 Hc2]]]].
        { inversion Hxs as [|? ? Hx _]; subst. destruct Hx as [e _].
          simpl in Hr. apply andb_true_iff in Hr. tauto. }
        assert (Eo : exists t', elements_text indent (x :: xs) rest = c :: t').
        { inversion Hxs as [|? ? Hx _]; subst. destruct Hx as [e _].
          destruct xs as [|y ys].
          - rewrite elements_text_last. simpl element_text. rewrite Ec.
            eexists. reflexivity.
          - rewrite elements_text_more. simpl element_text. rewrite Ec.
            eexists. reflexivity. }
        destruct Eo as [t' Eo].
        rewrite skip_ws_blank
          by (apply blank_cons; [reflexivity|];
              apply blank_app; [exact Hindent | reflexivity]).
        rewrite Eo. rewrite skip_ws_head by exact Hc1.
        replace (after 93 (c :: t')) with (@None jsstring)
          by (simpl; apply N.eqb_neq in Hc2; rewrite Hc2; reflexivity).
        rewrite <- Eo.
        apply (elements_read indent rest Hindent (x :: xs) Hxs Hr
                 ltac:(discriminate) []).
        -- apply blank_cons; [reflexivity|].
           apply blank_app; [exact Hindent | reflexivity].
        -- unfold elements_need. lia.
      * rewrite skip_ws_blank by exact Hws. reflexivity.
  - simpl serialize. simpl in Hr, Hfuel.
    destruct ps as [|p ps].
    + simpl. rewrite skip_ws_blank by exact Hws. reflexivity.
    + change (map ?g (p :: ps)) with (g p :: map g ps).
      rewrite (wrap_lines_text "{" "}" indent _ _ rest 123%N 125%N)
        by reflexivity.
      rewrite (parse_value_object f _
                 ((LF :: indent ++ GAP) ++ members_text indent (p :: ps) rest)).
      * assert (Eo : exists t', members_text indent (p :: ps) rest = QUOTE :: t').
        { destruct p as [k e]. destruct ps as [|q qs].
          - rewrite members_text_last, member_text_cons. eexists. reflexivity.
          - rewrite members_text_more, member_text_cons. eexists. reflexivity. }
        destruct Eo as [t' Eo].
        rewrite skip_ws_blank
          by (apply blank_cons; [reflexivity|];
              apply blank_app; [exact Hindent | reflexivity]).
        rewrite Eo. rewrite skip_ws_head by reflexivity.
        change (after 125 (QUOTE :: t')) with (@None jsstring). cbv iota.
        rewrite <- Eo.
        apply (members_read indent rest Hindent (p :: ps) Hps Hr
                 ltac:(discriminate) []).
        -- exact Ho.
        -- apply blank_cons; [reflexivity|].
           apply blank_app; [exact Hindent | reflexivity].
        -- unfold members_need. lia.
      * rewrite skip_ws_blank by exact Hws. reflexivity.
Qed.

(** ** The fuel of JSON.parse covers a serialized document *)

Lemma join_bound sep parts :
  1 <= List.length sep ->
  fold_right (fun p acc => S (List.length p + acc)) 0 parts
  <= S (List.length (join sep parts)).
Proof.
  intros Hsep. induction parts as [|p [|q qs] IH].
  - simpl. lia.
  - simpl. lia.
  - rewrite join_cons2.
    change (fold_right ?g 0 (p :: q :: qs))
      with (S (List.length p + fold_right g 0 (q :: qs))).
    rewrite !length_app.
    apply le_n_S, Nat.add_le_mono_l.
    eapply Nat.le_trans; [exact IH|]. simpl. lia.
Qed.

Lemma wrap_lines_length opening closing indent parts :
  1 <= List.length (str opening) ->
  fold_right (fun p acc => S (List.length p + acc)) 0 parts
  < List.length (wrap_lines opening closing indent parts).
Proof.
  intros Hopen. unfold wrap_lines. destruct parts as [|p ps].
  - simpl fold_right. rewrite length_app. lia.
  - pose proof (join_bound (str "," ++ [LF] ++ indent ++ GAP) (p :: ps)) as H.
    rewrite !length_app in *. simpl List.length in *. lia.
Qed.

Lemma need_le_length v :
  document v -> numbers_read_back v = true ->
  forall indent, need v <= List.length (serialize indent v).
Proof.
  intros Hd. induction Hd as [|b|n|s|xs Hxs|ps Ho Hps] using document_ind;
    intros Hr indent.
  - simpl. lia.
  - destruct b; simpl; lia.
  - destruct (serialize_opens indent (JNum n) Hr) as [c [t [-> _]]].
    simpl. lia.
  - simpl. unfold QuoteJSONString. simpl. lia.
  - simpl serialize. simpl need. simpl in Hr.
    apply Nat.le_succ_l.
    eapply Nat.le_lt_trans; [|apply wrap_lines_length; simpl; lia].
    clear -Hxs Hr. induction Hxs as [|x xs Hx Hxs IH]; simpl; [lia|].
    simpl in Hr. apply andb_true_iff in Hr. destruct Hr as [Hre Hr].
    destruct Hx as [e [_ He]]. specialize (He Hre (indent ++ GAP)).
    specialize (IH Hr). apply le_n_S, Nat.add_le_mono; assumption.
  - simpl serialize. simpl need. simpl in Hr.
    apply Nat.le_succ_l.
    eapply Nat.le_lt_trans; [|apply wrap_lines_length; simpl; lia].
    clear -Hps Hr. induction Hps as [|[k e] ps [_ He] Hps IH]; simpl; [lia|].
    simpl in Hr, He. apply andb_true_iff in Hr. destruct Hr as [Hre Hr].
    specialize (He Hre (indent ++ GAP)). specialize (IH Hr).
    apply le_n_S, le_S, Nat.add_le_mono; [|exact IH].
    rewrite !length_app. simpl. lia.
Qed.

(** [JSON.parse(JSON.stringify(doc, null, 2))] is [doc], for a parsed
    document whose numbers read back. *)
Theorem JSON_parse_stringify doc :
  document doc -> numbers_read_back doc = true ->
  JSON_parse (JSON_stringify doc) = Some doc.
Proof.
  intros Hd Hr. unfold JSON_parse, JSON_stringify.
  pose proof (document_reads doc Hd Hr [] [] []
                (2 * List.length (serialize [] doc) + 1)) as H.
  rewrite app_nil_r in H. simpl app in H. rewrite H.
  - reflexivity.
  - reflexivity.
  - reflexivity.
  - exact I.
  - pose proof (need_le_length doc Hd Hr []). lia.
Qed.

(* ===================================================================== *)
(** * Saving with no edited value *)
(* ===================================================================== *)

Section RoundTrip.
Context {realm : Realm}.

(** C9, as amended.  With an empty mapping, a call on a valid text
    whose walk reaches an object or an array returns the serialization
    (indent of two spaces) of the parsed document; and this text is
    parsed as the same document as the input, provided every number of
    the document reads back from its own text -- which leaves out the
    numbers that overflowed to an infinity, written [null], and the
    negative zero, written [0]. *)
Theorem updateJsonAtPath_round_trip :
  forall text doc path target place,
    JSON_parse text = Some doc ->
    walk (Some doc) [] path = Normal (target, place) ->
    typeof target = str "object" -> target <> Some JNull ->
    updateJsonAtPath text path []
    = Normal {| returned := JSON_stringify doc; logged := [] |}
    /\ (numbers_read_back doc = true ->
        JSON_parse (JSON_stringify doc) = JSON_parse text).
Proof.
  intros text doc path target place Hp Hw _ _. split.
  - apply (updateJsonAtPath_no_values _ _ _ _ _ Hp Hw).
  - intros Hr. rewrite Hp. apply JSON_parse_stringify; [|exact Hr].
    apply (JSON_parse_document _ _ Hp).
Qed.

End RoundTrip.

(* ===================================================================== *)
(** * updateJsonAtPath: every call returns *)
(* ===================================================================== *)

Section ReturnFacts.
Context {realm : Realm}.

Lemma from_prototype_plain kd k :
  plain_key kd k = true -> from_prototype kd k = Normal None.
Proof.
  unfold plain_key, from_prototype.
  destruct (jsstring_eqb k PROTO || inherited kd k)%bool;
    [discriminate | reflexivity].
Qed.

Lemma get_modelled current k :
  (forall kd, plain_key kd k = true) -> get current k <> Unmodelled.
Proof.
  intros Hk.
  assert (Hp : forall kd, from_prototype kd k <> Unmodelled)
    by (intros kd; rewrite from_prototype_plain by apply Hk; discriminate).
  destruct current as [[| | | |xs|ps]|]; simpl; try discriminate;
    try apply Hp.
  - destruct (canonical_index k).
    + destruct (nth_error s (N.to_nat n)); [discriminate | apply Hp].
    + destruct (jsstring_eqb k LENGTH); [discriminate | apply Hp].
  - destruct (array_index k).
    + destruct (element (N.to_nat n) xs); [discriminate | apply Hp].
    + destruct (jsstring_eqb k LENGTH); [discriminate | apply Hp].
  - destruct (own_property k ps); [discriminate | apply Hp].
Qed.

Lemma walk_modelled path : forall current place,
  (forall seg kd, In seg path -> plain_key kd (property_key seg) = true) ->
  walk current place path <> Unmodelled.
Proof.
  induction path as [|seg path IH]; simpl; intros current place Hk.
  - discriminate.
  - destruct (get current (property_key seg)) as [next| |] eqn:G; simpl.
    + apply IH. intros seg' kd Hin. apply Hk. right. exact Hin.
    + discriminate.
    + exfalso. revert G. apply get_modelled.
      intros kd. apply Hk. left. reflexivity.
Qed.

Lemma array_set_modelled k v xs : array_set k v xs <> Unmodelled.
Proof.
  unfold array_set. destruct (array_index k); [discriminate|].
  destruct (jsstring_eqb k LENGTH); [|discriminate].
  destruct (array_length_of (ToNumber v)); discriminate.
Qed.

Lemma assign_entries_modelled newValues : forall current,
  assign_entries newValues current <> Unmodelled.
Proof.
  induction newValues as [|[k v] rest IH]; simpl; intros current.
  - discriminate.
  - destruct current as [| | | |xs|ps]; simpl; try apply IH.
    destruct (array_set k (SStr v) xs) as [xs'| |] eqn:E; simpl.
    + apply IH.
    + discriminate.
    + exfalso. revert E. apply array_set_modelled.
Qed.

(** X1.  A call whose path names no built-in property returns: with
    nothing logged, or with the text it was given and the one error it
    caught. *)
Theorem updateJsonAtPath_always_returns :
  forall text path newValues,
    (forall seg kd, In seg path -> plain_key kd (property_key seg) = true) ->
    exists out,
      updateJsonAtPath text path newValues = Normal out
      /\ (logged out = []
          \/ (returned out = text /\ exists e, logged out = [e])).
Proof.
  intros text path newValues Hk.
  unfold updateJsonAtPath.
  destruct (try_update text path newValues) as [s|e|] eqn:E.
  - eexists. split; [reflexivity|]. left. reflexivity.
  - eexists. split; [reflexivity|]. right. split; [reflexivity|].
    exists e. reflexivity.
  - exfalso. unfold try_update in E.
    destruct (JSON_parse text) as [obj|]; [|discriminate].
    destruct (walk (Some obj) [] path) as [[current place]| |] eqn:W;
      simpl in E; try discriminate.
    + destruct current as [target|]; [|discriminate].
      destruct (jsstring_eqb (typeof (Some target)) (str "object")
                && negb (is_null (Some target)))%bool; [|discriminate].
      destruct (assign_entries newValues target) as [t'| |] eqn:A;
        simpl in E; try discriminate.
      revert A. apply assign_entries_modelled.
    + revert W. apply walk_modelled. exact Hk.
Qed.

End ReturnFacts.

(* ===================================================================== *)
(** * updateJsonAtPath: what a call leaves as it is *)
(* ===================================================================== *)

Lemma own_update_property_other k k' f ps :
  k' <> k -> own_property k' (update_property k f ps) = own_property k' ps.
Proof.
  intros Hne. induction ps as [|[k0 v0] ps IH]; simpl; [reflexivity|].
  destruct (jsstring_eqb k k0) eqn:E; simpl.
  - apply jsstring_eqb_eq in E. subst k0.
    apply jsstring_eqb_neq in Hne. rewrite Hne. reflexivity.
  - rewrite IH. reflexivity.
Qed.

Lemma element_update_element_other i j f xs :
  i <> j -> element j (update_element i f xs) = element j xs.
Proof.
  unfold element. revert j xs.
  induction i as [|i IH]; intros [|j] [|x xs] Hne; simpl; try reflexivity.
  - contradiction.
  - apply IH. congruence.
Qed.

Lemma part_at_update_branch k k' r r' f doc :
  k <> k' ->
  part_at (k' :: r') (update_at (k :: r) f doc) = part_at (k' :: r') doc.
Proof.
  intros Hne. destruct doc as [| | | |xs|ps]; try reflexivity.
  - simpl. destruct (array_index k) as [i|] eqn:Ei; [|reflexivity].
    simpl. destruct (array_index k') as [j|] eqn:Ej; [|reflexivity].
    rewrite element_update_element_other; [reflexivity|].
    intros E. apply N2Nat.inj in E. subst j.
    apply Hne. eapply array_index_inj; eassumption.
  - simpl. rewrite own_update_property_other by congruence. reflexivity.
Qed.

Lemma part_at_update_other c : forall k k' r r' f doc,
  k <> k' ->
  part_at (c ++ k' :: r') (update_at (c ++ k :: r) f doc)
  = part_at (c ++ k' :: r') doc.
Proof.
  induction c as [|k0 c IH]; intros k k' r r' f doc Hne.
  - apply part_at_update_branch, Hne.
  - destruct doc as [| | | |xs|ps]; try reflexivity.
    + simpl. destruct (array_index k0) as [i|]; [|reflexivity]. simpl.
      rewrite element_update_element.
      destruct (element (N.to_nat i) xs); simpl; [apply IH, Hne | reflexivity].
    + simpl. rewrite own_update_property.
      destruct (own_property k0 ps); simpl; [apply IH, Hne | reflexivity].
Qed.

Section FrameFacts.
Context {realm : Realm}.

(** X2.  A call that logs nothing returns the serialization of a
    document that differs from the parsed one under the place of the
    target only: whatever lies off the path that leads there is what
    it was. *)
Theorem updateJsonAtPath_frame :
  forall text doc path target place newValues out,
    JSON_parse text = Some doc ->
    walk (Some doc) [] path = Normal (target, place) ->
    updateJsonAtPath text path newValues = Normal out ->
    logged out = [] ->
    exists doc',
      returned out = JSON_stringify doc'
      /\ forall c k k' r r',
           place = c ++ k :: r -> k <> k' ->
           part_at (c ++ k' :: r') doc' = part_at (c ++ k' :: r') doc.
Proof.
  intros text doc path target place newValues out Hp Hw Hu Hl.
  unfold updateJsonAtPath in Hu.
  rewrite (try_update_at _ _ _ _ _ _ Hp Hw) in Hu.
  assert (Hsame : Normal {| returned := JSON_stringify doc; logged := [] |}
                  = Normal out ->
          exists doc', returned out = JSON_stringify doc'
            /\ forall c k k' r r',
                 place = c ++ k :: r -> k <> k' ->
                 part_at (c ++ k' :: r') doc' = part_at (c ++ k' :: r') doc).
  { intros E. injection E as <-. exists doc. split; reflexivity. }
  destruct target as [t|]; [|apply Hsame; exact Hu].
  destruct (is_container (Some t)); [|apply Hsame; exact Hu].
  destruct (assign_entries newValues t) as [t'|e|]; simpl in Hu.
  - injection Hu as <-. exists (update_at place (fun _ => t') doc).
    split; [reflexivity|].
    intros c k k' r r' -> Hne. apply part_at_update_other, Hne.
  - injection Hu as <-. discriminate Hl.
  - discriminate Hu.
Qed.

End FrameFacts.

(* ===================================================================== *)
(** * updateJsonAtPath on an array *)
(* ===================================================================== *)

Lemma element_set_same {A : Type} i (v : A) xs :
  element i (set_element i v xs) = Some v.
Proof.
  unfold element. revert xs; induction i as [|i IH]; intros [|x xs]; simpl;
    try reflexivity; apply IH.
Qed.

Lemma element_set_other {A : Type} i j (v : A) xs :
  i <> j -> element j (set_element i v xs) = element j xs.
Proof.
  unfold element. revert j xs.
  induction i as [|i IH]; intros [|j] [|x xs] Hne; simpl; try reflexivity;
    try contradiction.
  - destruct j; reflexivity.
  - rewrite IH by congruence. destruct j; reflexivity.
  - apply IH. congruence.
Qed.

Lemma length_set_element {A : Type} i (v : A) xs :
  List.length (set_element i v xs) = Nat.max (List.length xs) (S i).
Proof.
  revert xs; induction i as [|i IH]; intros [|x xs]; simpl; try reflexivity.
  - destruct (List.length xs); reflexivity.
  - rewrite IH. reflexivity.
  - rewrite IH. reflexivity.
Qed.

Section ArrayFacts.
Context {realm : Realm}.

Lemma array_set_throws k v xs e : array_set k v xs = Throw e -> e = RangeError.
Proof.
  unfold array_set. destruct (array_index k); [discriminate|].
  destruct (jsstring_eqb k LENGTH); [|discriminate].
  destruct (array_length_of (ToNumber v)); [discriminate|]. congruence.
Qed.

Lemma assign_entries_bad_length newValues v : forall xs,
  In (LENGTH, v) newValues ->
  array_length_of (StringToNumber v) = None ->
  assign_entries newValues (JArr xs) = Throw RangeError.
Proof.
  induction newValues as [|[k v0] rest IH]; simpl; intros xs Hin Hv.
  - contradiction.
  - destruct (array_set k (SStr v0) xs) as [xs'|e|] eqn:E; simpl.
    + destruct Hin as [Hin|Hin]; [|apply IH; assumption].
      injection Hin as -> ->. unfold array_set in E. simpl in E.
      rewrite Hv in E. discriminate E.
    + apply array_set_throws in E. rewrite E. reflexivity.
    + exfalso. revert E. apply array_set_modelled.
Qed.

(** X3.  On an array, an entry [length] whose value is not the text of
    an array length makes the assignment fail with a RangeError: the
    call returns the text it was given, and none of the other entries
    is written. *)
Theorem updateJsonAtPath_array_length_rejected :
  forall text doc path xs place newValues v,
    JSON_parse text = Some doc ->
    walk (Some doc) [] path = Normal (Some (JArr xs), place) ->
    In (LENGTH, v) newValues ->
    array_length_of (StringToNumber v) = None ->
    updateJsonAtPath text path newValues
    = Normal {| returned := text; logged := [RangeError] |}.
Proof.
  intros text doc path xs place newValues v Hp Hw Hin Hv.
  unfold updateJsonAtPath. rewrite (try_update_at _ _ _ _ _ _ Hp Hw).
  simpl. rewrite (assign_entries_bad_length _ v) by assumption.
  reflexivity.
Qed.

Lemma assign_entries_array newValues : forall xs,
  NoDup (map fst newValues) ->
  ~ In LENGTH (map fst newValues) ->
  exists xs',
    assign_entries newValues (JArr xs) = Normal (JArr xs')
    /\ (forall k v i, In (k, v) newValues -> array_index k = Some i ->
          element (N.to_nat i) xs' = Some (JStr v))
    /\ (forall j, (forall k, In k (map fst newValues) ->
                     array_index k <> Some (N.of_nat j)) ->
          element j xs' = element j xs)
    /\ List.length xs <= List.length xs'
    /\ ((forall k i, In k (map fst newValues) -> array_index k = Some i ->
           N.to_nat i < List.length xs) ->
        List.length xs' = List.length xs).
Proof.
  induction newValues as [|[k v] rest IH]; intros xs Hnd Hlen.
  - exists xs. simpl. repeat split; auto; contradiction.
  - inversion Hnd as [|? ? Hfresh Hnd']; subst. simpl in Hfresh, Hlen.
    assert (Hset : exists xs1,
               array_set k (SStr v) xs = Normal xs1
               /\ xs1 = match array_index k with
                        | Some i => set_element (N.to_nat i) (JStr v) xs
                        | None => xs
                        end).
    { unfold array_set. destruct (array_index k); [eexists; eauto|].
      destruct (jsstring_eqb k LENGTH) eqn:E; [|eexists; eauto].
      apply jsstring_eqb_eq in E. tauto. }
    destruct Hset as [xs1 [Hset Hxs1]].
    destruct (IH xs1 Hnd') as [xs' [Hrun [Hin [Hout [Hle Heq]]]]]; [tauto|].
    exists xs'. simpl. rewrite Hset. simpl. split; [exact Hrun|].
    assert (Hlen1 : List.length xs <= List.length xs1).
    { rewrite Hxs1. destruct (array_index k); [|apply le_n].
      rewrite length_set_element. apply Nat.le_max_l. }
    repeat split.
    + intros k' v' i [E|Hin'] Hi.
      * injection E as <- <-. rewrite Hout.
        -- rewrite Hxs1, Hi. apply element_set_same.
        -- intros k' Hk' Hi'. rewrite N2Nat.id in Hi'.
           apply Hfresh. rewrite (array_index_inj _ _ _ Hi Hi'). exact Hk'.
      * eapply Hin; eassumption.
    + intros j Hj. rewrite Hout by (intros k' Hk'; apply Hj; right; exact Hk').
      rewrite Hxs1. destruct (array_index k) as [i|] eqn:Ei; [|reflexivity].
      apply element_set_other. intros E. apply (Hj k); [left; reflexivity|].
      rewrite <- E, N2Nat.id. exact Ei.
    + eapply Nat.le_trans; eassumption.
    + intros Hin'.
      assert (E1 : List.length xs1 = List.length xs).
      { rewrite Hxs1. destruct (array_index k) as [i|] eqn:Ei; [|reflexivity].
        rewrite length_set_element. apply Nat.max_l.
        apply (Hin' k i); [left; reflexivity | exact Ei]. }
      rewrite <- E1. apply Heq. intros k' i Hk' Hi. rewrite E1.
      apply (Hin' k' i); [right; exact Hk' | exact Hi].
Qed.

(** X4.  On an array, the entries named by array indices are assigned
    to the elements: each such element holds the string of its entry,
    every index that no entry names holds what it held, and the array
    never gets shorter -- it keeps its length when the indices are
    within it.  Entries named otherwise, [length] apart, leave the
    elements as they are. *)
Theorem updateJsonAtPath_array_target :
  forall text doc path xs place newValues,
    JSON_parse text = Some doc ->
    walk (Some doc) [] path = Normal (Some (JArr xs), place) ->
    NoDup (map fst newValues) ->
    ~ In LENGTH (map fst newValues) ->
    exists xs',
      updateJsonAtPath text path newValues
      = Normal {| returned :=
                    JSON_stringify (update_at place (fun _ => JArr xs') doc);
                  logged := [] |}
      /\ (forall k v i, In (k, v) newValues -> array_index k = Some i ->
            element (N.to_nat i) xs' = Some (JStr v))
      /\ (forall j, (forall k, In k (map fst newValues) ->
                       array_index k <> Some (N.of_nat j)) ->
            element j xs' = element j xs)
      /\ List.length xs <= List.length xs'
      /\ ((forall k i, In k (map fst newValues) -> array_index k = Some i ->
             N.to_nat i < List.length xs) ->
          List.length xs' = List.length xs).
Proof.
  intros text doc path xs place newValues Hp Hw Hnd Hlen.
  destruct (assign_entries_array newValues xs Hnd Hlen) as [xs' [Hrun Hrest]].
  exists xs'. split; [|exact Hrest].
  unfold updateJsonAtPath. rewrite (try_update_at _ _ _ _ _ _ Hp Hw).
  simpl. rewrite Hrun. reflexivity.
Qed.

End ArrayFacts.

(* ===================================================================== *)
(** * updateJsonAtPath: the order of the keys *)
(* ===================================================================== *)

Lemma keys_set_entry ps k v :
  (has_own k ps = false -> array_index k = None /\ k <> PROTO) ->
  keys (set_entry ps (k, v))
  = keys ps ++ (if has_own k ps then [] else [k]).
Proof.
  intros Hk. unfold set_entry. rewrite ordinary_set_string. simpl.
  unfold define_property. destruct (has_own k ps) eqn:E; simpl.
  - rewrite keys_replace, app_nil_r. reflexivity.
  - destruct Hk as [Hi Hp]; [reflexivity|].
    apply jsstring_eqb_neq in Hp. rewrite Hp, Hi.
    unfold keys. rewrite map_app. reflexivity.
Qed.

Lemma has_own_set_entry_other ps entry k :
  k <> fst entry -> has_own k (set_entry ps entry) = has_own k ps.
Proof.
  intros Hne. unfold has_own. rewrite set_entry_other by exact Hne.
  reflexivity.
Qed.

Lemma keys_fold_set_entry newValues : forall ps,
  NoDup (map fst newValues) ->
  (forall k, In k (map fst newValues) -> has_own k ps = false ->
             array_index k = None /\ k <> PROTO) ->
  keys (fold_left set_entry newValues ps)
  = keys ps ++ filter (fun k => negb (has_own k ps)) (map fst newValues).
Proof.
  induction newValues as [|[k v] rest IH]; simpl; intros ps Hnd Hk.
  - rewrite app_nil_r. reflexivity.
  - inversion Hnd as [|? ? Hfresh Hnd']; subst.
    assert (Hother : forall k', In k' (map fst rest) ->
              has_own k' (set_entry ps (k, v)) = has_own k' ps).
    { intros k' Hin. apply has_own_set_entry_other. simpl. intros ->. tauto. }
    rewrite IH; [|exact Hnd'|].
    + rewrite keys_set_entry by (apply Hk; left; reflexivity).
      rewrite <- app_assoc. f_equal.
      rewrite (filter_ext_in (fun k0 => negb (has_own k0 (set_entry ps (k, v))))
                 (fun k0 => negb (has_own k0 ps)))
        by (intros k' Hin; rewrite Hother by exact Hin; reflexivity).
      destruct (has_own k ps); reflexivity.
    + intros k' Hin Hown. rewrite Hother in Hown by exact Hin.
      apply Hk; [right; exact Hin | exact Hown].
Qed.

Section OrderOfKeys.
Context {realm : Realm}.

(** X5.  On an object, the assignments keep the keys in place: the keys
    of the object come first, in the order they had, and after them the
    keys that are new, in the order of the entries -- for new keys that
    are neither array indices nor [__proto__]. *)
Theorem updateJsonAtPath_key_order :
  forall text doc path ps place newValues,
    JSON_parse text = Some doc ->
    walk (Some doc) [] path = Normal (Some (JObj ps), place) ->
    NoDup (map fst newValues) ->
    (forall k, In k (map fst newValues) -> has_own k ps = false ->
               array_index k = None /\ k <> PROTO) ->
    exists ps',
      updateJsonAtPath text path newValues
      = Normal {| returned :=
                    JSON_stringify (update_at place (fun _ => JObj ps') doc);
                  logged := [] |}
      /\ keys ps'
         = keys ps ++ filter (fun k => negb (has_own k ps)) (map fst newValues).
Proof.
  intros text doc path ps place newValues Hp Hw Hnd Hk.
  exists (fold_left set_entry newValues ps). split.
  - unfold updateJsonAtPath. rewrite (try_update_at _ _ _ _ _ _ Hp Hw).
    simpl. rewrite assign_entries_object. reflexivity.
  - apply keys_fold_set_entry; assumption.
Qed.

End OrderOfKeys.

(* ===================================================================== *)
(** * updateJsonAtPath: the errors it catches *)
(* ===================================================================== *)

Section ErrorFacts.
Context {realm : Realm}.

Lemma walk_app p q : forall current place,
  walk current place (p ++ q)
  = do (reached, place') <- walk current place p; walk reached place' q.
Proof.
  induction p as [|seg p IH]; simpl; intros current place; [reflexivity|].
  destruct (get current (property_key seg)); simpl; auto.
Qed.

Lemma get_throws current k e : get current k = Throw e -> e = TypeError.
Proof.
  assert (Hp : forall kd, from_prototype kd k = Throw e -> e = TypeError).
  { intros kd. unfold from_prototype.
    destruct (jsstring_eqb k PROTO || inherited kd k)%bool; discriminate. }
  destruct current as [[| | | |xs|ps]|]; simpl; try congruence;
    try apply Hp.
  - destruct (canonical_index k).
    + destruct (nth_error s (N.to_nat n)); [discriminate | apply Hp].
    + destruct (jsstring_eqb k LENGTH); [discriminate | apply Hp].
  - destruct (array_index k).
    + destruct (element (N.to_nat n) xs); [discriminate | apply Hp].
    + destruct (jsstring_eqb k LENGTH); [discriminate | apply Hp].
  - destruct (own_property k ps); [discriminate | apply Hp].
Qed.

Lemma walk_throws path : forall current place e,
  walk current place path = Throw e -> e = TypeError.
Proof.
  induction path as [|seg path IH]; simpl; intros current place e H.
  - discriminate.
  - destruct (get current (property_key seg)) as [next| |] eqn:G;
      simpl in H; try discriminate.
    + eapply IH, H.
    + injection H as <-. eapply get_throws, G.
Qed.

Lemma assign_entries_throws newValues : forall current e,
  assign_entries newValues current = Throw e ->
  e = RangeError
  /\ exists xs v,
       current = JArr xs /\ In (LENGTH, v) newValues
       /\ array_length_of (StringToNumber v) = None.
Proof.
  induction newValues as [|[k v] rest IH]; simpl; intros current e H.
  - discriminate.
  - destruct current as [| | | |xs|ps]; simpl in H;
      try (destruct (IH _ _ H) as [_ [xs' [v' [E _]]]]; discriminate E).
    unfold array_set in H.
    destruct (array_index k) as [i|]; simpl in H.
    + destruct (IH _ _ H) as [He [xs' [v' [_ [Hin Hv]]]]].
      split; [exact He|]. exists xs, v'. auto.
    + destruct (jsstring_eqb k LENGTH) eqn:Ek; simpl in H.
      * apply jsstring_eqb_eq in Ek. subst k.
        destruct (array_length_of (StringToNumber v)) as [n|] eqn:Ev;
          simpl in H.
        -- destruct (IH _ _ H) as [He [xs' [v' [_ [Hin Hv]]]]].
           split; [exact He|]. exists xs, v'. auto.
        -- injection H as <-. split; [reflexivity|]. exists xs, v. auto.
      * destruct (IH _ _ H) as [He [xs' [v' [_ [Hin Hv]]]]].
        split; [exact He|]. exists xs, v'. auto.
Qed.

(** X6.  A path that goes on past a value that is missing or null
    fails: the call returns the text it was given and logs a
    TypeError. *)
Theorem updateJsonAtPath_past_missing :
  forall text doc p seg rest target place newValues,
    JSON_parse text = Some doc ->
    walk (Some doc) [] p = Normal (target, place) ->
    target = None \/ target = Some JNull ->
    updateJsonAtPath text (p ++ seg :: rest) newValues
    = Normal {| returned := text; logged := [TypeError] |}.
Proof.
  intros text doc p seg rest target place newValues Hp Hw Ht.
  unfold updateJsonAtPath, try_update. rewrite Hp, walk_app, Hw. simpl.
  destruct Ht as [-> | ->]; reflexivity.
Qed.

Lemma try_update_modelled text path newValues :
  (forall seg kd, In seg path -> plain_key kd (property_key seg) = true) ->
  try_update text path newValues <> Unmodelled.
Proof.
  intros Hk E. unfold try_update in E.
  destruct (JSON_parse text) as [obj|]; [|discriminate].
  destruct (walk (Some obj) [] path) as [[current place]| |] eqn:W;
    simpl in E; try discriminate.
  - destruct current as [target|]; [|discriminate].
    destruct (jsstring_eqb (typeof (Some target)) (str "object")
              && negb (is_null (Some target)))%bool; [|discriminate].
    destruct (assign_entries newValues target) as [t'| |] eqn:A;
      simpl in E; try discriminate.
    revert A. apply assign_entries_modelled.
  - revert W. apply walk_modelled. exact Hk.
Qed.

(** X7.  The errors a call catches, for a path that names no built-in
    property: the call returns, and whenever something is logged, it is
    one error and the text is returned as it was given; the error is a
    SyntaxError of a text that is not valid JSON, a TypeError of the
    walk, or the RangeError of an entry [length], not the text of an
    array length, assigned to an array. *)
Theorem updateJsonAtPath_errors :
  forall text path newValues,
    (forall seg kd, In seg path -> plain_key kd (property_key seg) = true) ->
    exists out,
      updateJsonAtPath text path newValues = Normal out
      /\ forall e, In e (logged out) ->
           returned out = text /\ logged out = [e]
           /\ ((e = SyntaxError /\ JSON_parse text = None)
               \/ exists doc,
                    JSON_parse text = Some doc
                    /\ ((e = TypeError
                         /\ walk (Some doc) [] path = Throw TypeError)
                        \/ (e = RangeError
                            /\ exists xs place v,
                                 walk (Some doc) [] path
                                 = Normal (Some (JArr xs), place)
                                 /\ In (LENGTH, v) newValues
                                 /\ array_length_of (StringToNumber v)
                                    = None))).
Proof.
  intros text path newValues Hk.
  pose proof (try_update_modelled text path newValues Hk) as Hm.
  unfold updateJsonAtPath.
  destruct (try_update text path newValues) as [s|e'|] eqn:E;
    [| |contradiction]; (eexists; split; [reflexivity|]); simpl;
    intros e He; [contradiction|].
  destruct He as [->|[]]. split; [reflexivity|]. split; [reflexivity|].
  unfold try_update in E.
  destruct (JSON_parse text) as [doc|]; [|injection E as <-; auto].
  right. exists doc. split; [reflexivity|].
  destruct (walk (Some doc) [] path) as [[current place]| |] eqn:W;
    simpl in E; try discriminate.
  - destruct current as [target|]; [|discriminate].
    destruct (jsstring_eqb (typeof (Some target)) (str "object")
              && negb (is_null (Some target)))%bool; [|discriminate].
    destruct (assign_entries newValues target) as [t'| |] eqn:A;
      simpl in E; try discriminate.
    injection E as <-.
    destruct (assign_entries_throws _ _ _ A) as [-> [xs [v [-> [Hin Hv]]]]].
    right. split; [reflexivity|]. exists xs, place, v. auto.
  - injection E as <-. left.
    rewrite (walk_throws _ _ _ _ W). auto.
Qed.

End ErrorFacts.

(* ===================================================================== *)
(** * updateJsonAtPath: the same update twice *)
(* ===================================================================== *)

Lemma replace_property_same {V : Type} k (v : V) ps :
  own_property k ps = Some v -> replace_property k v ps = ps.
Proof.
  induction ps as [|[k' v'] ps IH]; simpl; [reflexivity|].
  destruct (jsstring_eqb k k'); intros H.
  - injection H as ->. reflexivity.
  - rewrite IH by exact H. reflexivity.
Qed.

Lemma set_entry_settled ps k v :
  own_property k ps = Some (JStr v) -> set_entry ps (k, v) = ps.
Proof.
  intros H. unfold set_entry, ordinary_set, has_own. simpl. rewrite H. simpl.
  apply replace_property_same, H.
Qed.

Lemma set_entry_ignored ps v :
  has_own PROTO ps = false -> set_entry ps (PROTO, v) = ps.
Proof.
  intros H. unfold set_entry. rewrite ordinary_set_string. simpl.
  rewrite H. reflexivity.
Qed.

Lemma fold_set_entry_has_proto newValues : forall ps,
  has_own PROTO (fold_left set_entry newValues ps) = has_own PROTO ps.
Proof.
  induction newValues as [|entry rest IH]; simpl; intros ps; [reflexivity|].
  rewrite IH. apply set_entry_has_proto.
Qed.

Lemma fold_set_entry_fixed newValues : forall ps,
  (forall entry, In entry newValues -> set_entry ps entry = ps) ->
  fold_left set_entry newValues ps = ps.
Proof.
  induction newValues as [|entry rest IH]; simpl; intros ps H; [reflexivity|].
  rewrite (H entry) by (left; reflexivity). apply IH. auto.
Qed.

Lemma fold_set_entry_twice newValues ps :
  NoDup (map fst newValues) ->
  fold_left set_entry newValues (fold_left set_entry newValues ps)
  = fold_left set_entry newValues ps.
Proof.
  intros Hnd. apply fold_set_entry_fixed. intros [k v] Hin.
  destruct (jsstring_eqb k PROTO && negb (has_own PROTO ps))%bool eqn:E.
  - apply andb_true_iff in E. destruct E as [E1 E2].
    apply jsstring_eqb_eq in E1. subst k. apply set_entry_ignored.
    rewrite fold_set_entry_has_proto. apply negb_true_iff, E2.
  - apply set_entry_settled, fold_set_entry_same; [exact Hnd | exact Hin |].
    apply andb_false_iff in E. destruct E as [E|E].
    + left. apply jsstring_eqb_neq, E.
    + right. apply negb_false_iff, E.
Qed.

(** The parts of a document are documents. *)
Lemma keys_update_property k f ps :
  keys (update_property k f ps) = keys ps.
Proof.
  induction ps as [|[k' v] ps IH]; simpl; [reflexivity|].
  destruct (jsstring_eqb k k'); simpl; congruence.
Qed.

Lemma Forall_update_property (P : jsval -> Prop) k f ps :
  (forall v, own_property k ps = Some v -> P v -> P (f v)) ->
  Forall (fun p => P (snd p)) ps ->
  Forall (fun p => P (snd p)) (update_property k f ps).
Proof.
  intros Hf H. induction H as [|[k' v] ps Hv H IH]; simpl; [constructor|].
  destruct (jsstring_eqb k k') eqn:E; constructor; auto.
  - apply Hf; [simpl; rewrite E; reflexivity | exact Hv].
  - apply IH. intros v0 H0. apply Hf. simpl. rewrite E. exact H0.
Qed.

Lemma Forall_update_element (P : jsval -> Prop) i f xs :
  (forall v, element i xs = Some v -> P v -> P (f v)) ->
  Forall (present P) xs -> Forall (present P) (update_element i f xs).
Proof.
  intros Hf H. revert i Hf.
  induction H as [|x xs Hx H IH]; intros [|i] Hf; simpl;
    try (constructor; fail).
  - constructor; [|exact H]. destruct Hx as [v Hv]. simpl. constructor.
    apply Hf; [reflexivity | exact Hv].
  - constructor; [exact Hx|]. apply IH. intros v Hv. apply Hf. exact Hv.
Qed.

Lemma own_property_Forall {V : Type} (P : V -> Prop) k ps v :
  Forall (fun p => P (snd p)) ps -> own_property k ps = Some v -> P v.
Proof.
  induction 1 as [|[k' v'] ps Hv H IH]; simpl; [discriminate|].
  destruct (jsstring_eqb k k'); [|exact IH].
  intros E. injection E as <-. exact Hv.
Qed.

Lemma element_Forall {A : Type} (P : A -> Prop) i xs v :
  Forall (present P) xs -> element i xs = Some v -> P v.
Proof.
  unfold element. intros H. revert i.
  induction H as [|x xs Hx H IH]; intros [|i]; simpl; try discriminate.
  - destruct Hx as [a Ha]. intros E. injection E as <-. exact Ha.
  - apply IH.
Qed.

Lemma part_at_document place : forall doc t,
  document doc -> part_at place doc = Some t -> document t.
Proof.
  induction place as [|k place IH]; simpl; intros doc t Hd H.
  - congruence.
  - destruct Hd as [| | | |xs Hxs|ps Ho Hps]; try discriminate.
    + destruct (array_index k); [|discriminate].
      destruct (element (N.to_nat n) xs) as [x|] eqn:E; [|discriminate].
      apply (IH x t); [|exact H]. eapply element_Forall; eassumption.
    + destruct (own_property k ps) as [x|] eqn:E; [|discriminate].
      apply (IH x t); [|exact H].
      apply (own_property_Forall document k ps x Hps E).
Qed.

Lemma update_at_document place t' : forall doc,
  document doc -> document t' ->
  document (update_at place (fun _ => t') doc).
Proof.
  induction place as [|k place IH]; simpl; intros doc Hd Ht; [exact Ht|].
  destruct Hd as [| | | |xs Hxs|ps Ho Hps]; try constructor.
  - destruct (array_index k); constructor; [|exact Hxs].
    apply Forall_update_element; [|exact Hxs]. intros v _ Hv. apply IH; auto.
  - rewrite keys_update_property. exact Ho.
  - apply (Forall_update_property document); [|exact Hps].
    intros v _ Hv. apply IH; auto.
Qed.

Lemma readable_own k ps v :
  forallb (fun p => numbers_read_back (snd p)) ps = true ->
  own_property k ps = Some v -> numbers_read_back v = true.
Proof.
  induction ps as [|[k' v'] ps IH]; simpl; [discriminate|].
  intros H. apply andb_true_iff in H. destruct H as [H1 H2].
  destruct (jsstring_eqb k k'); [congruence | auto].
Qed.

Lemma readable_update_property k f ps :
  (forall v, numbers_read_back v = true -> numbers_read_back (f v) = true) ->
  forallb (fun p => numbers_read_back (snd p)) ps = true ->
  forallb (fun p => numbers_read_back (snd p)) (update_property k f ps) = true.
Proof.
  intros Hf. induction ps as [|[k' v'] ps IH]; simpl; [reflexivity|].
  intros H. apply andb_true_iff in H. destruct H as [H1 H2].
  destruct (jsstring_eqb k k'); simpl; apply andb_true_iff; auto.
Qed.

Lemma readable_update_element i f xs :
  (forall v, numbers_read_back v = true -> numbers_read_back (f v) = true) ->
  forallb readable_element xs = true ->
  forallb readable_element (update_element i f xs) = true.
Proof.
  intros Hf. revert i. induction xs as [|x xs IH]; intros [|i]; simpl;
    try reflexivity; intros H; apply andb_true_iff in H;
    destruct H as [H1 H2]; apply andb_true_iff; split; auto.
  destruct x; simpl in *; auto.
Qed.

Lemma update_at_readable place t' : forall doc,
  numbers_read_back doc = true -> numbers_read_back t' = true ->
  numbers_read_back (update_at place (fun _ => t') doc) = true.
Proof.
  induction place as [|k place IH]; simpl; intros doc Hd Ht; [exact Ht|].
  destruct doc as [| | | |xs|ps]; try exact Hd.
  - destruct (array_index k); [|exact Hd]. simpl in *.
    apply (readable_update_element _ _ _ (fun v Hv => IH v Hv Ht) Hd).
  - simpl in *.
    apply (readable_update_property _ _ _ (fun v Hv => IH v Hv Ht) Hd).
Qed.

Lemma set_entry_document ps entry :
  ordered_keys (keys ps) -> Forall (fun p => document (snd p)) ps ->
  ordered_keys (keys (set_entry ps entry))
  /\ Forall (fun p => document (snd p)) (set_entry ps entry).
Proof.
  intros Ho Hps. unfold set_entry. rewrite ordinary_set_string. simpl.
  destruct (negb (has_own (fst entry) ps)
            && jsstring_eqb (fst entry) PROTO)%bool; [auto|].
  split; [apply define_ordered, Ho|].
  apply (Forall_define document); [constructor | exact Hps].
Qed.

Lemma set_entry_readable ps entry :
  forallb (fun p => numbers_read_back (snd p)) ps = true ->
  forallb (fun p => numbers_read_back (snd p)) (set_entry ps entry) = true.
Proof.
  intros H. unfold set_entry. rewrite ordinary_set_string. simpl.
  destruct (negb (has_own (fst entry) ps)
            && jsstring_eqb (fst entry) PROTO)%bool; [exact H|].
  apply forallb_forall. intros p Hp.
  assert (Hall : Forall (fun p => numbers_read_back (snd p) = true)
                   (define_property (fst entry) (JStr (snd entry)) ps)).
  { apply (Forall_define (fun v => numbers_read_back v = true));
      [reflexivity|].
    apply Forall_forall. intros q Hq.
    apply (proj1 (forallb_forall _ _) H q Hq). }
  rewrite Forall_forall in Hall. apply Hall, Hp.
Qed.

Lemma fold_set_entry_document newValues : forall ps,
  document (JObj ps) -> numbers_read_back (JObj ps) = true ->
  document (JObj (fold_left set_entry newValues ps))
  /\ numbers_read_back (JObj (fold_left set_entry newValues ps)) = true.
Proof.
  induction newValues as [|entry rest IH]; simpl; intros ps Hd Hr; [auto|].
  apply IH.
  - inversion Hd as [| | | | |? Ho Hps]; subst.
    destruct (set_entry_document ps entry Ho Hps). constructor; assumption.
  - apply set_entry_readable, Hr.
Qed.

Lemma part_at_readable place : forall doc t,
  numbers_read_back doc = true -> part_at place doc = Some t ->
  numbers_read_back t = true.
Proof.
  induction place as [|k place IH]; simpl; intros doc t Hd H.
  - congruence.
  - destruct doc as [| | | |xs|ps]; try discriminate.
    + destruct (array_index k); [|discriminate].
      destruct (element (N.to_nat n) xs) as [x|] eqn:E; [|discriminate].
      apply (IH x t); [|exact H]. simpl in Hd.
      unfold element in E.
      destruct (nth_error xs (N.to_nat n)) as [[y|]|] eqn:En;
        try discriminate.
      injection E as ->. apply nth_error_In in En.
      apply (proj1 (forallb_forall _ _) Hd _ En).
    + destruct (own_property k ps) as [x|] eqn:E; [|discriminate].
      apply (IH x t); [|exact H]. eapply readable_own; eassumption.
Qed.

Section TwiceFacts.
Context {realm : Realm}.

Lemma walk_keys_followed path : forall current place target place',
  walk current place path = Normal (target, place') ->
  place' = place ++ map property_key path.
Proof.
  induction path as [|seg path IH]; simpl; intros current place target place' H.
  - injection H as _ <-. rewrite app_nil_r. reflexivity.
  - destruct (get current (property_key seg)) as [next| |]; simpl in H;
      try discriminate.
    rewrite (IH _ _ _ _ H), <- app_assoc. reflexivity.
Qed.

Lemma walk_from_container path : forall current place target place',
  walk current place path = Normal (target, place') ->
  is_container target = true -> is_container current = true.
Proof.
  induction path as [|seg path IH]; simpl; intros current place target place'.
  - intros H. injection H as <- _. auto.
  - intros H Hc.
    destruct (get current (property_key seg)) as [next| |] eqn:G;
      simpl in H; try discriminate.
    pose proof (IH _ _ _ _ H Hc) as Hn.
    destruct (get_part _ _ _ G Hn) as [holder [-> Hpart]].
    destruct holder; simpl in Hpart; try reflexivity;
      rewrite <- Hpart in Hn; discriminate.
Qed.

(** The walk in the updated document follows the same keys, to the
    updated target. *)
Lemma walk_update f path : forall current place target place',
  walk (Some current) place path = Normal (Some target, place') ->
  is_container (Some target) = true ->
  walk (Some (update_at (map property_key path) f current)) place path
  = Normal (Some (f target), place').
Proof.
  induction path as [|seg path IH]; intros current place target place';
    cbn [walk map].
  - intros H _. injection H as <- <-. reflexivity.
  - intros H Hc.
    destruct (get (Some current) (property_key seg)) as [next| |] eqn:G;
      cbn [bind] in H; try discriminate.
    pose proof (walk_from_container _ _ _ _ _ H Hc) as Hn.
    destruct (get_part _ _ _ G Hn) as [holder [E Hpart]].
    injection E as <-.
    destruct next as [nx|]; [|discriminate].
    destruct current as [| | | |xs|ps]; cbn [part_at] in Hpart;
      try discriminate.
    + destruct (array_index (property_key seg)) as [i|] eqn:Ei;
        [|discriminate].
      cbn [update_at]. rewrite Ei. cbn [get].
      rewrite Ei, element_update_element.
      destruct (element (N.to_nat i) xs) as [x|]; [|discriminate].
      injection Hpart as ->. cbn [option_map bind]. apply IH; assumption.
    + cbn [update_at get]. rewrite own_update_property.
      destruct (own_property (property_key seg) ps) as [x|]; [|discriminate].
      injection Hpart as ->. cbn [option_map bind]. apply IH; assumption.
Qed.

(** X8.  The same update twice is the update once: when the walk
    reaches an object of a document whose numbers are the ones their
    texts are read as, the text a call returns is returned again by
    the same call on that text. *)
Theorem updateJsonAtPath_twice :
  forall text doc path ps place newValues out,
    JSON_parse text = Some doc ->
    walk (Some doc) [] path = Normal (Some (JObj ps), place) ->
    NoDup (map fst newValues) ->
    numbers_read_back doc = true ->
    updateJsonAtPath text path newValues = Normal out ->
    updateJsonAtPath (returned out) path newValues = Normal out.
Proof.
  intros text doc path ps place newValues out Hp Hw Hnd Hr Hu.
  assert (Hplace : place = map property_key path)
    by (apply (walk_keys_followed _ _ _ _ _ Hw)).
  assert (Hpart : part_at place doc = Some (JObj ps))
    by (apply (walk_from_root _ _ _ _ Hw); reflexivity).
  set (ps1 := fold_left set_entry newValues ps).
  set (doc1 := update_at place (fun _ => JObj ps1) doc).
  assert (Hout : out = {| returned := JSON_stringify doc1; logged := [] |}).
  { unfold updateJsonAtPath in Hu.
    rewrite (try_update_at _ _ _ _ _ _ Hp Hw) in Hu. simpl in Hu.
    rewrite assign_entries_object in Hu. simpl in Hu.
    injection Hu as <-. reflexivity. }
  pose proof (JSON_parse_document _ _ Hp) as Hd.
  destruct (fold_set_entry_document newValues ps) as [Hd1 Hr1].
  { eapply part_at_document; eassumption. }
  { eapply part_at_readable; eassumption. }
  assert (Hp1 : JSON_parse (JSON_stringify doc1) = Some doc1).
  { apply JSON_parse_stringify.
    - apply update_at_document; assumption.
    - apply update_at_readable; assumption. }
  assert (Hw1 : walk (Some doc1) [] path = Normal (Some (JObj ps1), place)).
  { unfold doc1. rewrite Hplace.
    rewrite (walk_update (fun _ => JObj ps1) path doc [] (JObj ps) place);
      [rewrite Hplace; reflexivity | exact Hw | reflexivity]. }
  rewrite Hout. simpl returned. unfold updateJsonAtPath.
  rewrite (try_update_at _ _ _ _ _ _ Hp1 Hw1). simpl.
  rewrite assign_entries_object. simpl.
  fold ps1. unfold ps1 at 1. rewrite fold_set_entry_twice by exact Hnd.
  fold ps1. rewrite update_at_fixed; [reflexivity|].
  unfold doc1. apply (part_at_update place (fun _ => JObj ps1) doc (JObj ps)).
  exact Hpart.
Qed.

End TwiceFacts.

(* ===================================================================== *)
(** * jsonPathToString: a path and its text *)
(* ===================================================================== *)

Lemma jsonPathToString_concat (path : option (list segment)) :
  jsonPathToString path
  = str "$" ++ List.concat
                 (map (fun seg => bracketed (ToString (quote_segment seg)))
                    (segments path)).
Proof.
  destruct path as [[|seg p]|]; try reflexivity.
  unfold jsonPathToString, segments.
  change (str "$[") with (str "$" ++ str "[").
  rewrite <- app_assoc. f_equal.
  change (map ToString (map quote_segment (seg :: p)))
    with (ToString (quote_segment seg) :: map ToString (map quote_segment p)).
  rewrite join_brackets.
  change (ToString (quote_segment seg) :: map ToString (map quote_segment p))
    with (map ToString (map quote_segment (seg :: p))).
  rewrite !map_map. reflexivity.
Qed.

(** X9.  The text of a path that is one segment longer is the text of
    the path followed by that segment between brackets. *)
Theorem jsonPathToString_extends :
  forall (p : list segment) (seg : segment),
    jsonPathToString (Some (p ++ [seg]))
    = jsonPathToString (Some p) ++ bracketed (ToString (quote_segment seg)).
Proof.
  intros p seg. rewrite !jsonPathToString_concat. simpl segments.
  rewrite map_app, concat_app, app_assoc. f_equal.
  change (bracketed (ToString (quote_segment seg)) ++ []
          = bracketed (ToString (quote_segment seg))).
  apply app_nil_r.
Qed.

(** The characters of the text of a number: no double quote and no
    closing bracket among them. *)
Lemma uint_digits_chars u :
  Forall (fun c => c <> QUOTE /\ c <> 93%N) (uint_digits u).
Proof.
  induction u; simpl; constructor; auto; split; discriminate.
Qed.

Lemma zeros_chars n : Forall (fun c => c <> QUOTE /\ c <> 93%N) (zeros n).
Proof.
  unfold zeros. apply Forall_forall. intros c Hc.
  apply repeat_spec in Hc. subst c. split; discriminate.
Qed.

Lemma firstn_chars {A : Type} (P : A -> Prop) n l :
  Forall P l -> Forall P (firstn n l).
Proof.
  intros H. rewrite <- (firstn_skipn n l) in H. apply Forall_app in H. tauto.
Qed.

Lemma skipn_chars {A : Type} (P : A -> Prop) n l :
  Forall P l -> Forall P (skipn n l).
Proof.
  intros H. rewrite <- (firstn_skipn n l) in H. apply Forall_app in H. tauto.
Qed.

Lemma format_decimal_chars s n :
  Forall (fun c => c <> QUOTE /\ c <> 93%N) (format_decimal s n).
Proof.
  assert (Hd : forall z, Forall (fun c => c <> QUOTE /\ c <> 93%N)
                           (decimal_digits z))
    by (intros z; apply uint_digits_chars).
  assert (Hs : forall t : string,
            forallb (fun c => negb (N.eqb c 34) && negb (N.eqb c 93))%bool
              (str t) = true ->
            Forall (fun c => c <> QUOTE /\ c <> 93%N) (str t)).
  { intros t Ht. apply Forall_forall. intros c Hc.
    rewrite forallb_forall in Ht. specialize (Ht c Hc).
    apply andb_true_iff in Ht. destruct Ht as [H1 H2].
    apply negb_true_iff, N.eqb_neq in H1, H2. auto. }
  unfold format_decimal.
  repeat match goal with
         | |- Forall _ (if ?b then _ else _) => destruct b
         | |- Forall _ (_ ++ _) => apply Forall_app; split
         | |- Forall _ (firstn _ _) => apply firstn_chars
         | |- Forall _ (skipn _ _) => apply skipn_chars
         | |- Forall _ (decimal_digits _) => apply Hd
         | |- Forall _ (zeros _) => apply zeros_chars
         | |- Forall _ (str _) => apply Hs; reflexivity
         end.
Qed.

Lemma Number_toString_chars n :
  Forall (fun c => c <> QUOTE /\ c <> 93%N) (Number_toString n).
Proof.
  assert (Hs : forall t : jsstring,
            forallb (fun c => negb (N.eqb c 34) && negb (N.eqb c 93))%bool t
            = true ->
            Forall (fun c => c <> QUOTE /\ c <> 93%N) t).
  { intros t Ht. apply Forall_forall. intros c Hc.
    rewrite forallb_forall in Ht. specialize (Ht c Hc).
    apply andb_true_iff in Ht. destruct Ht as [H1 H2].
    apply negb_true_iff, N.eqb_neq in H1, H2. auto. }
  destruct n as [|neg|neg m e]; simpl.
  - apply Hs. reflexivity.
  - destruct neg; apply Hs; reflexivity.
  - destruct m as [|p]; [apply Hs; reflexivity|].
    destruct (shortest_decimal (N.pos p) e) as [s k].
    apply Forall_app. split; [destruct neg; apply Hs; reflexivity|].
    apply format_decimal_chars.
Qed.

(** A text is cut in one way at the first occurrence of a character. *)
Lemma cut_at_first {A : Type} (c : A) : forall a b x y,
  ~ In c a -> ~ In c b -> a ++ c :: x = b ++ c :: y -> a = b /\ x = y.
Proof.
  induction a as [|a0 a IH]; intros [|b0 b] x y Ha Hb E; simpl in *.
  - injection E as <-. auto.
  - injection E as <- _. tauto.
  - injection E as -> _. tauto.
  - injection E as <- E. destruct (IH b x y) as [-> ->]; auto.
Qed.

Lemma segment_texts_inj : forall p q,
  Forall quote_free p -> Forall quote_free q ->
  List.concat (map (fun seg => bracketed (ToString (quote_segment seg))) p)
  = List.concat (map (fun seg => bracketed (ToString (quote_segment seg))) q)
  -> map property_key p = map property_key q.
Proof.
  induction p as [|seg p IH]; intros [|seg' q] Hp Hq E.
  - reflexivity.
  - discriminate E.
  - discriminate E.
  - inversion Hp as [|? ? Hs Hp']; inversion Hq as [|? ? Hs' Hq']; subst.
    simpl in E. unfold bracketed in E. rewrite <- !app_assoc in E.
    simpl in E. injection E as E.
    pose proof (fun n => proj1 (Forall_forall _ _) (Number_toString_chars n))
      as Hn.
    destruct seg as [s|n]; destruct seg' as [s'|n']; simpl in *.
    + injection E as E. rewrite <- !app_assoc in E. simpl in E.
      destruct (cut_at_first QUOTE s s' _ _ Hs Hs' E) as [-> E'].
      injection E' as E'. f_equal. apply IH; assumption.
    + exfalso. destruct (Number_toString n') as [|c t] eqn:En.
      * discriminate E.
      * injection E as E _.
        destruct (Hn n' c) as [Hc _]; [rewrite En; left; reflexivity|].
        apply Hc. congruence.
    + exfalso. destruct (Number_toString n) as [|c t] eqn:En.
      * discriminate E.
      * injection E as E _.
        destruct (Hn n c) as [Hc _]; [rewrite En; left; reflexivity|].
        apply Hc. congruence.
    + destruct (cut_at_first 93%N (Number_toString n) (Number_toString n')
                  _ _ (fun H => proj2 (Hn n _ H) eq_refl)
                  (fun H => proj2 (Hn n' _ H) eq_refl) E) as [-> E'].
      f_equal. apply IH; assumption.
Qed.

Section PathFacts.
Context {realm : Realm}.

Lemma walk_keys : forall p q current place,
  map property_key p = map property_key q ->
  walk current place p = walk current place q.
Proof.
  induction p as [|seg p IH]; intros [|seg' q] current place E;
    try discriminate; [reflexivity|].
  simpl in E. injection E as E1 E2. simpl. rewrite E1.
  destruct (get current (property_key seg')); simpl; auto.
Qed.

(** X10.  The text of a path tells where the path leads: two paths
    whose string segments hold no double quote and whose texts are the
    same name the same keys, one after the other, so that an update
    along one is the update along the other. *)
Theorem jsonPathToString_names_place :
  forall p q : option (list segment),
    Forall quote_free (segments p) ->
    Forall quote_free (segments q) ->
    jsonPathToString p = jsonPathToString q ->
    map property_key (segments p) = map property_key (segments q)
    /\ forall text newValues,
         updateJsonAtPath text (segments p) newValues
         = updateJsonAtPath text (segments q) newValues.
Proof.
  intros p q Hp Hq E. rewrite !jsonPathToString_concat in E.
  apply app_inv_head in E.
  pose proof (segment_texts_inj _ _ Hp Hq E) as Hk.
  split; [exact Hk|].
  intros text newValues. unfold updateJsonAtPath, try_update.
  destruct (JSON_parse text) as [obj|]; [|reflexivity].
  rewrite (walk_keys _ _ _ _ Hk). reflexivity.
Qed.

End PathFacts.

(* ===================================================================== *)
(** * normalizeNodeData: the object it writes *)
(* ===================================================================== *)

Lemma truthy_some (k : jsstring) : truthy (Some k) = negb (is_nil k).
Proof. destruct k; reflexivity. Qed.

Lemma own_property_In {V : Type} k (v : V) ps :
  own_property k ps = Some v -> In (k, v) ps.
Proof.
  induction ps as [|[k' v'] ps IH]; simpl; [discriminate|].
  destruct (jsstring_eqb k k') eqn:E.
  - apply jsstring_eqb_eq in E. intros H. injection H as ->. subst. auto.
  - auto.
Qed.

Section ObjectFacts.
Context {realm : Realm} {R : Type}.
Implicit Types (row : NodeRow R) (obj : parent * properties cell).

(** The text of the function, unfolded on a sequence that has a first
    row. *)
Lemma normalizeNodeData_rows (first : NodeRow R) others :
  normalizeNodeData (Some (first :: others))
  = if (is_nil others && negb (truthy (key first)))%bool
    then Normal (cell_text (value first))
    else do obj <- collect_rows (first :: others) (ParentObject, []);
         stringify_cells (snd obj).
Proof. reflexivity. Qed.

(** An assignment of a JSON scalar to the object: the key is defined,
    or the key is [__proto__] and the own properties are as they
    were; the prototype stays an ordinary one. *)
Lemma cell_set_held k v obj :
  (forall name, fst obj <> ParentMethod name) ->
  exists p',
    (forall name, p' <> ParentMethod name)
    /\ (cell_set k (Held v) obj
        = Normal (p', define_property k (Held v) (snd obj))
        \/ (cell_set k (Held v) obj = Normal (p', snd obj) /\ k = PROTO)).
Proof.
  destruct obj as [p ps]. cbn [fst snd]. intros Hp.
  unfold cell_set, define_property. cbn [fst snd].
  destruct (has_own k ps) eqn:E.
  - exists p. split; [exact Hp|]. left. reflexivity.
  - destruct p as [| |name].
    + destruct (jsstring_eqb k PROTO) eqn:Ek.
      * apply jsstring_eqb_eq in Ek.
        exists (set_parent (Held v) ParentObject). split.
        { intros name. destruct v; discriminate. }
        right. split; [reflexivity | exact Ek].
      * exists ParentObject. split; [discriminate|]. left. reflexivity.
    + exists ParentNull. split; [discriminate|]. left. reflexivity.
    + destruct (Hp name eq_refl).
Qed.

(** One round of the [forEach], for a row that holds a JSON scalar. *)
Lemma collect_row_held obj row :
  declared row ->
  (forall name, fst obj <> ParentMethod name) ->
  exists obj',
    collect_row obj row = Normal obj'
    /\ (forall name, fst obj' <> ParentMethod name)
    /\ (forall k, k <> PROTO ->
          own_property k (snd obj')
          = if keyed k row then Some (value row) else own_property k (snd obj))
    /\ (forall P : properties cell -> Prop,
          (forall k ps, P ps -> P (define_property k (value row) ps)) ->
          P (snd obj) -> P (snd obj')).
Proof.
  intros [v Hv] Hp. unfold collect_row, keyed.
  destruct (is_scalar_row row); [|exists obj; auto].
  destruct (key row) as [k'|]; [|exists obj; auto].
  rewrite truthy_some. destruct (is_nil k'); simpl; [exists obj; auto|].
  rewrite Hv.
  destruct (cell_set_held k' v obj Hp) as [p' [Hp' [E|[E ->]]]]; rewrite E;
    eexists; (split; [reflexivity|]); cbn [fst snd];
    (split; [exact Hp'|]); split.
  - intros k Hk. destruct (jsstring_eqb k k') eqn:Ek.
    + apply jsstring_eqb_eq in Ek. subst k'. apply own_define_same.
    + apply jsstring_eqb_neq in Ek. apply own_define_other, Ek.
  - intros P Hdef H. apply Hdef, H.
  - intros k Hk. apply jsstring_eqb_neq in Hk. rewrite Hk. reflexivity.
  - intros P _ H. exact H.
Qed.

Lemma collect_rows_held (rows : list (NodeRow R)) : forall obj,
  (forall row, In row rows -> declared row) ->
  (forall name, fst obj <> ParentMethod name) ->
  exists obj',
    collect_rows rows obj = Normal obj'
    /\ (forall k, k <> PROTO ->
          own_property k (snd obj')
          = match last_keyed k rows with
            | Some row => Some (value row)
            | None => own_property k (snd obj)
            end)
    /\ (forall P : properties cell -> Prop,
          (forall row k ps, In row rows -> P ps ->
                            P (define_property k (value row) ps)) ->
          P (snd obj) -> P (snd obj')).
Proof.
  induction rows as [|row rows IH]; intros obj Hd Hp; simpl.
  - exists obj. auto.
  - destruct (collect_row_held obj row (Hd row (or_introl eq_refl)) Hp)
      as [obj1 [E1 [Hp1 [Hget1 Hinv1]]]].
    destruct (IH obj1 (fun r Hr => Hd r (or_intror Hr)) Hp1)
      as [obj' [E' [Hget Hinv]]].
    exists obj'. rewrite E1. simpl. split; [exact E'|]. split.
    + intros k Hk. rewrite Hget by exact Hk.
      destruct (last_keyed k rows); [reflexivity|].
      rewrite Hget1 by exact Hk. destruct (keyed k row); reflexivity.
    + intros P Hdef H. apply Hinv.
      * intros r k ps Hr. apply Hdef. right. exact Hr.
      * apply Hinv1; [|exact H].
        intros k ps. apply Hdef. left. reflexivity.
Qed.

(** The object written for own properties that hold JSON scalars. *)
Lemma cell_object_held (ps : properties cell) :
  Forall (fun p => exists v, snd p = Held v) ps ->
  exists qs,
    cell_object ps = JObj qs
    /\ keys qs = keys ps
    /\ Forall2 (fun p q => fst q = fst p /\ cell_json (snd p) = Some (snd q))
         ps qs.
Proof.
  unfold cell_object. induction ps as [|[k c] ps IH]; intros H.
  - exists []. repeat split. constructor.
  - inversion H as [|? ? [v Hv] Hrest]; subst. simpl in Hv. subst c.
    destruct (IH Hrest) as [qs [E [Hk Hq]]]. injection E as E.
    exists ((k, value_of_scalar v) :: qs). simpl. rewrite E. split; [reflexivity|].
    split.
    + unfold keys in *. simpl. rewrite Hk. reflexivity.
    + constructor; [split; reflexivity | exact Hq].
Qed.

Lemma own_property_Forall2 {V W : Type} (f : V -> option W) k
  (ps : properties V) (qs : properties W) :
  Forall2 (fun p q => fst q = fst p /\ f (snd p) = Some (snd q)) ps qs ->
  own_property k qs
  = match own_property k ps with Some v => f v | None => None end.
Proof.
  induction 1 as [|[k1 v] [k2 w] ps qs [Hk Hv] _ IH]; simpl; [reflexivity|].
  simpl in Hk, Hv. subst k2. destruct (jsstring_eqb k k1); auto.
Qed.

(** X11.  A sequence that is not one row without a key, and none of
    whose rows has both a key and a type other than ["array"] and
    ["object"], is shown as the empty object. *)
Theorem normalizeNodeData_no_keyed_row :
  forall rows : list (NodeRow R),
    (forall row, rows = [row] -> truthy (key row) = true) ->
    (forall row, In row rows -> is_scalar_row row = true ->
                 truthy (key row) = false) ->
    normalizeNodeData (Some rows) = Normal (str "{}").
Proof.
  intros rows Hone Hnone.
  assert (E : forall obj, collect_rows rows obj = Normal obj).
  { clear Hone. induction rows as [|row rows IH]; intros obj; simpl.
    - reflexivity.
    - assert (E1 : collect_row obj row = Normal obj).
      { unfold collect_row.
        destruct (is_scalar_row row) eqn:Es; [|reflexivity].
        destruct (key row) as [k|] eqn:Ek; [|reflexivity].
        rewrite <- Ek, (Hnone row); auto. left. reflexivity. }
      rewrite E1. simpl. apply IH. intros r Hr. apply Hnone. right. exact Hr. }
  destruct rows as [|first others]; [reflexivity|].
  rewrite normalizeNodeData_rows, E.
  destruct others as [|second others]; [|reflexivity].
  simpl. rewrite (Hone first eq_refl). reflexivity.
Qed.

(** X12.  The text shown for a node reads as JSON: for a sequence of
    rows that hold JSON scalars, that is not one row without a key,
    and whose numbers are the ones their texts are read as, it parses
    to an object that holds, under every key but [__proto__], the
    value of the last row of that key whose type is neither ["array"]
    nor ["object"], and nothing under the other keys. *)
Theorem normalizeNodeData_reads_back :
  forall rows : list (NodeRow R),
    (forall row, In row rows -> declared row) ->
    (forall row, rows = [row] -> truthy (key row) = true) ->
    (forall row n, In row rows -> value row = Held (SNum n) ->
                   reads_back n = true) ->
    exists text ps,
      normalizeNodeData (Some rows) = Normal text
      /\ JSON_parse text = Some (JObj ps)
      /\ forall k, k <> PROTO ->
           own_property k ps
           = match last_keyed k rows with
             | Some row => cell_json (value row)
             | None => None
             end.
Proof.
  intros rows Hd Hone Hnum.
  destruct (collect_rows_held rows (ParentObject, []) Hd)
    as [[p ps] [Ec [Hget Hinv]]]; [discriminate|].
  cbn [snd] in Hget, Hinv.
  assert (Hheld : Forall (fun p => exists v, snd p = Held v) ps).
  { apply (Hinv (fun ps => Forall (fun p => exists v, snd p = Held v) ps));
      [|constructor].
    intros row k ps0 Hr H0.
    apply (Forall_define (fun c => exists v, c = Held v)); [|exact H0].
    apply Hd, Hr. }
  assert (Hnums : Forall (fun p => forall n, snd p = Held (SNum n) ->
                                             reads_back n = true) ps).
  { apply (Hinv (fun ps => Forall (fun p => forall n, snd p = Held (SNum n) ->
                                               reads_back n = true) ps));
      [|constructor].
    intros row k0 ps0 Hr H0.
    apply (Forall_define (fun c => forall n, c = Held (SNum n) ->
                                             reads_back n = true));
      [|exact H0].
    intros n. apply Hnum. exact Hr. }
  assert (Hord : ordered_keys (keys ps)).
  { apply (Hinv (fun ps => ordered_keys (keys ps))); [|exact I].
    intros row k ps0 _. apply define_ordered. }
  destruct (cell_object_held ps Hheld) as [qs [Eq [Hkeys Hq]]].
  assert (Es : stringify_cells ps = Normal (JSON_stringify (JObj qs))).
  { unfold stringify_cells. rewrite Eq.
    destruct (own_property (str "toJSON") ps) as [[v|[|name]]|] eqn:E;
      try reflexivity.
    apply own_property_In in E. rewrite Forall_forall in Hheld.
    destruct (Hheld _ E) as [v Hv]. discriminate Hv. }
  assert (E : normalizeNodeData (Some rows) = Normal (JSON_stringify (JObj qs))).
  { destruct rows as [|first others].
    - simpl in Ec. injection Ec as <- <-. simpl in Eq. injection Eq as <-.
      reflexivity.
    - rewrite normalizeNodeData_rows. unfold properties in *. rewrite Ec.
      cbn [bind snd]. rewrite <- Es.
      destruct others as [|second others]; [|reflexivity].
      simpl is_nil. rewrite (Hone first eq_refl). reflexivity. }
  exists (JSON_stringify (JObj qs)), qs. split; [exact E|]. split.
  - apply JSON_parse_stringify.
    + constructor.
      * rewrite Hkeys. exact Hord.
      * clear - Hq. induction Hq as [|[k c] [k' v] ps qs [_ Hv] _ IH];
          constructor; [|exact IH].
        simpl in *. destruct c as [s|[|name]]; try discriminate;
          injection Hv as <-; [destruct s|]; repeat constructor.
    + simpl. clear - Hq Hnums.
      induction Hq as [|[k c] [k' v] ps qs [_ Hv] _ IH]; [reflexivity|].
      inversion Hnums as [|? ? Hn Hrest]; subst. simpl.
      rewrite (IH Hrest), andb_true_r. simpl in Hv, Hn.
      destruct c as [s|[|name]]; try discriminate; injection Hv as <-;
        [|reflexivity].
      destruct s; try reflexivity. simpl. apply Hn. reflexivity.
  - intros k Hk. rewrite (own_property_Forall2 cell_json k ps qs Hq).
    rewrite (Hget k Hk). simpl. destruct (last_keyed k rows); reflexivity.
Qed.

End ObjectFacts.

(* ===================================================================== *)
(** * The values an edit session starts from *)
(* ===================================================================== *)

Lemma ordered_keys_NoDup (ks : list jsstring) : ordered_keys ks -> NoDup ks.
Proof.
  induction ks as [|k ks IH]; simpl; intros H; constructor; tauto.
Qed.

Section InitialFacts.
Context {realm : Realm} {R : Type}.
Implicit Types (row : NodeRow R) (acc : record).

(** One round of the [forEach] of the effect. *)
Lemma initial_step_other acc row k :
  k <> PROTO ->
  own_property k
    (match key row with
     | Some k' =>
         if (is_scalar_row row && truthy (key row))%bool
         then snd (ordinary_set ToString true k'
                     (SStr (edit_text (value row))) acc)
         else acc
     | None => acc
     end)
  = if keyed k row then Some (edit_text (value row)) else own_property k acc.
Proof.
  intros Hk. unfold keyed.
  destruct (key row) as [k'|] eqn:Ek; [|rewrite andb_false_r; reflexivity].
  rewrite truthy_some.
  destruct (is_scalar_row row); simpl; [|reflexivity].
  destruct (is_nil k'); simpl; [reflexivity|].
  rewrite ordinary_set_string. simpl.
  destruct (jsstring_eqb k k') eqn:E.
  - apply jsstring_eqb_eq in E. subst k'.
    apply jsstring_eqb_neq in Hk. rewrite Hk, andb_false_r.
    apply own_define_same.
  - apply jsstring_eqb_neq in E.
    destruct (negb (has_own k' acc) && jsstring_eqb k' PROTO)%bool;
      [reflexivity|].
    apply own_define_other, E.
Qed.

Lemma initial_step_proto acc row :
  own_property PROTO acc = None ->
  own_property PROTO
    (match key row with
     | Some k' =>
         if (is_scalar_row row && truthy (key row))%bool
         then snd (ordinary_set ToString true k'
                     (SStr (edit_text (value row))) acc)
         else acc
     | None => acc
     end) = None.
Proof.
  intros Hp. destruct (key row) as [k'|]; [|exact Hp].
  destruct (is_scalar_row row && truthy (Some k'))%bool; [|exact Hp].
  rewrite ordinary_set_string. simpl.
  destruct (jsstring_eqb k' PROTO) eqn:E.
  - apply jsstring_eqb_eq in E. subst k'.
    rewrite (proj2 (has_own_false PROTO acc) Hp). exact Hp.
  - rewrite andb_false_r. apply jsstring_eqb_neq in E.
    rewrite own_define_other by congruence. exact Hp.
Qed.

Lemma initial_step_ordered acc row :
  ordered_keys (keys acc) ->
  ordered_keys
    (keys (match key row with
           | Some k' =>
               if (is_scalar_row row && truthy (key row))%bool
               then snd (ordinary_set ToString true k'
                           (SStr (edit_text (value row))) acc)
               else acc
           | None => acc
           end)).
Proof.
  intros Ho. destruct (key row) as [k'|]; [|exact Ho].
  destruct (is_scalar_row row && truthy (Some k'))%bool; [|exact Ho].
  rewrite ordinary_set_string. simpl.
  destruct (negb (has_own k' acc) && jsstring_eqb k' PROTO)%bool;
    [exact Ho | apply define_ordered, Ho].
Qed.

Lemma initial_fold (rows : list (NodeRow R)) : forall acc,
  (forall k, k <> PROTO ->
     own_property k
       (fold_left
          (fun acc row =>
             match key row with
             | Some k' =>
                 if (is_scalar_row row && truthy (key row))%bool
                 then snd (ordinary_set ToString true k'
                             (SStr (edit_text (value row))) acc)
                 else acc
             | None => acc
             end) rows acc)
     = match last_keyed k rows with
       | Some row => Some (edit_text (value row))
       | None => own_property k acc
       end)
  /\ (own_property PROTO acc = None ->
      own_property PROTO
        (fold_left
           (fun acc row =>
              match key row with
              | Some k' =>
                  if (is_scalar_row row && truthy (key row))%bool
                  then snd (ordinary_set ToString true k'
                              (SStr (edit_text (value row))) acc)
                  else acc
              | None => acc
              end) rows acc) = None)
  /\ (ordered_keys (keys acc) ->
      ordered_keys
        (keys (fold_left
                 (fun acc row =>
                    match key row with
                    | Some k' =>
                        if (is_scalar_row row && truthy (key row))%bool
                        then snd (ordinary_set ToString true k'
                                    (SStr (edit_text (value row))) acc)
                        else acc
                    | None => acc
                    end) rows acc))).
Proof.
  induction rows as [|row rows IH]; intros acc; simpl.
  - repeat split; auto.
  - destruct (IH (match key row with
                  | Some k' =>
                      if (is_scalar_row row && truthy (key row))%bool
                      then snd (ordinary_set ToString true k'
                                  (SStr (edit_text (value row))) acc)
                      else acc
                  | None => acc
                  end)) as [IH1 [IH2 IH3]].
    split; [|split].
    + intros k Hk. rewrite IH1 by exact Hk.
      destruct (last_keyed k rows); [reflexivity|].
      rewrite initial_step_other by exact Hk.
      destruct (keyed k row); reflexivity.
    + intros Hp. apply IH2, initial_step_proto, Hp.
    + intros Ho. apply IH3, initial_step_ordered, Ho.
Qed.

Lemma initialValues_lookup (D : Type) (nodeData : NodeData R D) k :
  own_property k (initialValues nodeData)
  = if jsstring_eqb k PROTO then None
    else option_map (fun row => edit_text (value row))
           (last_keyed k (text nodeData)).
Proof.
  unfold initialValues.
  destruct (initial_fold (text nodeData) []) as [H1 [H2 _]].
  destruct (jsstring_eqb k PROTO) eqn:E.
  - apply jsstring_eqb_eq in E. subst k. apply H2. reflexivity.
  - apply jsstring_eqb_neq in E. rewrite H1 by exact E.
    destruct (last_keyed k (text nodeData)); reflexivity.
Qed.

(** X13.  The values an edit session starts from: under every key but
    [__proto__], the text of the value of the last row of that key
    whose type is neither ["array"] nor ["object"] -- the empty text
    for null -- and nothing under the other keys, nor under
    [__proto__]. *)
Theorem initialValues_entries :
  forall (D : Type) (nodeData : NodeData R D) (k : jsstring),
    own_property k (initialValues nodeData)
    = if jsstring_eqb k PROTO then None
      else option_map (fun row => edit_text (value row))
             (last_keyed k (text nodeData)).
Proof.
  intros D nodeData k. unfold initialValues.
  destruct (initial_fold (text nodeData) []) as [Hkey [Hproto _]].
  destruct (jsstring_eqb k PROTO) eqn:E.
  - apply jsstring_eqb_eq in E. subst k. apply Hproto. reflexivity.
  - apply jsstring_eqb_neq in E. rewrite Hkey by exact E.
    destruct (last_keyed k (text nodeData)); reflexivity.
Qed.

Lemma initialValues_ordered (D : Type) (nodeData : NodeData R D) :
  ordered_keys (keys (initialValues nodeData)).
Proof.
  unfold initialValues.
  destruct (initial_fold (text nodeData) []) as [_ [_ H3]].
  apply H3. exact I.
Qed.

End InitialFacts.

(* ===================================================================== *)
(** * What the dialog shows *)
(* ===================================================================== *)

Section ViewFacts.
Context {realm : Realm} {R D F : Type}.
Implicit Types (w : world R D F) (row : NodeRow R) (nodeData : NodeData R D)
  (values : record).

Lemma edited_value_define values k k' v :
  edited_value (define_property k v values) k'
  = if jsstring_eqb k' k then Some (Held (SStr v))
    else edited_value values k'.
Proof.
  unfold edited_value. destruct (jsstring_eqb k' k) eqn:E.
  - apply jsstring_eqb_eq in E. subst k'. rewrite own_define_same. reflexivity.
  - apply jsstring_eqb_neq in E. rewrite own_define_other by exact E.
    reflexivity.
Qed.

(** The inputs, one by one. *)
Lemma render_inputs_each values rows : forall index,
  List.length (render_inputs values index rows) = List.length rows
  /\ forall j row,
       nth_error rows j = Some row ->
       nth_error (render_inputs values index rows) j
       = Some (render_input values (index + j) row).
Proof.
  induction rows as [|first rest IH]; simpl; intros index.
  - split; [reflexivity|]. intros [|j]; discriminate.
  - destruct (IH (S index)) as [Hlen Heach].
    split; [simpl; congruence|].
    intros [|j] row; simpl; intros Hr.
    + injection Hr as <-. rewrite Nat.add_0_r. reflexivity.
    + replace (index + S j) with (S index + j) by lia.
      apply (Heach j row Hr).
Qed.

(** X14.  While editing, typing into an input changes the text of that
    input, and of the inputs that edit the same key, to what was
    entered; the other inputs, and every label and placeholder, show
    what they showed. *)
Theorem typing_changes_one_key :
  forall w nodeData index row entered inputs jsonPath,
    selectedNode w = Some nodeData ->
    isEditing w = true ->
    nth_error (editableRows nodeData) index = Some row ->
    render w = Normal (Form inputs jsonPath) ->
    exists w' inputs',
      step w (TypeInto index entered) = Normal w'
      /\ render w' = Normal (Form inputs' jsonPath)
      /\ List.length inputs' = List.length inputs
      /\ forall j row_j inp inp',
           nth_error (editableRows nodeData) j = Some row_j ->
           nth_error inputs j = Some inp ->
           nth_error inputs' j = Some inp' ->
           label inp' = label inp
           /\ placeholder inp' = placeholder inp
           /\ input_value inp'
              = if jsstring_eqb (input_key j row_j) (input_key index row)
                then Held (SStr entered) else input_value inp.
Proof.
  intros w nodeData index row entered inputs jsonPath Hsel Hed Hrow Hview.
  unfold render in Hview. rewrite Hsel, Hed in Hview.
  injection Hview as <- <-.
  destruct (render_inputs_each (editedValues w) (editableRows nodeData) 0)
    as [Hlen Heach].
  set (values' := define_property (input_key index row) entered
                    (editedValues w)).
  destruct (render_inputs_each values' (editableRows nodeData) 0)
    as [Hlen' Heach'].
  exists (handleEditChange (input_key index row) entered w),
    (render_inputs values' 0 (editableRows nodeData)).
  split; [unfold step; rewrite Hsel, Hed, Hrow; reflexivity|].
  split; [unfold render, handleEditChange; simpl; rewrite Hsel, Hed;
          reflexivity|].
  split; [congruence|].
  intros j row_j inp inp' Hj Hi Hi'.
  rewrite (Heach j row_j Hj) in Hi. injection Hi as <-.
  rewrite (Heach' j row_j Hj) in Hi'. injection Hi' as <-.
  unfold render_input. simpl. unfold values'. rewrite edited_value_define.
  destruct (jsstring_eqb (input_key j row_j) (input_key index row)); auto.
Qed.

(** X15.  The form an edit session opens with: one input for every row
    whose type is neither ["array"] nor ["object"], labelled by the key
    of the row, or [Value] without one, and holding the text of the
    value of the last such row of its key.  An input whose key is that
    of no such row, as for a row without a key, holds the empty text,
    unless its key names a method that objects inherit: it then holds
    the method.  The input of a row keyed [__proto__], a key the
    values of the session never hold, holds [Object.prototype]. *)
Theorem fresh_session_form :
  forall w nodeData,
    selectedNode w = Some nodeData ->
    isEditing w = false ->
    editDisabled nodeData = false ->
    exists w' inputs,
      step w ClickEdit = Normal w'
      /\ render w' = Normal (Form inputs (jsonPathToString (path nodeData)))
      /\ List.length inputs = List.length (editableRows nodeData)
      /\ forall index row inp,
           nth_error (editableRows nodeData) index = Some row ->
           nth_error inputs index = Some inp ->
           label inp = key_or (str "Value") row
           /\ placeholder inp = str "Enter " ++ key_or (str "value") row
           /\ input_value inp
              = if jsstring_eqb (input_key index row) PROTO
                then Foreign ObjectPrototype
                else
                  match last_keyed (input_key index row) (text nodeData) with
                  | Some shown => Held (SStr (edit_text (value shown)))
                  | None =>
                      if inherited KObject (input_key index row)
                      then Foreign (Method (input_key index row))
                      else Held (SStr [])
                  end.
Proof.
  intros w nodeData Hsel Hed Hen.
  exists (startEditing w),
    (render_inputs (initialValues nodeData) 0 (editableRows nodeData)).
  destruct (render_inputs_each (initialValues nodeData)
              (editableRows nodeData) 0) as [Hlen Heach].
  split; [unfold step; rewrite Hsel, Hed, Hen; reflexivity|].
  split.
  { unfold render, startEditing. rewrite Hsel. simpl. rewrite Hsel.
    reflexivity. }
  split; [exact Hlen|].
  intros index row inp Hrow Hinp.
  rewrite (Heach index row Hrow) in Hinp. injection Hinp as <-.
  unfold render_input. simpl. split; [reflexivity|]. split; [reflexivity|].
  unfold edited_value. rewrite initialValues_lookup.
  destruct (jsstring_eqb (input_key index row) PROTO); [reflexivity|].
  destruct (last_keyed (input_key index row) (text nodeData)); simpl;
    [reflexivity|].
  destruct (inherited KObject (input_key index row)); reflexivity.
Qed.

End ViewFacts.

(* ===================================================================== *)
(** * The component: what the actions change *)
(* ===================================================================== *)

Section ActionFacts.
Context {realm : Realm} {R D F : Type}.
Implicit Types (w : world R D F) (row : NodeRow R) (nodeData : NodeData R D)
  (values : record).

Lemma set_session_same w :
  set_session (isEditing w) (editedValues w) w = w.
Proof. destruct w; reflexivity. Qed.

Lemma run_idle w :
  (forall nodeData, selectedNode w = Some nodeData ->
                    isEditing w = false /\ editDisabled nodeData = true) ->
  forall actions, run w actions = Normal w.
Proof.
  intros Hw actions. induction actions as [|a actions IH]; simpl.
  - reflexivity.
  - assert (Hs : step w a = Normal w).
    { unfold step. destruct (selectedNode w) as [nodeData|] eqn:Hsel;
        [|reflexivity].
      destruct (Hw nodeData eq_refl) as [Hed Hdis]. rewrite Hed, Hdis.
      destruct a; reflexivity. }
    rewrite Hs. simpl. exact IH.
Qed.

(** X16.  Without a selected node, and on a node none of whose rows has
    a type other than ["array"] and ["object"], the dialog is inert:
    whatever the user does while it is viewing, nothing changes. *)
Theorem nothing_to_edit :
  forall w,
    (forall nodeData, selectedNode w = Some nodeData ->
                      isEditing w = false /\ editDisabled nodeData = true) ->
    forall actions, run w actions = Normal w.
Proof.
  intros w Hw actions. induction actions as [|a actions IH]; simpl.
  - reflexivity.
  - unfold step at 1.
    destruct (selectedNode w) as [nodeData|] eqn:Hsel; [|exact IH].
    destruct (Hw nodeData eq_refl) as [Hed Hdis]. rewrite Hed, Hdis.
    destruct a; exact IH.
Qed.

Lemma bind_normal {A : Type} (c : completion A) : (do x <- c; Normal x) = c.
Proof. destruct c; reflexivity. Qed.

Lemma step_edit w nodeData :
  selectedNode w = Some nodeData -> isEditing w = false ->
  editDisabled nodeData = false ->
  step w ClickEdit = Normal (set_session true (initialValues nodeData) w).
Proof.
  intros Hsel Hed Hen. unfold step, startEditing.
  rewrite Hsel, Hed, Hen. reflexivity.
Qed.

Lemma step_type w nodeData index row entered :
  selectedNode w = Some nodeData -> isEditing w = true ->
  nth_error (editableRows nodeData) index = Some row ->
  step w (TypeInto index entered)
  = Normal (handleEditChange (input_key index row) entered w).
Proof.
  intros Hsel Hed Hrow. unfold step. rewrite Hsel, Hed, Hrow. reflexivity.
Qed.

Lemma step_save w nodeData :
  selectedNode w = Some nodeData -> isEditing w = true ->
  step w ClickSave = handleSave w.
Proof. intros Hsel Hed. unfold step. rewrite Hsel, Hed. reflexivity. Qed.

(** The stores and the console. *)
Lemma step_keeps_stores w a :
  a <> ClickSave ->
  exists w',
    step w a = Normal w'
    /\ contents w' = contents w /\ format w' = format w
    /\ hasChanges w' = hasChanges w /\ selectedNode w' = selectedNode w
    /\ console w' = console w.
Proof.
  intros Ha. unfold step.
  destruct (selectedNode w) as [nodeData|] eqn:Hsel;
    [|exists w; repeat split; auto].
  destruct a as [|index entered| |]; destruct (isEditing w);
    try (exists w; repeat split; auto; fail).
  - destruct (editDisabled nodeData); [exists w; repeat split; auto|].
    exists (startEditing w). split; [reflexivity|].
    unfold startEditing. rewrite Hsel. repeat split; auto.
  - destruct (nth_error (editableRows nodeData) index) as [row|];
      [|exists w; repeat split; auto].
    eexists. split; [reflexivity|]. repeat split; auto.
  - contradiction.
  - eexists. split; [reflexivity|]. repeat split; auto.
Qed.

(** X17.  Save is the only action that writes: every sequence of
    actions without a Save runs to its end and leaves the contents of
    the document, its format, its changed flag, the selected node and
    the console as they were. *)
Theorem save_alone_writes :
  forall actions w,
    ~ In ClickSave actions ->
    exists w',
      run w actions = Normal w'
      /\ contents w' = contents w /\ format w' = format w
      /\ hasChanges w' = hasChanges w /\ selectedNode w' = selectedNode w
      /\ console w' = console w.
Proof.
  induction actions as [|a actions IH]; intros w Hno; simpl.
  - exists w. repeat split; auto.
  - destruct (step_keeps_stores w a) as [w1 [Hs [H1 [H2 [H3 [H4 H5]]]]]].
    { intros ->. apply Hno. left. reflexivity. }
    destruct (IH w1) as [w' [Hr [G1 [G2 [G3 [G4 G5]]]]]].
    { intros Hin. apply Hno. right. exact Hin. }
    exists w'. rewrite Hs. simpl. split; [exact Hr|].
    repeat split; congruence.
Qed.

(** X18.  A Save that returns ends the session and marks the document
    as changed, whatever the update did: either nothing is logged, or
    one error is logged and the contents are what they were -- as when
    the contents are not valid JSON; the node is updated all the
    same. *)
Theorem handleSave_marks_changed :
  forall w nodeData w',
    selectedNode w = Some nodeData ->
    handleSave w = Normal w' ->
    isEditing w' = false /\ hasChanges w' = true /\ format w' = format w
    /\ editedValues w' = editedValues w
    /\ (console w' = console w
        \/ (contents w' = contents w
            /\ exists e, console w' = console w ++ [e]))
    /\ (JSON_parse (contents w) = None ->
        contents w' = contents w
        /\ console w' = console w ++ [SyntaxError]).
Proof.
  intros w nodeData w' Hsel H. unfold handleSave in H. rewrite Hsel in H.
  destruct (updateJsonAtPath (contents w)
              match path nodeData with Some p => p | None => [] end
              (editedValues w)) as [out| |] eqn:E; simpl in H;
    try discriminate.
  injection H as <-. simpl. repeat split.
  - unfold updateJsonAtPath in E.
    destruct (try_update _ _ _) as [s|e|]; try discriminate;
      injection E as <-; simpl.
    + left. apply app_nil_r.
    + right. split; [reflexivity|]. exists e. reflexivity.
  - unfold updateJsonAtPath, try_update in E. rewrite H in E.
    injection E as <-. reflexivity.
  - unfold updateJsonAtPath, try_update in E. rewrite H in E.
    injection E as <-. reflexivity.
Qed.

Lemma last_keyed_some k rows row :
  In row rows -> keyed k row = true -> last_keyed k rows <> None.
Proof.
  induction rows as [|first rest IH]; simpl; [contradiction|].
  intros [->|Hin] Hk.
  - rewrite Hk. destruct (last_keyed k rest); discriminate.
  - destruct (last_keyed k rest); [discriminate|].
    exfalso. apply (IH Hin Hk). reflexivity.
Qed.

Lemma last_keyed_keyed k (rows : list (NodeRow R)) : forall shown,
  last_keyed k rows = Some shown -> In shown rows /\ keyed k shown = true.
Proof.
  induction rows as [|first rest IH]; simpl; intros shown El; [discriminate|].
  destruct (last_keyed k rest) as [later|].
  - injection El as <-. destruct (IH later eq_refl). auto.
  - destruct (keyed k first) eqn:E; [|discriminate].
    injection El as <-. auto.
Qed.

Lemma keyed_key k row :
  keyed k row = true ->
  is_scalar_row row = true /\ key row = Some k /\ is_nil k = false.
Proof.
  unfold keyed. destruct (is_scalar_row row); [|discriminate].
  destruct (key row) as [k'|]; [|discriminate]. simpl.
  destruct (is_nil k') eqn:En; [discriminate|]. simpl.
  intros E. apply jsstring_eqb_eq in E. subst k'. auto.
Qed.

Lemma keyed_some row k :
  key row = Some k -> (is_scalar_row row && truthy (key row))%bool = true ->
  keyed k row = true.
Proof.
  intros Ek Eg. unfold keyed. rewrite Ek in *. rewrite truthy_some in Eg.
  rewrite jsstring_eqb_refl, andb_true_r. exact Eg.
Qed.

(** What Save makes of a row. *)
Lemma save_row_keyed values (r : NodeRow R) k v :
  keyed k r = true -> own_property k values = Some v ->
  save_row values r = with_value r v.
Proof.
  intros Hk Hv. destruct (keyed_key _ _ Hk) as [Hs [Hk1 Hn]].
  unfold save_row, edited_value, with_value.
  rewrite Hk1, truthy_some, Hs, Hn, Hv. reflexivity.
Qed.

Lemma save_row_unkeyed values (r : NodeRow R) :
  (forall k, keyed k r = false) -> save_row values r = r.
Proof.
  intros Hk. unfold save_row.
  destruct (key r) as [k|] eqn:Ek; [|reflexivity].
  destruct (is_scalar_row r && truthy (Some k))%bool eqn:Eg; [|reflexivity].
  specialize (Hk k). rewrite (keyed_some r k Ek) in Hk; [discriminate|].
  rewrite Ek. exact Eg.
Qed.

(** Save on a node whose path leads to an object of the document. *)
Lemma handleSave_object w nodeData doc ps place :
  selectedNode w = Some nodeData ->
  JSON_parse (contents w) = Some doc ->
  walk (Some doc) [] (segments (path nodeData))
  = Normal (Some (JObj ps), place) ->
  handleSave w
  = Normal
      {| contents :=
           JSON_stringify
             (update_at place
                (fun _ => JObj (fold_left set_entry (editedValues w) ps))
                doc);
         format := format w; hasChanges := true;
         selectedNode :=
           Some {| text := map (save_row (editedValues w)) (text nodeData);
                   path := path nodeData;
                   node_rest := node_rest nodeData |};
         isEditing := false; editedValues := editedValues w;
         console := console w |}.
Proof.
  intros Hsel Hp Hw.
  unfold handleSave, updatedNode. rewrite Hsel.
  unfold updateJsonAtPath.
  change (match path nodeData with Some p => p | None => [] end)
    with (segments (path nodeData)).
  rewrite (try_update_at _ _ _ _ _ _ Hp Hw). simpl.
  rewrite assign_entries_object. simpl. rewrite app_nil_r. reflexivity.
Qed.

Lemma initialValues_keyed nodeData r k :
  (forall r, In r (text nodeData) -> key r <> Some PROTO) ->
  In r (text nodeData) -> keyed k r = true ->
  exists shown,
    last_keyed k (text nodeData) = Some shown
    /\ own_property k (initialValues nodeData)
       = Some (edit_text (value shown)).
Proof.
  intros Hproto Hr Hk. rewrite initialValues_lookup.
  destruct (keyed_key _ _ Hk) as [_ [Hk1 _]].
  assert (Hne : jsstring_eqb k PROTO = false).
  { apply jsstring_eqb_neq. intros ->. apply (Hproto r Hr). exact Hk1. }
  rewrite Hne.
  destruct (last_keyed k (text nodeData)) as [shown|] eqn:El; simpl; [eauto|].
  exfalso. apply (last_keyed_some _ _ _ Hr Hk). exact El.
Qed.

Lemma input_key_plain index row :
  key row <> Some PROTO -> input_key index row <> PROTO.
Proof.
  unfold input_key. destruct (key row) as [k|]; [congruence|].
  intros _. discriminate.
Qed.

(** X19.  From Edit to Save: on a node whose path leads to an object
    of the document, Edit, typing into the input of a row that is not
    keyed [__proto__], and Save run to their end.  The object of the
    document then holds the text entered under the key the input
    edits -- the key of its row, be it empty, or [value-] and its
    index for a row without a key.  Every row whose key is that key
    and is not empty, and whose type is neither ["array"] nor
    ["object"], has the text as its value; a row without a key, with
    the empty key or of one of these two types keeps its value, so
    that the text entered for such a row reaches the document and not
    the row.  The document is marked as changed, nothing is logged
    and the dialog is viewing again. *)
Theorem typed_value_is_saved :
  forall w nodeData index row entered doc ps place,
    selectedNode w = Some nodeData ->
    isEditing w = false ->
    nth_error (editableRows nodeData) index = Some row ->
    key row <> Some PROTO ->
    JSON_parse (contents w) = Some doc ->
    walk (Some doc) [] (segments (path nodeData))
    = Normal (Some (JObj ps), place) ->
    exists w' ps' rows',
      run w [ClickEdit; TypeInto index entered; ClickSave] = Normal w'
      /\ contents w'
         = JSON_stringify (update_at place (fun _ => JObj ps') doc)
      /\ own_property (input_key index row) ps' = Some (JStr entered)
      /\ selectedNode w'
         = Some {| text := rows'; path := path nodeData;
                   node_rest := node_rest nodeData |}
      /\ (forall j r, nth_error (text nodeData) j = Some r ->
                      keyed (input_key index row) r = true ->
                      nth_error rows' j = Some (with_value r entered))
      /\ (forall j r, nth_error (text nodeData) j = Some r ->
                      (forall k, keyed k r = false) ->
                      nth_error rows' j = Some r)
      /\ hasChanges w' = true /\ isEditing w' = false
      /\ console w' = console w.
Proof.
  intros w nodeData index row entered doc ps place Hsel Hed Hrow Hproto Hp Hw.
  assert (Hk : input_key index row <> PROTO)
    by (apply input_key_plain, Hproto).
  assert (Hen : editDisabled nodeData = false).
  { unfold editDisabled. destruct (editableRows nodeData);
      [destruct index; discriminate | reflexivity]. }
  set (k := input_key index row) in *.
  set (values := define_property k entered (initialValues nodeData)).
  set (w2 := handleEditChange k entered
               (set_session true (initialValues nodeData) w)).
  assert (Hsel2 : selectedNode w2 = Some nodeData) by exact Hsel.
  assert (Hval2 : editedValues w2 = values) by reflexivity.
  assert (Hrun : run w [ClickEdit; TypeInto index entered; ClickSave]
                 = handleSave w2).
  { change (run w [ClickEdit; TypeInto index entered; ClickSave])
      with (do w1 <- step w ClickEdit;
            do w2 <- step w1 (TypeInto index entered);
            do w3 <- step w2 ClickSave; Normal w3).
    rewrite (step_edit w nodeData Hsel Hed Hen). simpl bind.
    rewrite (step_type (set_session true (initialValues nodeData) w)
               nodeData index row entered Hsel eq_refl Hrow).
    simpl bind. rewrite bind_normal.
    apply (step_save w2 nodeData); [exact Hsel | reflexivity]. }
  pose proof (handleSave_object w2 nodeData doc ps place Hsel2 Hp Hw)
    as Hsave.
  rewrite Hval2 in Hsave.
  eexists.
  exists (fold_left set_entry values ps),
    (map (save_row values) (text nodeData)).
  split; [rewrite Hrun; exact Hsave|]. simpl.
  split; [reflexivity|]. split.
  { apply fold_set_entry_same.
    - apply ordered_keys_NoDup. unfold values.
      apply define_ordered, initialValues_ordered.
    - apply own_property_In. unfold values. apply own_define_same.
    - left. exact Hk. }
  split; [reflexivity|]. split.
  { intros j r Hj Hkr. rewrite (map_nth_error _ _ _ Hj). f_equal.
    apply (save_row_keyed values r k); [exact Hkr|].
    unfold values. apply own_define_same. }
  split.
  { intros j r Hj Hkr. rewrite (map_nth_error _ _ _ Hj). f_equal.
    apply save_row_unkeyed, Hkr. }
  auto.
Qed.

(** X20.  Save without typing is not the identity: on a node no row of
    which is keyed [__proto__], whose path leads to an object of the
    document, Edit and Save run to their end and write the values
    the session started from.  Every row that has a key and a type
    other than ["array"] and ["object"] gets as its value the text of
    the value of the last such row of its key, a string whatever the
    value was, and the object of the document gets the same string
    under that key; the other rows, and the other properties of the
    object, are what they were. *)
Theorem save_without_typing :
  forall w nodeData doc ps place,
    selectedNode w = Some nodeData ->
    isEditing w = false ->
    editDisabled nodeData = false ->
    (forall r, In r (text nodeData) -> key r <> Some PROTO) ->
    JSON_parse (contents w) = Some doc ->
    walk (Some doc) [] (segments (path nodeData))
    = Normal (Some (JObj ps), place) ->
    exists w' ps' rows',
      run w [ClickEdit; ClickSave] = Normal w'
      /\ contents w'
         = JSON_stringify (update_at place (fun _ => JObj ps') doc)
      /\ selectedNode w'
         = Some {| text := rows'; path := path nodeData;
                   node_rest := node_rest nodeData |}
      /\ hasChanges w' = true
      /\ (forall k shown, last_keyed k (text nodeData) = Some shown ->
            own_property k ps' = Some (JStr (edit_text (value shown))))
      /\ (forall k, last_keyed k (text nodeData) = None ->
            own_property k ps' = own_property k ps)
      /\ (forall j r k, nth_error (text nodeData) j = Some r ->
            keyed k r = true ->
            exists shown,
              last_keyed k (text nodeData) = Some shown
              /\ nth_error rows' j
                 = Some (with_value r (edit_text (value shown))))
      /\ (forall j r, nth_error (text nodeData) j = Some r ->
            (forall k, keyed k r = false) -> nth_error rows' j = Some r).
Proof.
  intros w nodeData doc ps place Hsel Hed Hen Hproto Hp Hw.
  set (w1 := set_session true (initialValues nodeData) w).
  assert (Hsel1 : selectedNode w1 = Some nodeData) by exact Hsel.
  assert (Hval1 : editedValues w1 = initialValues nodeData) by reflexivity.
  assert (Hrun : run w [ClickEdit; ClickSave] = handleSave w1).
  { change (run w [ClickEdit; ClickSave])
      with (do w1 <- step w ClickEdit; do w3 <- step w1 ClickSave; Normal w3).
    rewrite (step_edit w nodeData Hsel Hed Hen). simpl bind.
    rewrite bind_normal.
    apply (step_save w1 nodeData); [exact Hsel | reflexivity]. }
  assert (Hnone : forall k, last_keyed k (text nodeData) = None ->
                            own_property k (initialValues nodeData) = None).
  { intros k El. rewrite initialValues_lookup, El.
    destruct (jsstring_eqb k PROTO); reflexivity. }
  assert (Hsome : forall k shown,
            last_keyed k (text nodeData) = Some shown ->
            own_property k (initialValues nodeData)
            = Some (edit_text (value shown)) /\ k <> PROTO).
  { intros k shown El.
    assert (Hk : exists r, In r (text nodeData) /\ keyed k r = true)
      by (exists shown; apply last_keyed_keyed, El).
    destruct Hk as [r [Hr Hk]].
    destruct (initialValues_keyed nodeData r k Hproto Hr Hk)
      as [shown' [El' Hv]].
    rewrite El in El'. injection El' as <-. split; [exact Hv|].
    intros ->. destruct (keyed_key _ _ Hk) as [_ [Hk1 _]].
    apply (Hproto r Hr). exact Hk1. }
  pose proof (handleSave_object w1 nodeData doc ps place Hsel1 Hp Hw)
    as Hsave.
  rewrite Hval1 in Hsave.
  eexists.
  exists (fold_left set_entry (initialValues nodeData) ps),
    (map (save_row (initialValues nodeData)) (text nodeData)).
  split; [rewrite Hrun; exact Hsave|]. simpl.
  split; [reflexivity|]. split; [reflexivity|]. split; [reflexivity|].
  split; [|split; [|split]].
  - intros k shown El. destruct (Hsome k shown El) as [Hv Hk].
    apply fold_set_entry_same.
    + apply ordered_keys_NoDup, initialValues_ordered.
    + apply own_property_In, Hv.
    + left. exact Hk.
  - intros k El. apply fold_set_entry_other.
    apply (own_none_keys k (initialValues nodeData)), Hnone, El.
  - intros j r k Hj Hk.
    destruct (initialValues_keyed nodeData r k Hproto
                (nth_error_In _ _ Hj) Hk) as [shown [El Hv]].
    exists shown. split; [exact El|].
    rewrite (map_nth_error _ _ _ Hj). f_equal.
    apply (save_row_keyed _ r k); [exact Hk | exact Hv].
  - intros j r Hj Hk. rewrite (map_nth_error _ _ _ Hj). f_equal.
    apply save_row_unkeyed, Hk.
Qed.

(** X21.  A cancelled session leaves no trace: after Edit, any typing
    and Cancel, Edit opens the session that a first Edit opens. *)
Theorem cancel_then_edit :
  forall w nodeData (edits : list (nat * jsstring)),
    selectedNode w = Some nodeData ->
    isEditing w = false ->
    run w (ClickEdit :: map (fun e => TypeInto (fst e) (snd e)) edits
             ++ [ClickCancel; ClickEdit])
    = run w [ClickEdit].
Proof.
  intros w nodeData edits Hsel Hed.
  destruct (editDisabled nodeData) eqn:Hen.
  - assert (Hidle : forall actions, run w actions = Normal w).
    { apply run_idle. intros nd E. rewrite Hsel in E.
      injection E as <-. auto. }
    rewrite !Hidle. reflexivity.
  - change (run w [ClickEdit]) with (do w1 <- step w ClickEdit; Normal w1).
    change (run w (ClickEdit :: ?l))
      with (do w1 <- step w ClickEdit; run w1 l).
    rewrite (step_edit w nodeData Hsel Hed Hen). simpl bind.
    rewrite run_app.
    destruct (run_typing edits (set_session true (initialValues nodeData) w)
                nodeData Hsel eq_refl) as [values Hv].
    rewrite Hv. simpl bind.
    change (run ?w1 [ClickCancel; ClickEdit])
      with (do w2 <- step w1 ClickCancel; do w3 <- step w2 ClickEdit;
            Normal w3).
    unfold step at 1. simpl. rewrite Hsel. simpl.
    unfold step. simpl. rewrite Hsel, Hen. simpl.
    unfold startEditing. simpl. rewrite Hsel. reflexivity.
Qed.

End ActionFacts.

(* ===================================================================== *)
(** * Concrete runs *)
(* ===================================================================== *)

Local Open Scope string_scope.

(** A valid text, a path to one of its objects and two new values, one
    overwriting and one inserted. *)
Lemma updateJsonAtPath_object_target_witness :
  JSON_parse (lit "{'a':{'b':1,'c':true}}")
  = Some (JObj [(str "a", JObj [(str "b", JNum one); (str "c", JBool true)])])
  /\ exists ps',
       @updateJsonAtPath ecma2023 (lit "{'a':{'b':1,'c':true}}")
         [SegStr (str "a")] [(str "b", str "2"); (str "d", str "x")]
       = Normal
           {| returned :=
                JSON_stringify
                  (update_at [str "a"] (fun _ => JObj ps')
                     (JObj [(str "a",
                             JObj [(str "b", JNum one);
                                   (str "c", JBool true)])]));
              logged := [] |}
       /\ own_property (str "b") ps' = Some (JStr (str "2"))
       /\ own_property (str "d") ps' = Some (JStr (str "x"))
       /\ own_property (str "c") ps' = Some (JBool true).
Proof.
  assert (Hp : JSON_parse (lit "{'a':{'b':1,'c':true}}")
               = Some (JObj [(str "a", JObj [(str "b", JNum one);
                                             (str "c", JBool true)])]))
    by (vm_compute; reflexivity).
  split; [exact Hp|].
  destruct (proj1 (@updateJsonAtPath_object_target ecma2023)
              (lit "{'a':{'b':1,'c':true}}") _ [SegStr (str "a")]
              [(str "b", JNum one); (str "c", JBool true)] [str "a"]
              [(str "b", str "2"); (str "d", str "x")] Hp)
    as [ps' [Hret [_ [Hset Hkeep]]]].
  - vm_compute. reflexivity.
  - repeat constructor; simpl; intuition discriminate.
  - exists ps'. split; [exact Hret|]. repeat split.
    + apply Hset; [simpl; auto | left; discriminate].
    + apply Hset; [simpl; auto | left; discriminate].
    + rewrite Hkeep; [reflexivity | simpl; intuition discriminate].
Defined.

(** C1, where the code departs from the claim: the text [{}] is valid
    JSON and the empty path reaches its object, yet the entry named
    [__proto__] is not set on it, the assignment going to the setter
    that the object inherits; the call returns the empty object it
    parsed, and not the object that holds the entry. *)
Lemma updateJsonAtPath_proto_entry_ignored :
  JSON_parse (str "{}") = Some (JObj [])
  /\ @walk ecma2023 (Some (JObj [])) [] [] = Normal (Some (JObj []), [])
  /\ @updateJsonAtPath ecma2023 (str "{}") [] [(PROTO, str "x")]
     = Normal {| returned := str "{}"; logged := [] |}
  /\ JSON_stringify (JObj [(PROTO, JStr (str "x"))])
     = lines ["{"; "  '__proto__': 'x'"; "}"]%string.
Proof. repeat split; vm_compute; reflexivity. Qed.

Lemma updateJsonAtPath_invalid_text_witness :
  JSON_parse (lit "{'a':1") = None
  /\ @updateJsonAtPath ecma2023 (lit "{'a':1") [SegStr (str "a")]
       [(str "a", str "2")]
     = Normal {| returned := lit "{'a':1"; logged := [SyntaxError] |}.
Proof.
  assert (Hp : JSON_parse (lit "{'a':1") = None) by (vm_compute; reflexivity).
  split; [exact Hp|].
  exact (proj1 (@updateJsonAtPath_invalid_text ecma2023) _ _ _ Hp).
Defined.



Lemma updateJsonAtPath_walk_failure_witness :
  JSON_parse (lit "{'a':null}") = Some (JObj [(str "a", JNull)])
  /\ @walk ecma2023 (Some (JObj [(str "a", JNull)])) []
       [SegStr (str "a"); SegStr (str "b")] = Throw TypeError
  /\ @updateJsonAtPath ecma2023 (lit "{'a':null}")
       [SegStr (str "a"); SegStr (str "b")] [(str "x", str "y")]
     = Normal {| returned := lit "{'a':null}"; logged := [TypeError] |}.
Proof.
  assert (Hp : JSON_parse (lit "{'a':null}") = Some (JObj [(str "a", JNull)]))
    by (vm_compute; reflexivity).
  assert (Hw : @walk ecma2023 (Some (JObj [(str "a", JNull)])) []
                 [SegStr (str "a"); SegStr (str "b")] = Throw TypeError)
    by (vm_compute; reflexivity).
  split; [exact Hp|]. split; [exact Hw|].
  exact (proj1 (@updateJsonAtPath_walk_failure ecma2023) _ _ _ _ _ Hp Hw).
Defined.

(** C4, the claim as stated fails: where the walk fails the call
    returns the text, and no call at all ends with a failure. *)
Lemma updateJsonAtPath_failure_is_handled :
  @updateJsonAtPath ecma2023 (lit "{'a':[]}")
    [SegStr (str "a"); SegNum (number_of_Z 3); SegStr (str "b")] []
  = Normal {| returned := lit "{'a':[]}"; logged := [TypeError] |}
  /\ ~ (exists (realm : Realm) text path newValues e,
          JSON_parse text <> None
          /\ @updateJsonAtPath realm text path newValues = Throw e).
Proof.
  split; [vm_compute; reflexivity|].
  intros [realm [text [path [newValues [e [_ H]]]]]].
  exact (updateJsonAtPath_returns _ _ _ _ H).
Qed.

(** The rows of the example of the specification: the row of type
    ["object"] is left out. *)
Lemma normalizeNodeData_refines_spec_witness :
  @normalizeNodeData ecma2023 _
    (Some [row_of (Some "a") (SNum one) "number";
           row_of (Some "b") (SStr (str "x")) "object"])
  = Normal
      (@normalizeNodeData_spec ecma2023 _
         (option_map (map blank_empty_key)
            (Some [row_of (Some "a") (SNum one) "number";
                   row_of (Some "b") (SStr (str "x")) "object"])))
  /\ @normalizeNodeData ecma2023 _
       (Some [row_of (Some "a") (SNum one) "number";
              row_of (Some "b") (SStr (str "x")) "object"])
     = Normal (lines ["{"; "  'a': 1"; "}"]%string).
Proof.
  split; [|vm_compute; reflexivity].
  apply normalizeNodeData_refines_spec.
  - intros l row Hl Hin. injection Hl as <-.
    destruct Hin as [<-|[<-|[]]]; vm_compute; discriminate.
  - intros l row Hl Hin. injection Hl as <-.
    destruct Hin as [<-|[<-|[]]]; eexists; reflexivity.
Defined.

(** C5, the claim as stated fails: a single row whose key is the empty
    string has a key, yet its value is returned as text. *)
Lemma normalizeNodeData_empty_key :
  @normalizeNodeData ecma2023 _
    (Some [row_of (Some "") (SStr (str "x")) "string"])
  = Normal (str "x")
  /\ @normalizeNodeData_spec ecma2023 _
       (Some [row_of (Some "") (SStr (str "x")) "string"])
     = lines ["{"; "  '': 'x'"; "}"]%string.
Proof. split; vm_compute; reflexivity. Qed.

(** A session in which the input of the row keyed [a] was edited: the
    row takes the entry, the other rows are as they were. *)
Lemma handleSave_selected_node_witness :
  @updatedNode ecma2023 _ _ [(str "a", str "2")] sample_node
  = {| text := [row_of (Some "a") (SStr (str "2")) "number";
                row_of (Some "") (SStr (str "e")) "string";
                row_of None (SBool true) "boolean";
                row_of (Some "o") (SStr (str "{2 keys}")) "object"];
       path := Some [SegStr (str "n")]; node_rest := tt |}
  /\ exists w',
       @handleSave ecma2023 _ _ _ (editing [(str "a", str "2")]) = Normal w'
       /\ selectedNode w'
          = Some (@updatedNode ecma2023 _ _ [(str "a", str "2")] sample_node).
Proof.
  destruct (@handleSave_selected_node ecma2023 _ _ _
              (editing [(str "a", str "2")]) sample_node eq_refl)
    as [Hnode Hsave].
  - intros row k Hin Hk Hown.
    destruct (keyed_key _ _ Hk) as [Hs [Hkey Hn]].
    destruct Hin as [<-|[<-|[<-|[<-|[]]]]].
    + injection Hkey as <-. discriminate Hown.
    + injection Hkey as <-. discriminate Hn.
    + discriminate Hkey.
    + discriminate Hs.
  - split; [exact Hnode|].
    destruct (@handleSave ecma2023 _ _ _ (editing [(str "a", str "2")]))
      as [w'| |] eqn:E; [|vm_compute in E; discriminate E ..].
    exists w'. split; [reflexivity|]. apply Hsave. reflexivity.
Defined.

(** C7, the claim as stated fails: a row whose key is the empty string
    has its key, and after typing into its input the edited values hold
    an entry for it; Save writes the entry into the document, and the
    row keeps its value. *)
Lemma handleSave_empty_key_row :
  exists w',
    @run ecma2023 _ _ _ (viewing (sample_text) sample_node)
      [ClickEdit; TypeInto 1 (str "new"); ClickSave] = Normal w'
    /\ own_property [] (editedValues w') = Some (str "new")
    /\ option_map text (selectedNode w')
       = Some [row_of (Some "a") (SStr (str "1")) "number";
               row_of (Some "") (SStr (str "e")) "string";
               row_of None (SBool true) "boolean";
               row_of (Some "o") (SStr (str "{2 keys}")) "object"]
    /\ contents w'
       = lines ["{"; "  'n': {"; "    'a': '1',"; "    '': 'new',";
                "    'o': {}"; "  }"; "}"]%string.
Proof. eexists. repeat split; vm_compute; reflexivity. Qed.

(** Edit and Save on a node one row of which is keyed [__proto__]: the
    values of the session hold no entry of that name, Save reads
    [Object.prototype] for it and makes it the value of the row; the
    document gets the entry of the row keyed [constructor], and the
    dialog then shows the object with that entry alone. *)
Lemma handleSave_proto_row :
  exists w',
    @run ecma2023 _ _ _ (viewing (str "{}") builtin_node)
      [ClickEdit; ClickSave] = Normal w'
    /\ editedValues w' = [(str "constructor", str "c")]
    /\ option_map text (selectedNode w')
       = Some [row_of (Some "constructor") (SStr (str "c")) "string";
               {| key := Some PROTO; value := Foreign ObjectPrototype;
                  type := str "string"; row_rest := tt |};
               row_of (Some "") (SStr (str "e")) "string"]
    /\ contents w' = lines ["{"; "  'constructor': 'c'"; "}"]%string
    /\ console w' = []
    /\ @render ecma2023 _ _ _ w'
       = Normal (Content false
                   (lines ["{"; "  'constructor': 'c'"; "}"]%string)
                   (str "$")).
Proof. eexists. repeat split; vm_compute; reflexivity. Qed.

Lemma cancel_leaves_stores_witness :
  exists w',
    @run ecma2023 _ _ _ (viewing (sample_text) sample_node)
      [ClickEdit; TypeInto 0 (str "7"); TypeInto 2 (str "false"); ClickCancel]
    = Normal w'
    /\ isEditing w' = false /\ editedValues w' = []
    /\ contents w' = sample_text
    /\ selectedNode w' = Some sample_node.
Proof.
  destruct (@cancel_leaves_stores ecma2023 _ _ _
              (viewing (sample_text) sample_node)
              sample_node [(0, str "7"); (2, str "false")]
              eq_refl eq_refl eq_refl)
    as [w' [Hrun [He [Hv [Hc [_ [_ [Hs _]]]]]]]].
  exists w'. repeat split; assumption.
Defined.

Lemma edit_enabled_without_keys_witness :
  editDisabled keyless_node = false
  /\ @step ecma2023 _ _ _ (viewing (str "[]") keyless_node) ClickEdit
     = Normal (set_session true [] (viewing (str "[]") keyless_node)).
Proof.
  apply (proj2 (@edit_enabled_without_keys ecma2023 _ _ _)
           (viewing (str "[]") keyless_node) keyless_node eq_refl eq_refl).
  - exists (row_of None (SNum one) "number"). split; [left|]; reflexivity.
  - intros row [<-|[<-|[<-|[]]]]; vm_compute; congruence.
Defined.

Lemma updateJsonAtPath_round_trip_witness :
  JSON_parse (lit "{'a':[1.5,{'b':'x'}]}")
  = Some (JObj [(str "a",
                 JArr [Some (JNum (round_decimal false 15 (-1)));
                       Some (JObj [(str "b", JStr (str "x"))])])])
  /\ @updateJsonAtPath ecma2023 (lit "{'a':[1.5,{'b':'x'}]}")
       [SegStr (str "a")] []
     = Normal
         {| returned :=
              lines ["{"; "  'a': ["; "    1.5,"; "    {"; "      'b': 'x'";
                     "    }"; "  ]"; "}"];
            logged := [] |}
  /\ JSON_parse
       (lines ["{"; "  'a': ["; "    1.5,"; "    {"; "      'b': 'x'";
               "    }"; "  ]"; "}"])
     = JSON_parse (lit "{'a':[1.5,{'b':'x'}]}").
Proof.
  assert (Hp : JSON_parse (lit "{'a':[1.5,{'b':'x'}]}")
               = Some (JObj [(str "a",
                              JArr [Some (JNum (round_decimal false 15 (-1)));
                                    Some (JObj [(str "b", JStr (str "x"))])])]))
    by (vm_compute; reflexivity).
  split; [exact Hp|].
  destruct (@updateJsonAtPath_round_trip ecma2023
              (lit "{'a':[1.5,{'b':'x'}]}") _ [SegStr (str "a")]
              (Some (JArr [Some (JNum (round_decimal false 15 (-1)));
                           Some (JObj [(str "b", JStr (str "x"))])]))
              [str "a"] Hp)
    as [Hret Hback].
  - vm_compute. reflexivity.
  - reflexivity.
  - discriminate.
  - split.
    + rewrite Hret. vm_compute. reflexivity.
    + apply Hback. vm_compute. reflexivity.
Defined.

(** C9, the claim as stated fails: a number too large for a Number is
    parsed as an infinity and written [null]; the text returned is not
    the document of the input. *)
Lemma updateJsonAtPath_overflow_written_null :
  JSON_parse (lit "{'a':1e999}") = Some (JObj [(str "a", JNum (Inf false))])
  /\ @walk ecma2023 (Some (JObj [(str "a", JNum (Inf false))])) [] []
     = Normal (Some (JObj [(str "a", JNum (Inf false))]), [])
  /\ @updateJsonAtPath ecma2023 (lit "{'a':1e999}") [] []
     = Normal {| returned := lines ["{"; "  'a': null"; "}"]; logged := [] |}
  /\ JSON_parse (lines ["{"; "  'a': null"; "}"])
     = Some (JObj [(str "a", JNull)]).
Proof. repeat split; vm_compute; reflexivity. Qed.

(** ** Further runs *)

(** A path that leaves the document: the walk fails on the value that
    is not there, and the text comes back. *)
Lemma updateJsonAtPath_always_returns_witness :
  exists out,
    @updateJsonAtPath ecma2023 (lit "{'a':[1]}")
      [SegStr (str "a"); SegNum (number_of_Z 5); SegStr (str "b")]
      [(str "x", str "y")] = Normal out
    /\ (logged out = []
        \/ (returned out = lit "{'a':[1]}" /\ exists e, logged out = [e])).
Proof.
  apply (@updateJsonAtPath_always_returns ecma2023).
  intros seg kd [<-|[<-|[<-|[]]]]; destruct kd; vm_compute; reflexivity.
Defined.

(** The array beside the object that is updated. *)
Lemma updateJsonAtPath_frame_witness :
  exists doc',
    JSON_stringify doc'
    = lines ["{"; "  'a': {"; "    'b': '2'"; "  },"; "  'c': ["; "    1,";
             "    2"; "  ]"; "}"]
    /\ part_at [str "c"; str "1"] doc' = Some (JNum (number_of_Z 2)).
Proof.
  destruct (@updateJsonAtPath_frame ecma2023
              (lit "{'a':{'b':1},'c':[1,2]}")
              (JObj [(str "a", JObj [(str "b", JNum one)]);
                     (str "c", JArr [Some (JNum one);
                                     Some (JNum (number_of_Z 2))])])
              [SegStr (str "a")] (Some (JObj [(str "b", JNum one)]))
              [str "a"] [(str "b", str "2")]
              {| returned :=
                   lines ["{"; "  'a': {"; "    'b': '2'"; "  },"; "  'c': [";
                          "    1,"; "    2"; "  ]"; "}"];
                 logged := [] |})
    as [doc' [Hret Hframe]].
  - vm_compute. reflexivity.
  - vm_compute. reflexivity.
  - vm_compute. reflexivity.
  - reflexivity.
  - exists doc'. split; [symmetry; exact Hret|].
    pose proof (Hframe [] (str "a") (str "c") [] [str "1"] eq_refl) as H.
    cbn [app] in H. rewrite H; [vm_compute; reflexivity | discriminate].
Defined.

Lemma updateJsonAtPath_array_length_rejected_witness :
  @updateJsonAtPath ecma2023 (str "[1,2]") []
    [(str "0", str "x"); (LENGTH, str "abc")]
  = Normal {| returned := str "[1,2]"; logged := [RangeError] |}.
Proof.
  apply (@updateJsonAtPath_array_length_rejected ecma2023 _
           (JArr [Some (JNum one); Some (JNum (number_of_Z 2))]) []
           [Some (JNum one); Some (JNum (number_of_Z 2))] [] _ (str "abc")).
  - vm_compute. reflexivity.
  - vm_compute. reflexivity.
  - right. left. reflexivity.
  - vm_compute. reflexivity.
Defined.

(** An element within the array, one past its end, and a key that is
    no index. *)
Lemma updateJsonAtPath_array_target_witness :
  exists xs',
    @updateJsonAtPath ecma2023 (lit "{'l':[1,2,3]}") [SegStr (str "l")]
      [(str "1", str "x"); (str "4", str "y"); (str "foo", str "z")]
    = Normal
        {| returned :=
             JSON_stringify
               (update_at [str "l"] (fun _ => JArr xs')
                  (JObj [(str "l", JArr [Some (JNum one);
                                         Some (JNum (number_of_Z 2));
                                         Some (JNum (number_of_Z 3))])]));
           logged := [] |}
    /\ element 1 xs' = Some (JStr (str "x"))
    /\ element 4 xs' = Some (JStr (str "y"))
    /\ element 0 xs' = Some (JNum one)
    /\ element 3 xs' = None
    /\ 3 <= List.length xs'.
Proof.
  destruct (@updateJsonAtPath_array_target ecma2023
              (lit "{'l':[1,2,3]}")
              (JObj [(str "l", JArr [Some (JNum one);
                                     Some (JNum (number_of_Z 2));
                                     Some (JNum (number_of_Z 3))])])
              [SegStr (str "l")]
              [Some (JNum one); Some (JNum (number_of_Z 2));
               Some (JNum (number_of_Z 3))]
              [str "l"]
              [(str "1", str "x"); (str "4", str "y"); (str "foo", str "z")])
    as [xs' [Hret [Hin [Hout [Hle _]]]]].
  - vm_compute. reflexivity.
  - vm_compute. reflexivity.
  - repeat constructor; simpl; intuition discriminate.
  - simpl. intuition discriminate.
  - exists xs'. split; [exact Hret|]. repeat split.
    + apply (Hin (str "1") (str "x") 1%N); [simpl; auto|].
      vm_compute. reflexivity.
    + apply (Hin (str "4") (str "y") 4%N); [simpl; auto|].
      vm_compute. reflexivity.
    + rewrite (Hout 0); [reflexivity|].
      intros k [<-|[<-|[<-|[]]]]; vm_compute; discriminate.
    + rewrite (Hout 3); [reflexivity|].
      intros k [<-|[<-|[<-|[]]]]; vm_compute; discriminate.
    + exact Hle.
Defined.

(** An overwritten key keeps its place, the new keys follow. *)
Lemma updateJsonAtPath_key_order_witness :
  exists ps',
    @updateJsonAtPath ecma2023 (lit "{'b':1,'a':2}") []
      [(str "a", str "x"); (str "z", str "y"); (str "c", str "w")]
    = Normal
        {| returned :=
             JSON_stringify
               (update_at [] (fun _ => JObj ps')
                  (JObj [(str "b", JNum one);
                         (str "a", JNum (number_of_Z 2))]));
           logged := [] |}
    /\ keys ps' = [str "b"; str "a"; str "z"; str "c"].
Proof.
  destruct (@updateJsonAtPath_key_order ecma2023
              (lit "{'b':1,'a':2}")
              (JObj [(str "b", JNum one); (str "a", JNum (number_of_Z 2))])
              []
              [(str "b", JNum one); (str "a", JNum (number_of_Z 2))]
              []
              [(str "a", str "x"); (str "z", str "y"); (str "c", str "w")])
    as [ps' [Hret Hkeys]].
  - vm_compute. reflexivity.
  - vm_compute. reflexivity.
  - repeat constructor; simpl; intuition discriminate.
  - intros k [<-|[<-|[<-|[]]]] H.
    + vm_compute in H. discriminate H.
    + split; [vm_compute; reflexivity | discriminate].
    + split; [vm_compute; reflexivity | discriminate].
  - exists ps'. split; [exact Hret|]. rewrite Hkeys. vm_compute. reflexivity.
Defined.

Lemma updateJsonAtPath_past_missing_witness :
  @updateJsonAtPath ecma2023 (lit "{'a':null}")
    [SegStr (str "a"); SegStr (str "b"); SegStr (str "c")] []
  = Normal {| returned := lit "{'a':null}"; logged := [TypeError] |}.
Proof.
  apply (@updateJsonAtPath_past_missing ecma2023 (lit "{'a':null}")
           (JObj [(str "a", JNull)]) [SegStr (str "a")] (SegStr (str "b"))
           [SegStr (str "c")] (Some JNull) [str "a"] []).
  - vm_compute. reflexivity.
  - vm_compute. reflexivity.
  - right. reflexivity.
Defined.

(** The error of an entry [length] on an array. *)
Lemma updateJsonAtPath_errors_witness :
  exists out doc xs place v,
    @updateJsonAtPath ecma2023 (lit "{'l':[1,2]}") [SegStr (str "l")]
      [(LENGTH, str "abc")] = Normal out
    /\ returned out = lit "{'l':[1,2]}" /\ logged out = [RangeError]
    /\ JSON_parse (lit "{'l':[1,2]}") = Some doc
    /\ @walk ecma2023 (Some doc) [] [SegStr (str "l")]
       = Normal (Some (JArr xs), place)
    /\ In (LENGTH, v) [(LENGTH, str "abc")]
    /\ array_length_of (StringToNumber v) = None.
Proof.
  destruct (@updateJsonAtPath_errors ecma2023 (lit "{'l':[1,2]}")
              [SegStr (str "l")] [(LENGTH, str "abc")])
    as [out [Hret Hlog]].
  - intros seg kd [<-|[]]. destruct kd; vm_compute; reflexivity.
  - assert (E : out = {| returned := lit "{'l':[1,2]}";
                         logged := [RangeError] |}).
    { vm_compute in Hret. injection Hret as <-. vm_compute. reflexivity. }
    destruct (Hlog RangeError) as [Hr [Hl Hkind]].
    { rewrite E. left. reflexivity. }
    destruct Hkind as [[H _]|[doc [Hp [[H _]|[_ [xs [place [v H]]]]]]]];
      try discriminate H.
    exists out, doc, xs, place, v. auto.
Defined.

Lemma updateJsonAtPath_twice_witness :
  exists out,
    @updateJsonAtPath ecma2023 (lit "{'a':{'b':1,'c':[1.5]}}")
      [SegStr (str "a")] [(str "b", str "2"); (str "d", str "x")]
    = Normal out
    /\ @updateJsonAtPath ecma2023 (returned out) [SegStr (str "a")]
         [(str "b", str "2"); (str "d", str "x")]
       = Normal out.
Proof.
  destruct (@updateJsonAtPath ecma2023 (lit "{'a':{'b':1,'c':[1.5]}}")
              [SegStr (str "a")] [(str "b", str "2"); (str "d", str "x")])
    as [out| |] eqn:E; [|vm_compute in E; discriminate E ..].
  exists out. split; [reflexivity|].
  apply (@updateJsonAtPath_twice ecma2023 (lit "{'a':{'b':1,'c':[1.5]}}")
           (JObj [(str "a",
                   JObj [(str "b", JNum one);
                         (str "c",
                          JArr [Some (JNum (round_decimal false 15 (-1)))])])])
           [SegStr (str "a")]
           [(str "b", JNum one);
            (str "c", JArr [Some (JNum (round_decimal false 15 (-1)))])]
           [str "a"]).
  - vm_compute. reflexivity.
  - vm_compute. reflexivity.
  - repeat constructor; simpl; intuition discriminate.
  - vm_compute. reflexivity.
  - exact E.
Defined.

(** The two zeros are written alike, and name the same element. *)
Lemma jsonPathToString_names_place_witness :
  jsonPathToString (Some [SegNum (Fin true 0 0)]) = str "$[0]"
  /\ @updateJsonAtPath ecma2023 (str "[7]") [SegNum (Fin false 0 0)]
       [(str "x", str "y")]
     = @updateJsonAtPath ecma2023 (str "[7]") [SegNum (Fin true 0 0)]
         [(str "x", str "y")].
Proof.
  split; [vm_compute; reflexivity|].
  apply (proj2 (@jsonPathToString_names_place ecma2023
                  (Some [SegNum (Fin false 0 0)])
                  (Some [SegNum (Fin true 0 0)])
                  ltac:(repeat constructor) ltac:(repeat constructor)
                  eq_refl)).
Defined.

Lemma normalizeNodeData_no_keyed_row_witness :
  @normalizeNodeData ecma2023 _ (Some (text keyless_node))
  = Normal (str "{}").
Proof.
  apply normalizeNodeData_no_keyed_row.
  - intros row E. discriminate E.
  - intros row [<-|[<-|[<-|[]]]] H; try (vm_compute in H; discriminate H);
      vm_compute; reflexivity.
Defined.

Lemma normalizeNodeData_reads_back_witness :
  exists shown ps,
    @normalizeNodeData ecma2023 _ (Some (text sample_node)) = Normal shown
    /\ JSON_parse shown = Some (JObj ps)
    /\ own_property (str "a") ps = Some (JNum one)
    /\ own_property (str "o") ps = None.
Proof.
  destruct (@normalizeNodeData_reads_back ecma2023 _ (text sample_node))
    as [shown [ps [Hn [Hp Hk]]]].
  - intros row [<-|[<-|[<-|[<-|[]]]]]; eexists; reflexivity.
  - intros row E. discriminate E.
  - intros row n [<-|[<-|[<-|[<-|[]]]]] E; simpl in E; try discriminate E.
    injection E as <-. vm_compute. reflexivity.
  - exists shown, ps. split; [exact Hn|]. split; [exact Hp|].
    split; rewrite Hk by discriminate; vm_compute; reflexivity.
Defined.

(** Typing into the third input of the sample node, whose row has no
    key. *)
Lemma typing_changes_one_key_witness :
  exists w' inputs',
    @step ecma2023 _ _ _ (editing [(str "a", str "1")])
      (TypeInto 2 (str "false")) = Normal w'
    /\ @render ecma2023 _ _ _ w' = Normal (Form inputs' (lit "$['n']"))
    /\ map input_value inputs'
       = [Held (SStr (str "1")); Held (SStr []); Held (SStr (str "false"))]
    /\ map label inputs' = [str "a"; str "Value"; str "Value"].
Proof.
  destruct (@typing_changes_one_key ecma2023 _ _ _
              (editing [(str "a", str "1")]) sample_node 2
              (row_of None (SBool true) "boolean") (str "false")
              [{| label := str "a"; input_value := Held (SStr (str "1"));
                  placeholder := str "Enter a" |};
               {| label := str "Value"; input_value := Held (SStr []);
                  placeholder := str "Enter value" |};
               {| label := str "Value"; input_value := Held (SStr []);
                  placeholder := str "Enter value" |}]
              (lit "$['n']") eq_refl eq_refl eq_refl)
    as [w' [inputs' [Hstep [Hview [Hlen Heach]]]]].
  - vm_compute. reflexivity.
  - exists w', inputs'. split; [exact Hstep|]. split; [exact Hview|].
    destruct inputs' as [|i0 [|i1 [|i2 [|i3 rest]]]]; try discriminate Hlen.
    destruct (Heach 0 _ _ i0 eq_refl eq_refl eq_refl) as [L0 [_ V0]].
    destruct (Heach 1 _ _ i1 eq_refl eq_refl eq_refl) as [L1 [_ V1]].
    destruct (Heach 2 _ _ i2 eq_refl eq_refl eq_refl) as [L2 [_ V2]].
    simpl. rewrite L0, L1, L2, V0, V1, V2. split; reflexivity.
Defined.

(** The form of a node with rows keyed [constructor], [__proto__] and
    the empty string. *)
Lemma fresh_session_form_witness :
  exists w' inputs,
    @step ecma2023 _ _ _ (viewing (str "{}") builtin_node) ClickEdit
    = Normal w'
    /\ @render ecma2023 _ _ _ w' = Normal (Form inputs (str "$"))
    /\ map input_value inputs
       = [Held (SStr (str "c")); Foreign ObjectPrototype; Held (SStr [])]
    /\ map label inputs = [str "constructor"; str "__proto__"; str "Value"].
Proof.
  destruct (@fresh_session_form ecma2023 _ _ _
              (viewing (str "{}") builtin_node) builtin_node
              eq_refl eq_refl eq_refl)
    as [w' [inputs [Hstep [Hview [Hlen Heach]]]]].
  exists w', inputs. split; [exact Hstep|]. split; [exact Hview|].
  destruct inputs as [|i0 [|i1 [|i2 [|i3 rest]]]]; try discriminate Hlen.
  destruct (Heach 0 _ i0 eq_refl eq_refl) as [L0 [_ V0]].
  destruct (Heach 1 _ i1 eq_refl eq_refl) as [L1 [_ V1]].
  destruct (Heach 2 _ i2 eq_refl eq_refl) as [L2 [_ V2]].
  simpl. rewrite L0, L1, L2, V0, V1, V2. split; reflexivity.
Defined.

Lemma nothing_to_edit_witness :
  @run ecma2023 _ _ _ (viewing (str "{}") nested_node)
    [ClickEdit; TypeInto 0 (str "x"); ClickSave; ClickCancel]
  = Normal (viewing (str "{}") nested_node).
Proof.
  apply (@nothing_to_edit ecma2023).
  intros nodeData E. injection E as <-. split; reflexivity.
Defined.

Lemma save_alone_writes_witness :
  exists w',
    @run ecma2023 _ _ _ (viewing sample_text sample_node)
      [ClickEdit; TypeInto 0 (str "9"); ClickCancel; ClickEdit;
       TypeInto 2 (str "x")] = Normal w'
    /\ contents w' = sample_text /\ hasChanges w' = false
    /\ selectedNode w' = Some sample_node /\ console w' = [].
Proof.
  destruct (@save_alone_writes ecma2023 _ _ _
              [ClickEdit; TypeInto 0 (str "9"); ClickCancel; ClickEdit;
               TypeInto 2 (str "x")]
              (viewing sample_text sample_node))
    as [w' [Hrun [Hc [_ [Hh [Hs Hl]]]]]].
  - simpl. intuition discriminate.
  - exists w'. repeat split; assumption.
Defined.

(** Save on contents that are not valid JSON. *)
Lemma handleSave_marks_changed_witness :
  exists w',
    @handleSave ecma2023 _ _ _
      {| contents := str "not json"; format := tt; hasChanges := false;
         selectedNode := Some sample_node; isEditing := true;
         editedValues := [(str "a", str "2")]; console := [] |}
    = Normal w'
    /\ hasChanges w' = true /\ isEditing w' = false
    /\ contents w' = str "not json" /\ console w' = [SyntaxError].
Proof.
  destruct (@handleSave ecma2023 _ _ _
              {| contents := str "not json"; format := tt;
                 hasChanges := false; selectedNode := Some sample_node;
                 isEditing := true; editedValues := [(str "a", str "2")];
                 console := [] |})
    as [w'| |] eqn:E; [|vm_compute in E; discriminate E ..].
  exists w'. split; [reflexivity|].
  destruct (@handleSave_marks_changed ecma2023 _ _ _
              {| contents := str "not json"; format := tt;
                 hasChanges := false; selectedNode := Some sample_node;
                 isEditing := true; editedValues := [(str "a", str "2")];
                 console := [] |} sample_node w'
              eq_refl E) as [He [Hh [_ [_ [_ Hbad]]]]].
  destruct Hbad as [Hc Hl]; [vm_compute; reflexivity|].
  repeat split; assumption.
Defined.

(** Typing into the input of the row of the sample node whose key is
    the empty string, and Save: the document gets the entry, and the
    row keeps its value. *)
Lemma typed_value_is_saved_witness :
  exists w' ps' rows',
    @run ecma2023 _ _ _ (viewing sample_text sample_node)
      [ClickEdit; TypeInto 1 (str "new"); ClickSave] = Normal w'
    /\ contents w'
       = JSON_stringify
           (update_at [str "n"] (fun _ => JObj ps') sample_document)
    /\ own_property [] ps' = Some (JStr (str "new"))
    /\ option_map text (selectedNode w') = Some rows'
    /\ nth_error rows' 1 = Some (row_of (Some "") (SStr (str "e")) "string")
    /\ hasChanges w' = true /\ isEditing w' = false.
Proof.
  destruct (@typed_value_is_saved ecma2023 _ _ _
              (viewing sample_text sample_node) sample_node 1
              (row_of (Some "") (SStr (str "e")) "string") (str "new")
              sample_document sample_object [str "n"] eq_refl eq_refl eq_refl)
    as [w' [ps' [rows' [Hrun [Hc [Hown [Hsel [_ [Hrows [Hh [He _]]]]]]]]]]].
  - vm_compute. discriminate.
  - vm_compute. reflexivity.
  - vm_compute. reflexivity.
  - exists w', ps', rows'. split; [exact Hrun|]. split; [exact Hc|].
    split; [exact Hown|]. split; [rewrite Hsel; reflexivity|].
    split; [|auto].
    apply (Hrows 1 (row_of (Some "") (SStr (str "e")) "string"));
      [reflexivity|].
    intros k. vm_compute. reflexivity.
Defined.

(** Edit and Save on the sample node: the number [1] of the row [a]
    is written as the string ["1"], in the node and in the document. *)
Lemma save_without_typing_witness :
  exists w' ps' rows',
    @run ecma2023 _ _ _ (viewing sample_text sample_node)
      [ClickEdit; ClickSave] = Normal w'
    /\ contents w'
       = JSON_stringify
           (update_at [str "n"] (fun _ => JObj ps') sample_document)
    /\ own_property (str "a") ps' = Some (JStr (str "1"))
    /\ own_property (str "o") ps' = Some (JObj [])
    /\ option_map text (selectedNode w') = Some rows'
    /\ nth_error rows' 0 = Some (row_of (Some "a") (SStr (str "1")) "number")
    /\ nth_error rows' 2 = Some (row_of None (SBool true) "boolean").
Proof.
  destruct (@save_without_typing ecma2023 _ _ _
              (viewing sample_text sample_node) sample_node
              sample_document sample_object [str "n"]
              eq_refl eq_refl eq_refl)
    as [w' [ps' [rows' [Hrun [Hc [Hsel [_ [Hset [Hkeep [Hrow Hrest]]]]]]]]]].
  - intros r [<-|[<-|[<-|[<-|[]]]]]; vm_compute; discriminate.
  - vm_compute. reflexivity.
  - vm_compute. reflexivity.
  - exists w', ps', rows'. split; [exact Hrun|]. split; [exact Hc|].
    split; [apply (Hset (str "a") (row_of (Some "a") (SNum one) "number"));
            vm_compute; reflexivity|].
    split; [rewrite Hkeep; vm_compute; reflexivity|].
    split; [rewrite Hsel; reflexivity|]. split.
    + destruct (Hrow 0 (row_of (Some "a") (SNum one) "number") (str "a"))
        as [shown [El Hr]]; try (vm_compute; reflexivity).
      vm_compute in El. injection El as <-. exact Hr.
    + apply Hrest; [reflexivity|].
      intros k. vm_compute. reflexivity.
Defined.

Lemma cancel_then_edit_witness :
  @run ecma2023 _ _ _ (viewing sample_text sample_node)
    [ClickEdit; TypeInto 0 (str "7"); ClickCancel; ClickEdit]
  = @run ecma2023 _ _ _ (viewing sample_text sample_node) [ClickEdit].
Proof.
  exact (@cancel_then_edit ecma2023 _ _ _
           (viewing sample_text sample_node) sample_node [(0, str "7")]
           eq_refl eq_refl).
Defined.
